(** * drizzle-kit, [cli/commands/migrate.ts]: conflict resolvers, migration
      writer, the embedded journal, snapshot folder names and the MySQL
      suggestions

    A shallow embedding of [src/drizzle-kit/src/cli/commands/migrate.ts].

    - JavaScript objects are compared by reference ([Array.indexOf] uses
      [===]).  The type [T] of a resolver is the type of object references:
      equality on [T] is object identity, and [name] / [schema] read the
      fields of the object behind the reference.  Two distinct references may
      carry the same field values.
    - An [async] resolver is embedded as a resumable machine: a [Config] is
      either suspended at [await render (view)] with its local variables, or
      has returned, or the process has exited.  [resume] runs the rest of the
      loop body with the value [render] resolved to, up to the next [await] or
      the [return].
    - The progress lines the resolvers print with [console.log] are not
      modelled; the console of [writeResult] is.
    - The calls of [fs] act on a store that maps paths, as they are
      written, to directories and files; it stands for a file system on
      relative paths in normal form ([simple_path]), which the theorems on
      the writer assume of [outFolder].  The calls throw as the system
      calls do: [readdirSync] and [lstatSync] on a path that does not
      exist, [writeFileSync] under a directory that does not exist or onto
      a directory, [mkdirSync] onto a file; [mkdirSync] makes the missing
      directories on the way; a directory is listed by name.  [path.join]
      normalises as [path.posix] does.  The console is the standard output;
      what [console.error] prints is not modelled.
    - A [generate] command is taken inside its [try] block, from the test of
      [config.custom] on: the calls before it belong to other modules, [cur]
      and [custom] are what they return and the world is the one they
      leave.  A run in which one of these calls throws ends in the [catch]
      before the test and is not a run of the embedded command. *)

From stdpp Require Import base list strings numbers option sorting.
From stdpp Require Import pretty.
From Stdlib Require Import ZArith Lia Ascii.

Open Scope Z_scope.
Open Scope string_scope.
Open Scope list_scope.
Open Scope nat_scope.

(** ** Entity model *)

(** [export type Named = { name: string }]: what [T extends Named] offers. *)
Class Named (T : Type) := name : T → string.

(** [export type NamedWithSchema = { name: string; schema: string }]. *)
Class NamedWithSchema (T : Type) := {
  NamedWithSchema_Named :: Named T;
  schema : T → string
}.

(** A concrete object: [oid] is the identity of the allocation, so that two
    objects with equal fields and different [oid] are different references. *)
Record Obj := mkObj { oid : nat; obj_name : string; obj_schema : string }.

#[global] Instance Obj_eq_dec : EqDecision Obj.
Proof. solve_decision. Defined.

#[global] Instance Obj_NamedWithSchema : NamedWithSchema Obj :=
  {| NamedWithSchema_Named := obj_name; schema := obj_schema |}.

(** ** JavaScript helpers *)

(** Truthiness of a string: [!s] is true exactly for the empty string. *)
Definition truthy (s : string) : bool :=
  match s with EmptyString => false | _ => true end.

(** [a || b] on strings. *)
Definition js_or (a b : string) : string := if truthy a then a else b.

Section Arrays.
Context {T : Type} `{EqDecision T}.

(** [arr.indexOf (x)]: the first index holding [x] (by [===]), or -1. *)
Fixpoint indexOf (arr : list T) (x : T) : Z :=
  match arr with
  | [] => (-1)%Z
  | y :: rest =>
      if decide (y = x) then 0%Z
      else let i := indexOf rest x in
           if (i <? 0)%Z then (-1)%Z else (i + 1)%Z
  end.

(** [delete arr[i]]: leaves a hole at an index of the array; for any other
    property key (such as -1) no element is touched. *)
Definition delete_at (i : Z) (arr : list (option T)) : list (option T) :=
  if (0 <=? i)%Z then <[Z.to_nat i := None]> arr else arr.

(** [arr.filter (Boolean)]: skips the holes (and [undefined]); object
    references are truthy. *)
Definition filter_Boolean (arr : list (option T)) : list T :=
  omap id arr.

(** The two statements
    [delete leftMissing[leftMissing.indexOf(x)]; leftMissing = leftMissing.filter(Boolean)]. *)
Definition remove_found (leftMissing : list T) (x : T) : list T :=
  filter_Boolean (delete_at (indexOf leftMissing x) (Some <$> leftMissing)).
End Arrays.

(** ** Prompt items and the answer of [render] *)

(** [RenamePropmtItem<T>] of [../views] (the spelling is the source's). *)
Record RenamePropmtItem (T : Type) := mkRename { from : T; to : T }.
Arguments mkRename {T}.
Arguments from {T}.
Arguments to {T}.

(** An element of [promptData : (RenamePropmtItem<T> | T)[]]. *)
Inductive PromptItem (T : Type) :=
| Plain (it : T)
| Rename (r : RenamePropmtItem T).
Arguments Plain {T}.
Arguments Rename {T}.

(** [isRenamePromptItem] of [../views]: whether the item has [from] and [to]. *)
Definition isRenamePromptItem {T} (item : PromptItem T) : bool :=
  match item with Rename _ => true | Plain _ => false end.

(** What [await render (view)] resolves to: [{ status, data }]. *)
Inductive Rendered (T : Type) :=
| aborted
| submitted (data : PromptItem T).
Arguments aborted {T}.
Arguments submitted {T}.

Inductive EntityKind := table | enum | sequence.

(** The views handed to [render]. *)
Inductive View (T : Type) :=
| ResolveColumnSelect (tableName : string) (created : T) (promptData : list (PromptItem T))
| ResolveSelect (created : T) (promptData : list (PromptItem T)) (entity : EntityKind)
| ResolveSchemasSelect (created : T) (promptData : list (PromptItem T)).
Arguments ResolveColumnSelect {T}.
Arguments ResolveSelect {T}.
Arguments ResolveSchemasSelect {T}.

Definition promptData {T} (v : View T) : list (PromptItem T) :=
  match v with
  | ResolveColumnSelect _ _ d => d
  | ResolveSelect _ d _ => d
  | ResolveSchemasSelect _ d => d
  end.

#[global] Instance RenamePropmtItem_eq_dec {T} `{EqDecision T} :
  EqDecision (RenamePropmtItem T).
Proof. solve_decision. Defined.
#[global] Instance PromptItem_eq_dec {T} `{EqDecision T} :
  EqDecision (PromptItem T).
Proof. solve_decision. Defined.
#[global] Instance Rendered_eq_dec {T} `{EqDecision T} :
  EqDecision (Rendered T).
Proof. solve_decision. Defined.

(** ** Resolver machines *)

(** The local variables of a resolver suspended at [await render]. *)
Record Locals (R T : Type) := mkLocals {
  index : nat;
  leftMissing : list T;
  result : R;
  created : T          (* [const created = newItems[index]] *)
}.
Arguments mkLocals {R T}.
Arguments index {R T}.
Arguments leftMissing {R T}.
Arguments result {R T}.
Arguments created {R T}.

Inductive Config (R T : Type) :=
| Awaiting (view : View T) (s : Locals R T)   (* suspended at [await render (view)] *)
| Returned (r : R)                            (* the promise resolved to [r] *)
| Exited (code : Z)                           (* [process.exit (code)] *)
| Undefined.                                  (* [newItems[index]] was [undefined] *)
Arguments Awaiting {R T}.
Arguments Returned {R T}.
Arguments Exited {R T}.
Arguments Undefined {R T}.

(** [{ created, renamed, deleted }]. *)
Module Output.
Record t (T : Type) := mk {
  created : list T;
  renamed : list (RenamePropmtItem T);
  deleted : list T
}.
Arguments mk {T}.
Arguments created {T}.
Arguments renamed {T}.
Arguments deleted {T}.
End Output.

(** An element of [moved]. *)
Record Moved := mkMoved {
  moved_name : string;
  schemaFrom : string;
  schemaTo : string
}.

(** [{ created, renamed, moved, deleted }]. *)
Module WithMoved.
Record t (T : Type) := mk {
  created : list T;
  renamed : list (RenamePropmtItem T);
  moved : list Moved;
  deleted : list T
}.
Arguments mk {T}.
Arguments created {T}.
Arguments renamed {T}.
Arguments moved {T}.
Arguments deleted {T}.
End WithMoved.

Section Resolvers.
Context {T : Type} `{EqDecision T}.

(** *** [promptColumnsConflicts] *)

(** Loop head: [created], [renames], [promptData], then [await render]. *)
Definition promptColumnsConflicts_render (tableName : string)
    (newColumns : list T) (index : nat) (leftMissing : list T)
    (result : Output.t T) : Config (Output.t T) T :=
  match newColumns !! index with
  | None => Undefined
  | Some created =>
      let renames := (λ it, mkRename it created) <$> leftMissing in
      let promptData := Plain created :: (Rename <$> renames) in
      Awaiting (ResolveColumnSelect tableName created promptData)
               (mkLocals index leftMissing result created)
  end.

(** The loop body after [await render], the loop test, and what follows the
    loop.  The test [isRenamePromptItem (data)] is the match on [data]. *)
Definition promptColumnsConflicts_resume (tableName : string)
    (newColumns : list T) (s : Locals (Output.t T) T)
    (answer : Rendered T) : Config (Output.t T) T :=
  match answer with
  | aborted => Exited 1
  | submitted data =>
      let result := result s in
      let '(result, leftMissing) :=
        match data with
        | Rename data =>
            (Output.mk (Output.created result)
                       (Output.renamed result ++ [data])
                       (Output.deleted result),
             remove_found (leftMissing s) (from data))
        | Plain _ =>
            (Output.mk (Output.created result ++ [created s])
                       (Output.renamed result)
                       (Output.deleted result),
             leftMissing s)
        end in
      let index := index s + 1 in
      if decide (index < length newColumns) then
        promptColumnsConflicts_render tableName newColumns
          index leftMissing result
      else
        Returned (Output.mk (Output.created result)
                            (Output.renamed result)
                            (Output.deleted result ++ leftMissing))
  end.

Definition promptColumnsConflicts (tableName : string)
    (newColumns missingColumns : list T) : Config (Output.t T) T :=
  if (length newColumns =? 0)%nat || (length missingColumns =? 0)%nat then
    Returned (Output.mk newColumns [] missingColumns)
  else
    promptColumnsConflicts_render tableName newColumns
      0 missingColumns (Output.mk [] [] []).

(** *** [promptSchemasConflict] *)

Definition promptSchemasConflict_render
    (newSchemas : list T) (index : nat) (leftMissing : list T)
    (result : Output.t T) : Config (Output.t T) T :=
  match newSchemas !! index with
  | None => Undefined
  | Some created =>
      let renames := (λ it, mkRename it created) <$> leftMissing in
      let promptData := Plain created :: (Rename <$> renames) in
      Awaiting (ResolveSchemasSelect created promptData)
               (mkLocals index leftMissing result created)
  end.

Definition promptSchemasConflict_resume
    (newSchemas : list T) (s : Locals (Output.t T) T)
    (answer : Rendered T) : Config (Output.t T) T :=
  match answer with
  | aborted => Exited 1
  | submitted data =>
      let result := result s in
      let '(result, leftMissing) :=
        match data with
        | Rename data =>
            (Output.mk (Output.created result)
                       (Output.renamed result ++ [data])
                       (Output.deleted result),
             remove_found (leftMissing s) (from data))
        | Plain _ =>
            (Output.mk (Output.created result ++ [created s])
                       (Output.renamed result)
                       (Output.deleted result),
             leftMissing s)
        end in
      let index := index s + 1 in
      if decide (index < length newSchemas) then
        promptSchemasConflict_render newSchemas index leftMissing result
      else
        Returned (Output.mk (Output.created result)
                            (Output.renamed result)
                            (Output.deleted result ++ leftMissing))
  end.

Definition promptSchemasConflict
    (newSchemas missingSchemas : list T) : Config (Output.t T) T :=
  if (length missingSchemas =? 0)%nat || (length newSchemas =? 0)%nat then
    Returned (Output.mk newSchemas [] missingSchemas)
  else
    promptSchemasConflict_render newSchemas
      0 missingSchemas (Output.mk [] [] []).

(** *** [promptNamedWithSchemasConflict] *)

Context `{NamedWithSchema T}.

Definition promptNamedWithSchemasConflict_render
    (newItems : list T) (entity : EntityKind)
    (index : nat) (leftMissing : list T) (result : WithMoved.t T)
  : Config (WithMoved.t T) T :=
  match newItems !! index with
  | None => Undefined
  | Some created =>
      let renames := (λ it, mkRename it created) <$> leftMissing in
      let promptData := Plain created :: (Rename <$> renames) in
      Awaiting (ResolveSelect created promptData entity)
               (mkLocals index leftMissing result created)
  end.

Definition promptNamedWithSchemasConflict_resume
    (newItems : list T) (entity : EntityKind)
    (s : Locals (WithMoved.t T) T) (answer : Rendered T)
  : Config (WithMoved.t T) T :=
  match answer with
  | aborted => Exited 1
  | submitted data =>
      let result := result s in
      let '(result, leftMissing) :=
        match data with
        | Rename data =>
            let renamed :=
              if decide (name (from data) ≠ name (to data))
              then WithMoved.renamed result ++ [data]
              else WithMoved.renamed result in
            let moved :=
              if decide (schema (from data) ≠ schema (to data))
              then WithMoved.moved result ++
                     [ {| moved_name := name (from data);
                          schemaFrom := js_or (schema (from data)) "public";
                          schemaTo := js_or (schema (to data)) "public" |} ]
              else WithMoved.moved result in
            (WithMoved.mk (WithMoved.created result) renamed moved
                          (WithMoved.deleted result),
             remove_found (leftMissing s) (from data))
        | Plain _ =>
            (WithMoved.mk (WithMoved.created result ++ [created s])
                          (WithMoved.renamed result)
                          (WithMoved.moved result)
                          (WithMoved.deleted result),
             leftMissing s)
        end in
      let index := index s + 1 in
      if decide (index < length newItems) then
        promptNamedWithSchemasConflict_render newItems entity
          index leftMissing result
      else
        Returned (WithMoved.mk (WithMoved.created result)
                               (WithMoved.renamed result)
                               (WithMoved.moved result)
                               (WithMoved.deleted result ++ leftMissing))
  end.

Definition promptNamedWithSchemasConflict
    (newItems missingItems : list T) (entity : EntityKind)
  : Config (WithMoved.t T) T :=
  if (length missingItems =? 0)%nat || (length newItems =? 0)%nat then
    Returned (WithMoved.mk newItems [] [] missingItems)
  else
    promptNamedWithSchemasConflict_render newItems entity
      0 missingItems (WithMoved.mk [] [] [] []).
End Resolvers.

(** ** Driving a machine with the answers of the oracle *)

Section Run.
Context {R T : Type} `{EqDecision T}.
Variable resume : Locals R T → Rendered T → Config R T.

(** Feeds the answers to the prompts in turn.  Returns the configuration
    reached and the answers that were not asked for. *)
Fixpoint run (c : Config R T) (answers : list (Rendered T))
  : Config R T * list (Rendered T) :=
  match c, answers with
  | Awaiting _ s, a :: rest => run (resume s a) rest
  | _, _ => (c, answers)
  end.

(** The answer is one of the options the view shows. *)
Definition offered (v : View T) (a : Rendered T) : Prop :=
  a ∈ submitted <$> promptData v.

(** Every answer that is asked for is one of the options of its prompt. *)
Fixpoint answers_offered (c : Config R T) (answers : list (Rendered T)) : Prop :=
  match c, answers with
  | Awaiting v s, a :: rest => offered v a ∧ answers_offered (resume s a) rest
  | _, _ => True
  end.
End Run.

(** ** Numbers and strings *)

(** A JavaScript number as far as this file needs it: an integer or [NaN]. *)
Inductive number := NaN | Num (z : Z).

Definition nl : string := String "010"%char "".
Definition tab : string := String "009"%char "".

(** [`${n}`] for a time value (an integer of magnitude below 1e21, or NaN). *)
Definition number_toString (n : number) : string :=
  match n with NaN => "NaN" | Num z => pretty z end.

Fixpoint repeat_char (n : nat) (c : ascii) : string :=
  match n with O => "" | S n => String c (repeat_char n c) end.

(** [s.padStart (len, fill)] for a one-character [fill]. *)
Definition padStart (len : nat) (fill : ascii) (s : string) : string :=
  repeat_char (len - String.length s) fill +:+ s.

(** [s.slice (start, end)] for [0 <= start <= end]. *)
Definition slice (s : string) (start stop : nat) : string :=
  String.substring start (stop - start) s.

(** ** Paths ([path.posix]) *)

(** The segments of a path: what stands between its slashes. *)
Fixpoint split (path : string) : list string :=
  match path with
  | EmptyString => [""]
  | String c rest =>
      if decide (c = "/"%char) then "" :: split rest
      else match split rest with
           | segment :: segments => String c segment :: segments
           | [] => [String c ""]
           end
  end.

(** [path.charCodeAt (0) === 47] and [path.charCodeAt (path.length - 1) === 47]. *)
Definition isAbsolute (path : string) : bool :=
  match path with
  | String c _ => bool_decide (c = "/"%char)
  | EmptyString => false
  end.

Fixpoint trailingSeparator (path : string) : bool :=
  match path with
  | EmptyString => false
  | String c EmptyString => bool_decide (c = "/"%char)
  | String _ rest => trailingSeparator rest
  end.

(** One segment of [normalizeString]: [res] holds the segments kept so far,
    the last one first. *)
Definition normalize_segment (allowAboveRoot : bool) (res : list string)
    (segment : string) : list string :=
  if decide (segment = "" ∨ segment = ".") then res
  else if decide (segment = "..") then
    match res with
    | last :: above =>
        if decide (last = "..") then (if allowAboveRoot then ".." :: res else res)
        else above
    | [] => if allowAboveRoot then [".."] else []
    end
  else segment :: res.

Definition normalizeString (path : string) (allowAboveRoot : bool) : string :=
  String.concat "/" (rev (foldl (normalize_segment allowAboveRoot) [] (split path))).

(** [path.normalize (path)]. *)
Definition normalize (path : string) : string :=
  if decide (path = "") then "."
  else
    let res := normalizeString path (negb (isAbsolute path)) in
    if decide (res = "") then
      if isAbsolute path then "/"
      else if trailingSeparator path then "./" else "."
    else
      let res := if trailingSeparator path then res +:+ "/" else res in
      if isAbsolute path then "/" +:+ res else res.

(** [path.join (...args)]. *)
Definition path_join (args : list string) : string :=
  match filter (λ arg, arg ≠ "") args with
  | [] => "."
  | parts => normalize (String.concat "/" parts)
  end.

Definition join (a b : string) : string := path_join [a; b].

Fixpoint has_separator (s : string) : bool :=
  match s with
  | EmptyString => false
  | String c s' => bool_decide (c = "/"%char) || has_separator s'
  end.

(** A file name: a segment other than [.] and [..]. *)
Definition is_name (s : string) : bool :=
  truthy s && negb (has_separator s)
  && negb (bool_decide (s = ".")) && negb (bool_decide (s = "..")).

(** A relative path in normal form: names separated by single slashes. *)
Definition simple_path (path : string) : bool :=
  forallb is_name (split path).

(** The directory a path lies in, for the system calls; [None] is the
    working directory or the root, which exist. *)
Definition parent (path : string) : option string :=
  match removelast (split path) with
  | [] => None
  | above => let dir := String.concat "/" above in
             if decide (dir = "") then None else Some dir
  end.

(** ** File system and console *)

Inductive Node := Directory | File (content : string).

#[global] Instance Node_eq_dec : EqDecision Node.
Proof. solve_decision. Defined.

(** Path to node, the paths as they are written; the first binding of a
    path is the one that counts. *)
Definition FS := list (string * Node).

Fixpoint fs_lookup (fs : FS) (path : string) : option Node :=
  match fs with
  | [] => None
  | (p, n) :: rest => if decide (p = path) then Some n else fs_lookup rest path
  end.

Fixpoint strip_prefix (p s : string) : option string :=
  match p, s with
  | EmptyString, _ => Some s
  | String a p', String b s' =>
      if decide (a = b) then strip_prefix p' s' else None
  | String _ _, EmptyString => None
  end.

(** The name of [path] inside [dir], when [path] is an entry of [dir]. *)
Definition entry_of (dir path : string) : option string :=
  match strip_prefix (dir +:+ "/") path with
  | Some rest => if is_name rest then Some rest else None
  | None => None
  end.

Fixpoint fs_write (fs : FS) (path : string) (n : Node) : FS :=
  match fs with
  | [] => [(path, n)]
  | (p, m) :: rest =>
      if decide (p = path) then (p, n) :: rest else (p, m) :: fs_write rest path n
  end.

(** The order of [strcmp], in which [scandir] lists a directory. *)
Definition byte_le (a b : string) : Prop := String.leb a b.

#[global] Instance byte_le_dec (a b : string) : Decision (byte_le a b).
Proof. unfold byte_le. apply _. Defined.

(** The entries of a directory of the store, as [scandir] lists them. *)
Definition entries (fs : FS) (dir : string) : list string :=
  merge_sort byte_le (remove_dups (omap (λ e, entry_of dir e.1) fs)).

(** The error codes of the system calls. *)
Inductive Errno := ENOENT | ENOTDIR | EISDIR | EEXIST.

#[global] Instance Errno_eq_dec : EqDecision Errno.
Proof. solve_decision. Defined.

(** What a call yields: a value, or the exception it throws. *)
Inductive Result (A : Type) := Ok (a : A) | Throw (e : Errno).
Arguments Ok {A}.
Arguments Throw {A}.

Record World := mkWorld { files : FS; console : list string }.

(** Effects of the synchronous part of the program: state and exceptions. *)
Definition IO (A : Type) : Type := World → Result A * World.

#[global] Instance IO_ret : MRet IO := λ A a w, (Ok a, w).
#[global] Instance IO_bind : MBind IO :=
  λ A B k m w,
    match m w with
    | (Ok a, w') => k a w'
    | (Throw e, w') => (Throw e, w')
    end.

Definition when (b : bool) (m : IO unit) : IO unit :=
  if b then m else mret tt.

(** [console.log (line)] ([render] of a plain string prints it, too). *)
Definition console_log (line : string) : IO unit :=
  λ w, (Ok tt, mkWorld (files w) (console w ++ [line])).

(** [readdirSync (dir)]. *)
Definition readdirSync (dir : string) : IO (list string) :=
  λ w, match fs_lookup (files w) dir with
       | Some Directory => (Ok (entries (files w) dir), w)
       | Some (File _) => (Throw ENOTDIR, w)
       | None => (Throw ENOENT, w)
       end.

(** [lstatSync (path).isDirectory ()]. *)
Definition isDirectory (path : string) : IO bool :=
  λ w, match fs_lookup (files w) path with
       | Some Directory => (Ok true, w)
       | Some (File _) => (Ok false, w)
       | None => (Throw ENOENT, w)
       end.

(** What stands in the way of an entry at [path]: its directory is missing
    or is a file. *)
Definition parent_error (fs : FS) (path : string) : option Errno :=
  match parent path with
  | None => None
  | Some dir =>
      match fs_lookup fs dir with
      | Some Directory => None
      | Some (File _) => Some ENOTDIR
      | None => Some ENOENT
      end
  end.

(** [writeFileSync (path, content)]. *)
Definition writeFileSync (path content : string) : IO unit :=
  λ w, match fs_lookup (files w) path with
       | Some Directory => (Throw EISDIR, w)
       | _ =>
           match parent_error (files w) path with
           | Some e => (Throw e, w)
           | None => (Ok tt, mkWorld (fs_write (files w) path (File content)) (console w))
           end
       end.

(** [mkdir -p] on the segments of a path, the last one first: a directory
    that exists is left alone, a missing one is made after its parent. *)
Fixpoint mkdir_p (segments : list string) (fs : FS) : Result FS :=
  match segments with
  | [] => Ok fs
  | _ :: above =>
      let path := String.concat "/" (rev segments) in
      if decide (path = "") then Ok fs
      else
        match fs_lookup fs path with
        | Some Directory => Ok fs
        | Some (File _) => Throw EEXIST
        | None =>
            match mkdir_p above fs with
            | Ok fs' => Ok (fs_write fs' path Directory)
            | Throw e => Throw (if decide (e = EEXIST) then ENOTDIR else e)
            end
        end
  end.

(** [mkdirSync (path, { recursive: true })]. *)
Definition mkdirSync (path : string) : IO unit :=
  λ w, match mkdir_p (rev (split path)) (files w) with
       | Ok fs => (Ok tt, mkWorld fs (console w))
       | Throw e => (Throw e, w)
       end.

(** [arr.filter (p)] for an effectful [p]. *)
Fixpoint filterM {A} (p : A → IO bool) (l : list A) : IO (list A) :=
  match l with
  | [] => mret []
  | x :: rest =>
      b ← p x; kept ← filterM p rest;
      mret (if b : bool then x :: kept else kept)
  end.

(** ** The journal of an embedded runtime *)

Section Journal.
(** [+new Date (isoString)], a service of the runtime. *)
Variable Date_parse : string → number.

Definition timestampToMillis (timestamp : string) : number :=
  let year := slice timestamp 0 4 in
  let month := slice timestamp 4 6 in
  let day := slice timestamp 6 8 in
  let hr := slice timestamp 8 10 in
  let min := slice timestamp 10 12 in
  let sec := slice timestamp 12 14 in
  let isoString :=
    year +:+ "-" +:+ month +:+ "-" +:+ day +:+ "T" +:+ hr +:+ ":" +:+ min +:+ ":" +:+ sec +:+ ".000Z" in
  Date_parse isoString.

(** [`m${idx.toString().padStart(4, '0')}`]. *)
Definition importName (idx : nat) : string :=
  "m" +:+ padStart 4 "0"%char (pretty idx).

(** One round of [migrationFolders.forEach ((entry, idx) => ...)] on the
    two strings it appends to. *)
Definition forEach_entry (acc : string * string) (idx : nat) (entry : string)
  : string * string :=
  let '(content, journalEntries) := acc in
  let content :=
    content +:+ "import " +:+ importName idx +:+ " from './" +:+ entry +:+ "/migration.sql';" +:+ nl in
  let millis := timestampToMillis (slice entry 0 14) in
  let journalEntries :=
    journalEntries +:+ nl +:+ "{ idx: " +:+ pretty idx +:+ ", when: " +:+ number_toString millis +:+ " }, " in
  (content, journalEntries).

Fixpoint forEach_from (idx : nat) (entries : list string) (acc : string * string)
  : string * string :=
  match entries with
  | [] => acc
  | entry :: rest => forEach_from (S idx) rest (forEach_entry acc idx entry)
  end.

Definition embeddedMigrations (outFolder : string) : IO string :=
  let content :=
     "// This file is required for Expo/React Native SQLite migrations - https://orm.drizzle.team/quick-sqlite/expo" +:+ nl +:+ nl in
   let journalEntries := "" in
   listing ← readdirSync outFolder;
   migrationFolders ← filterM (λ it, isDirectory (join outFolder it)) listing;
   let '(content, journalEntries) :=
     forEach_from 0 migrationFolders (content, journalEntries) in
   mret (content +:+ nl
        +:+ "export default {" +:+ nl
        +:+ tab +:+ "journal: {" +:+ nl
        +:+ tab +:+ tab +:+ "entries: [" +:+ journalEntries +:+ "]" +:+ nl
        +:+ tab +:+ "}," +:+ nl
        +:+ tab +:+ "migrations: {" +:+ nl
        +:+ tab +:+ tab
        +:+ String.concat ("," +:+ nl) (imap (λ idx _, importName idx) migrationFolders)
        +:+ nl
        +:+ tab +:+ "}" +:+ nl
        +:+ "}" +:+ nl
        +:+ "  ").
End Journal.

(** ** Names of snapshot folders *)

(** [input.toString ().padStart (2, '0')], for a field of a date. *)
Definition two (input : nat) : string := padStart 2 "0"%char (pretty input).

(** What [prepareSnapshotFolderName] reads of [new Date ()]: the year is
    that of the local time zone, the other fields are those of UTC. *)
Record Date := mkDate {
  getFullYear : Z;
  getUTCMonth : nat;
  getUTCDate : nat;
  getUTCHours : nat;
  getUTCMinutes : nat;
  getUTCSeconds : nat
}.

Definition prepareSnapshotFolderName (now : Date) : string :=
  pretty (getFullYear now) +:+ two (getUTCMonth now + 1) +:+ two (getUTCDate now)
  +:+ two (getUTCHours now) +:+ two (getUTCMinutes now) +:+ two (getUTCSeconds now).

(** ** Suggestions for MySQL schemas *)

(** The parts of a MySQL snapshot that [mysqlSchemaSuggestions] reads. *)
Module UniqueConstraint.
Record t := mk { name : string; columns : list string }.
End UniqueConstraint.

Module Column.
Record t := mk { name : string; type : string }.
End Column.

Module Table.
Record t := mk {
  name : string;
  columns : list Column.t;
  uniqueConstraints : list UniqueConstraint.t
}.
End Table.

(** The double quote. *)
Definition dq : string := String "034"%char "".

Section Suggestions.
(** [withStyle.errorWarning], [withStyle.suggestion], [chalk.blue] and
    [chalk.blueBright]. *)
Variables errorWarning suggestion blue blueBright : string → string.

(** [curSchema.tables] is given by its [Object.values], [prevSchema.tables]
    by its lookup; reading [uniqueConstraints] of a table that
    [prevSchema.tables] does not have throws a TypeError, which is [None]. *)
Definition usedSuggestions : list string := [].

Definition suggestionTypes_serial : string :=
  errorWarning "We deprecated the use of 'serial' for MySQL starting from version 0.20.0. In MySQL, 'serial' is simply an alias for 'bigint unsigned not null auto_increment unique,' which creates all constraints and indexes for you. This may make the process less explicit for both users and drizzle-kit push commands".

Definition uniqueForSerial (prevTable : Table.t) (column : Column.t)
  : option UniqueConstraint.t :=
  List.find (λ it, bool_decide (head (UniqueConstraint.columns it)
                                = Some (Column.name column)))
            (Table.uniqueConstraints prevTable).

(** The text pushed for a serial column. *)
Definition serial_suggestion (prevTable current : Table.t) (column : Column.t)
  : string :=
  nl +:+ suggestion
    ("We are suggesting to change " +:+ blue (Column.name column)
     +:+ " column in " +:+ blueBright (Table.name current)
     +:+ " table from serial to bigint unsigned" +:+ nl +:+ nl
     +:+ blueBright
           ("bigint(" +:+ dq +:+ Column.name column +:+ dq
            +:+ ", { mode: " +:+ dq +:+ "number" +:+ dq
            +:+ ", unsigned: true }).notNull().autoincrement().unique("
            +:+ match uniqueForSerial prevTable column with
                | Some it =>
                    if truthy (UniqueConstraint.name it)
                    then dq +:+ UniqueConstraint.name it +:+ dq else ""
                | None => ""
                end
            +:+ ")")).

(** [for (const column of Object.values (table.columns))]. *)
Fixpoint for_columns (prevSchema : string → option Table.t) (current : Table.t)
    (columns : list Column.t) (suggestions : list string) : option (list string) :=
  match columns with
  | [] => Some suggestions
  | column :: rest =>
      if decide (Column.type column = "serial") then
        let suggestions :=
          if bool_decide ("serial" ∈ usedSuggestions) then suggestions
          else suggestions ++ [suggestionTypes_serial] in
        match prevSchema (Table.name current) with
        | Some prevTable =>
            for_columns prevSchema current rest
              (suggestions ++ [serial_suggestion prevTable current column])
        | None => None
        end
      else for_columns prevSchema current rest suggestions
  end.

(** [for (const table of Object.values (curSchema.tables))]. *)
Fixpoint for_tables (prevSchema : string → option Table.t) (tables : list Table.t)
    (suggestions : list string) : option (list string) :=
  match tables with
  | [] => Some suggestions
  | current :: rest =>
      match for_columns prevSchema current (Table.columns current) suggestions with
      | Some suggestions => for_tables prevSchema rest suggestions
      | None => None
      end
  end.

Definition mysqlSchemaSuggestions (curSchema : list Table.t)
    (prevSchema : string → option Table.t) : option (list string) :=
  for_tables prevSchema curSchema [].
End Suggestions.

(** ** Resolver inputs and outputs of [../../snapshotsDiffer] *)

Module ResolverInput.
Record t (T : Type) := mk { created : list T; deleted : list T }.
Arguments mk {T}.
Arguments created {T}.
Arguments deleted {T}.
End ResolverInput.

Module ColumnsResolverInput.
Record t (T : Type) := mk {
  tableName : string;
  schema : string;
  created : list T;
  deleted : list T
}.
Arguments mk {T}.
Arguments tableName {T}.
Arguments schema {T}.
Arguments created {T}.
Arguments deleted {T}.
End ColumnsResolverInput.

Module ColumnsResolverOutput.
Record t (T : Type) := mk {
  tableName : string;
  schema : string;
  created : list T;
  deleted : list T;
  renamed : list (RenamePropmtItem T)
}.
Arguments mk {T}.
Arguments tableName {T}.
Arguments schema {T}.
Arguments created {T}.
Arguments deleted {T}.
Arguments renamed {T}.
End ColumnsResolverOutput.

(** A snapshot differ ([applyPgSnapshotsDiff], [applyMysqlSnapshotsDiff],
    [applySqliteSnapshotsDiff]) applied to its snapshots and to the resolver
    callbacks of this file: it awaits resolvers, any number of times and in
    any order, with inputs that may depend on what earlier calls returned,
    and finally yields its result. *)
Inductive Differ (T A : Type) :=
| Diffed (a : A)
| AwaitSchemasResolver (input : ResolverInput.t T) (k : Output.t T → Differ T A)
| AwaitEnumsResolver (input : ResolverInput.t T) (k : WithMoved.t T → Differ T A)
| AwaitSequencesResolver (input : ResolverInput.t T) (k : WithMoved.t T → Differ T A)
| AwaitTablesResolver (input : ResolverInput.t T) (k : WithMoved.t T → Differ T A)
| AwaitColumnsResolver (input : ColumnsResolverInput.t T)
                       (k : ColumnsResolverOutput.t T → Differ T A).
Arguments Diffed {T A}.
Arguments AwaitSchemasResolver {T A}.
Arguments AwaitEnumsResolver {T A}.
Arguments AwaitSequencesResolver {T A}.
Arguments AwaitTablesResolver {T A}.
Arguments AwaitColumnsResolver {T A}.

(** How far a command got with the answers it was given. *)
Inductive Outcome (T A : Type) :=
| Done (a : A)                  (* ran to its end *)
| Prompting (view : View T)     (* suspended at a prompt, no answer left *)
| ProcessExit (code : Z)        (* [process.exit (code)] *)
| ReadUndefined
| Caught (e : Errno).           (* returned from its [catch] block *)
Arguments Done {T A}.
Arguments Caught {T A}.
Arguments Prompting {T A}.
Arguments ProcessExit {T A}.
Arguments ReadUndefined {T A}.

Section ResolverCallbacks.
Context {T : Type} `{EqDecision T} `{NamedWithSchema T}.

(** The exported resolvers; each returns the record of its prompt with the
    same fields. *)
Definition schemasResolver (input : ResolverInput.t T) : Config (Output.t T) T :=
  promptSchemasConflict (ResolverInput.created input) (ResolverInput.deleted input).
Definition schemasResolver_resume (input : ResolverInput.t T) :=
  promptSchemasConflict_resume (ResolverInput.created input).

Definition tablesResolver (input : ResolverInput.t T) : Config (WithMoved.t T) T :=
  promptNamedWithSchemasConflict
    (ResolverInput.created input) (ResolverInput.deleted input) table.
Definition tablesResolver_resume (input : ResolverInput.t T) :=
  promptNamedWithSchemasConflict_resume (ResolverInput.created input) table.

Definition sequencesResolver (input : ResolverInput.t T) : Config (WithMoved.t T) T :=
  promptNamedWithSchemasConflict
    (ResolverInput.created input) (ResolverInput.deleted input) sequence.
Definition sequencesResolver_resume (input : ResolverInput.t T) :=
  promptNamedWithSchemasConflict_resume (ResolverInput.created input) sequence.

Definition enumsResolver (input : ResolverInput.t T) : Config (WithMoved.t T) T :=
  promptNamedWithSchemasConflict
    (ResolverInput.created input) (ResolverInput.deleted input) enum.
Definition enumsResolver_resume (input : ResolverInput.t T) :=
  promptNamedWithSchemasConflict_resume (ResolverInput.created input) enum.

Definition columnsResolver (input : ColumnsResolverInput.t T) : Config (Output.t T) T :=
  promptColumnsConflicts (ColumnsResolverInput.tableName input)
    (ColumnsResolverInput.created input) (ColumnsResolverInput.deleted input).
Definition columnsResolver_resume (input : ColumnsResolverInput.t T) :=
  promptColumnsConflicts_resume (ColumnsResolverInput.tableName input)
    (ColumnsResolverInput.created input).
Definition columnsResolver_return (input : ColumnsResolverInput.t T)
    (result : Output.t T) : ColumnsResolverOutput.t T :=
  ColumnsResolverOutput.mk
    (ColumnsResolverInput.tableName input)
    (ColumnsResolverInput.schema input)
    (Output.created result) (Output.deleted result) (Output.renamed result).

(** Awaits a resolver: the differ goes on when the resolver returns, and
    stops with the resolver otherwise. *)
Definition await {R A} (r : Config R T * list (Rendered T))
    (k : R → list (Rendered T) → Outcome T A * list (Rendered T))
  : Outcome T A * list (Rendered T) :=
  match r with
  | (Returned x, rest) => k x rest
  | (Awaiting view _, rest) => (Prompting view, rest)
  | (Exited code, rest) => (ProcessExit code, rest)
  | (Undefined, rest) => (ReadUndefined, rest)
  end.

Fixpoint run_differ {A} (d : Differ T A) (answers : list (Rendered T))
  : Outcome T A * list (Rendered T) :=
  match d with
  | Diffed a => (Done a, answers)
  | AwaitSchemasResolver input k =>
      await (run (schemasResolver_resume input) (schemasResolver input) answers)
            (λ r rest, run_differ (k r) rest)
  | AwaitEnumsResolver input k =>
      await (run (enumsResolver_resume input) (enumsResolver input) answers)
            (λ r rest, run_differ (k r) rest)
  | AwaitSequencesResolver input k =>
      await (run (sequencesResolver_resume input) (sequencesResolver input) answers)
            (λ r rest, run_differ (k r) rest)
  | AwaitTablesResolver input k =>
      await (run (tablesResolver_resume input) (tablesResolver input) answers)
            (λ r rest, run_differ (k r) rest)
  | AwaitColumnsResolver input k =>
      await (run (columnsResolver_resume input) (columnsResolver input) answers)
            (λ r rest, run_differ (k (columnsResolver_return input r)) rest)
  end.
End ResolverCallbacks.

(** ** [writeResult] *)

Definition BREAKPOINT : string := "--> statement-breakpoint" +:+ nl.

(** ['introspect' | 'custom' | 'none']. *)
Inductive ResultType := introspect | custom | none.

#[global] Instance ResultType_eq_dec : EqDecision ResultType.
Proof. solve_decision. Defined.

Section Writer.
Variable Date_parse : string → number.

(** [CommonSchema] and the type of [_meta]; the default value of [_meta],
    [{ columns: {}, schemas: {}, tables: {} }]. *)
Variables CommonSchema Meta : Type.
Variable empty_meta : Meta.

(** [schema (cur)] of [../views], as the text it prints. *)
Variable schema_view : CommonSchema → string.

(** [JSON.stringify (toSave, null, 2)], where [toSave] is a copy of [cur]
    whose [_meta] is set. *)
Variable stringify_toSave : CommonSchema → Meta → string.

(** [prepareMigrationMetadata (name)] of [../../utils/words]: the
    [{ prefix, tag }] of the new migration. *)
Variable prepareMigrationMetadata : option string → string * string.

(** The argument object of [writeResult]; an optional property is [None]
    when the caller leaves it out. *)
Record WriteResultArgs := mkArgs {
  arg_cur : CommonSchema;
  arg_sqlStatements : list string;
  arg_meta : option Meta;
  arg_outFolder : string;
  arg_breakpoints : bool;
  arg_name : option string;
  arg_bundle : option bool;
  arg_type : option ResultType
}.

(** What follows the [type === 'none'] block. *)
Definition writeResult_write (cur : CommonSchema) (sqlStatements : list string)
    (_meta : Meta) (outFolder : string) (breakpoints : bool)
    (name : option string) (bundle : bool) (type : ResultType) : IO unit :=
  let '(prefix, tag) := prepareMigrationMetadata name in
  let sqlDelimiter := if breakpoints then BREAKPOINT else nl in
  let sql := String.concat sqlDelimiter sqlStatements in
  let sql :=
    if decide (type = introspect) then
      "-- Current sql file was generated after introspecting the database" +:+ nl
      +:+ "-- If you want to run this migration please uncomment this code before executing migrations" +:+ nl
      +:+ "/*" +:+ nl +:+ sql +:+ nl +:+ "*/"
    else sql in
  when (bool_decide (type = custom))
       (console_log "Prepared empty file for your custom SQL migration!");;
  let sql :=
    if decide (type = custom)
    then "-- Custom SQL migration file, put you code below! --"
    else sql in
  let migrationFolder := join outFolder tag in
  mkdirSync migrationFolder;;
  writeFileSync (join migrationFolder "snapshot.json") (stringify_toSave cur _meta);;
  writeFileSync (join migrationFolder "migration.sql") sql;;
  when bundle
       (js ← embeddedMigrations Date_parse outFolder;
        writeFileSync (outFolder +:+ "/migrations.js") js);;
  console_log ("[✓] Your SQL migration file ➜ "
               +:+ path_join [migrationFolder +:+ "/migration.sql"] +:+ " 🚀").

Definition writeResult (args : WriteResultArgs) : IO unit :=
  let cur := arg_cur args in
  let sqlStatements := arg_sqlStatements args in
  let _meta := default empty_meta (arg_meta args) in
  let outFolder := arg_outFolder args in
  let breakpoints := arg_breakpoints args in
  let name := arg_name args in
  let bundle := default false (arg_bundle args) in
  let type := default none (arg_type args) in
  if decide (type = none) then
    console_log (schema_view cur);;
    when bundle
         (js ← embeddedMigrations Date_parse outFolder;
          writeFileSync (outFolder +:+ "/migrations.js") js;;
          console_log ("[✓] " +:+ outFolder +:+ "/migrations.js file updated"));;
    if (length sqlStatements =? 0)%nat then
      console_log "No schema changes, nothing to migrate 😴"
    else
      writeResult_write cur sqlStatements _meta outFolder breakpoints name bundle type
  else
    writeResult_write cur sqlStatements _meta outFolder breakpoints name bundle type.

(** *** The [generate] commands

    Each command is taken inside its [try] block, from the test of
    [config.custom] on.  What precedes the test ([assertV3OutFolder],
    [prepareMigrationFolder], the preparation of the snapshots and the two
    [parse] calls) is code of other modules: [cur] and [custom_] are the
    snapshots these calls return and [w] is the world they leave; [diff] is
    the snapshot differ of the command applied to its snapshots. *)

Record GenerateConfig := mkConfig {
  out : string;
  config_name : option string;
  breakpoints : bool;
  config_custom : bool;
  config_bundle : option bool
}.

Context {T : Type} `{EqDecision T} `{NamedWithSchema T}.

(** What the command makes of a call in its [try] block: an exception is
    caught, printed with [console.error], and the command returns.  The
    error stream is not part of the world. *)
Definition caught (r : Result unit) : Outcome T unit :=
  match r with
  | Ok _ => Done tt
  | Throw e => Caught e
  end.

(** The statements after [await apply...SnapshotsDiff (...)] run when the
    differ is done. *)
Definition then_write (r : Outcome T (list string * Meta) * list (Rendered T))
    (write : list string → Meta → IO unit) (w : World)
  : Outcome T unit * list (Rendered T) * World :=
  match r with
  | (Done (sqlStatements, _meta), rest) =>
      (caught (write sqlStatements _meta w).1, rest, (write sqlStatements _meta w).2)
  | (Prompting view, rest) => (Prompting view, rest, w)
  | (ProcessExit code, rest) => (ProcessExit code, rest, w)
  | (ReadUndefined, rest) => (ReadUndefined, rest, w)
  | (Caught e, rest) => (Caught e, rest, w)
  end.

Definition prepareAndMigratePg (config : GenerateConfig)
    (cur custom_ : CommonSchema) (diff : Differ T (list string * Meta))
    (answers : list (Rendered T)) (w : World)
  : Outcome T unit * list (Rendered T) * World :=
  let outFolder := out config in
  if config_custom config then
    let r := writeResult (mkArgs custom_ [] None outFolder (breakpoints config)
                                 (config_name config) None (Some custom)) w in
    (caught r.1, answers, r.2)
  else
    then_write (run_differ diff answers)
      (λ sqlStatements _meta,
         writeResult (mkArgs cur sqlStatements None outFolder (breakpoints config)
                             (config_name config) None None)) w.

Definition prepareAndMigrateMysql (config : GenerateConfig)
    (cur custom_ : CommonSchema) (diff : Differ T (list string * Meta))
    (answers : list (Rendered T)) (w : World)
  : Outcome T unit * list (Rendered T) * World :=
  let outFolder := out config in
  if config_custom config then
    let r := writeResult (mkArgs custom_ [] None outFolder (breakpoints config)
                                 (config_name config) None (Some custom)) w in
    (caught r.1, answers, r.2)
  else
    then_write (run_differ diff answers)
      (λ sqlStatements _meta,
         writeResult (mkArgs cur sqlStatements (Some _meta) outFolder
                             (breakpoints config) (config_name config) None None)) w.

Definition prepareAndMigrateSqlite (config : GenerateConfig)
    (cur custom_ : CommonSchema) (diff : Differ T (list string * Meta))
    (answers : list (Rendered T)) (w : World)
  : Outcome T unit * list (Rendered T) * World :=
  let outFolder := out config in
  if config_custom config then
    let r := writeResult (mkArgs custom_ [] None outFolder (breakpoints config)
                                 (config_name config) (config_bundle config)
                                 (Some custom)) w in
    (caught r.1, answers, r.2)
  else
    then_write (run_differ diff answers)
      (λ sqlStatements _meta,
         writeResult (mkArgs cur sqlStatements (Some _meta) outFolder
                             (breakpoints config) (config_name config)
                             (config_bundle config) None)) w.
End Writer.

Arguments mkArgs {CommonSchema Meta}.
Arguments arg_cur {CommonSchema Meta}.
Arguments arg_sqlStatements {CommonSchema Meta}.
Arguments arg_meta {CommonSchema Meta}.
Arguments arg_outFolder {CommonSchema Meta}.
Arguments arg_breakpoints {CommonSchema Meta}.
Arguments arg_name {CommonSchema Meta}.
Arguments arg_bundle {CommonSchema Meta}.
Arguments arg_type {CommonSchema Meta}.

(** ** Specification-side vocabulary *)

(** Removal of the first occurrence, the net effect of [remove_found]. *)
Fixpoint remove_first {T} `{EqDecision T} (x : T) (l : list T) : list T :=
  match l with
  | [] => []
  | y :: rest => if decide (y = x) then rest else y :: remove_first x rest
  end.

(** The pool of unconsumed missing entities after one answer, and after a
    sequence of answers. *)
Definition consume {T} `{EqDecision T} (pool : list T) (a : Rendered T) : list T :=
  match a with
  | submitted (Rename d) => remove_found pool (from d)
  | _ => pool
  end.

Definition pool_after {T} `{EqDecision T} (pool : list T) (answers : list (Rendered T))
  : list T :=
  foldl consume pool answers.

(** The entities the rename answers name as [from]. *)
Definition rename_sources {T} (answers : list (Rendered T)) : list T :=
  omap (λ a, match a with submitted (Rename d) => Some (from d) | _ => None end)
       answers.

(** The rename answers, and those among them that keep the name. *)
Definition rename_answers {T} (answers : list (Rendered T)) : list (RenamePropmtItem T) :=
  omap (λ a, match a with submitted (Rename d) => Some d | _ => None end) answers.

Definition keeps_name {T} `{Named T} (d : RenamePropmtItem T) : Prop :=
  name (from d) = name (to d).

#[global] Instance keeps_name_dec {T} `{Named T} (d : RenamePropmtItem T) :
  Decision (keeps_name d).
Proof. unfold keeps_name. apply _. Defined.

(** *** The shape the three loops share

    Used in the proofs only: each resolver above is shown to be an instance
    ([promptColumnsConflicts_loop] and its siblings). *)

Section Loop.
Context {R T : Type} `{EqDecision T}.
Variable newItems : list T.
Variable view : T → list (PromptItem T) → View T.
(** What one round does to [result], and the final push onto [deleted]. *)
Variable record : R → T → PromptItem T → R.
Variable finish : R → list T → R.

Definition options (created : T) (leftMissing : list T) : list (PromptItem T) :=
  Plain created :: (Rename <$> ((λ it, mkRename it created) <$> leftMissing)).

Definition loop_render (index : nat) (leftMissing : list T) (result : R)
  : Config R T :=
  match newItems !! index with
  | None => Undefined
  | Some created =>
      Awaiting (view created (options created leftMissing))
               (mkLocals index leftMissing result created)
  end.

Definition loop_resume (s : Locals R T) (answer : Rendered T) : Config R T :=
  match answer with
  | aborted => Exited 1
  | submitted data =>
      if decide (index s + 1 < length newItems) then
        loop_render (index s + 1) (consume (leftMissing s) answer)
                    (record (result s) (created s) data)
      else
        Returned (finish (record (result s) (created s) data)
                         (consume (leftMissing s) answer))
  end.

(** [result] after the rounds from [index] on that the answers drive. *)
Fixpoint recorded (result : R) (index : nat) (answers : list (Rendered T)) : R :=
  match answers with
  | [] => result
  | a :: rest =>
      match a, newItems !! index with
      | submitted data, Some created =>
          recorded (record result created data) (S index) rest
      | _, _ => result
      end
  end.
End Loop.

Definition record_flat {T} (result : Output.t T) (created : T) (data : PromptItem T)
  : Output.t T :=
  match data with
  | Rename d =>
      Output.mk (Output.created result) (Output.renamed result ++ [d])
                (Output.deleted result)
  | Plain _ =>
      Output.mk (Output.created result ++ [created]) (Output.renamed result)
                (Output.deleted result)
  end.

Definition finish_flat {T} (result : Output.t T) (leftMissing : list T) : Output.t T :=
  Output.mk (Output.created result) (Output.renamed result)
            (Output.deleted result ++ leftMissing).

Definition record_moved {T} `{NamedWithSchema T} (result : WithMoved.t T)
    (created : T) (data : PromptItem T) : WithMoved.t T :=
  match data with
  | Rename d =>
      WithMoved.mk (WithMoved.created result)
        (if decide (name (from d) ≠ name (to d))
         then WithMoved.renamed result ++ [d] else WithMoved.renamed result)
        (if decide (schema (from d) ≠ schema (to d))
         then WithMoved.moved result ++
                [ {| moved_name := name (from d);
                     schemaFrom := js_or (schema (from d)) "public";
                     schemaTo := js_or (schema (to d)) "public" |} ]
         else WithMoved.moved result)
        (WithMoved.deleted result)
  | Plain _ =>
      WithMoved.mk (WithMoved.created result ++ [created])
        (WithMoved.renamed result) (WithMoved.moved result)
        (WithMoved.deleted result)
  end.

Definition finish_moved {T} (result : WithMoved.t T) (leftMissing : list T)
  : WithMoved.t T :=
  WithMoved.mk (WithMoved.created result) (WithMoved.renamed result)
               (WithMoved.moved result) (WithMoved.deleted result ++ leftMissing).

(** The [result] a configuration holds, while the loop runs and after it. *)
Definition result_of {R T} (c : Config R T) : option R :=
  match c with
  | Awaiting _ s => Some (result s)
  | Returned r => Some r
  | _ => None
  end.

Definition is_digit (c : ascii) : bool :=
  let n := nat_of_ascii c in (48 <=? n) && (n <=? 57).

Fixpoint all_digits (s : string) : bool :=
  match s with
  | EmptyString => true
  | String c s' => is_digit c && all_digits s'
  end.

(** Modelled from the spec: the source has no check of a directory name; a
    valid tag starts with a 14-digit timestamp. *)
Definition valid_tag (entry : string) : bool :=
  (String.length (slice entry 0 14) =? 14) && all_digits (slice entry 0 14).

(** The directories [embeddedMigrations] finds in [outFolder]. *)
Definition migrationFolders (outFolder : string) (w : World) : list string :=
  filter (λ it, fs_lookup (files w) (join outFolder it) = Some Directory)
         (entries (files w) outFolder).

Definition is_file (node : option Node) : bool :=
  match node with Some (File _) => true | _ => false end.

Definition is_directory (node : option Node) : bool :=
  match node with Some Directory => true | _ => false end.

(** The strings of a list, one after the other. *)
Definition lines (l : list string) : string := foldr String.append "" l.

(** The line [embeddedMigrations] appends to [content], and the text it
    appends to [journalEntries], for the directory at position [idx]. *)
Definition import_line (idx : nat) (entry : string) : string :=
  "import " +:+ importName idx +:+ " from './" +:+ entry +:+ "/migration.sql';" +:+ nl.

Definition journal_line (Date_parse : string → number) (idx : nat) (entry : string)
  : string :=
  nl +:+ "{ idx: " +:+ pretty idx +:+ ", when: "
  +:+ number_toString (timestampToMillis Date_parse (slice entry 0 14)) +:+ " }, ".

(** The fixed parts of the manifest: what precedes the import lines, what
    stands between them and the journal entries, and what follows. *)
Definition manifest_header : string :=
  "// This file is required for Expo/React Native SQLite migrations - https://orm.drizzle.team/quick-sqlite/expo" +:+ nl +:+ nl.

Definition manifest_middle : string :=
  nl +:+ "export default {" +:+ nl
  +:+ tab +:+ "journal: {" +:+ nl
  +:+ tab +:+ tab +:+ "entries: [".

Definition manifest_tail (folders : list string) : string :=
  "]" +:+ nl
  +:+ tab +:+ "}," +:+ nl
  +:+ tab +:+ "migrations: {" +:+ nl
  +:+ tab +:+ tab
  +:+ String.concat ("," +:+ nl) (imap (λ idx _, importName idx) folders)
  +:+ nl +:+ tab +:+ "}" +:+ nl +:+ "}" +:+ nl +:+ "  ".

(** The text of the manifest for a list of directories. *)
Definition manifest_text (Date_parse : string → number) (folders : list string)
  : string :=
  manifest_header
  +:+ lines (imap import_line folders)
  +:+ manifest_middle
  +:+ lines (imap (journal_line Date_parse) folders)
  +:+ manifest_tail folders.

(** The path of the manifest of [outFolder]. *)
Definition manifest_path (outFolder : string) : string :=
  outFolder +:+ "/migrations.js".

(** The text [writeResult] puts into [migration.sql], by [type]. *)
Definition unit_sql (type : ResultType) (breakpoints : bool)
    (sqlStatements : list string) : string :=
  let joined := String.concat (if breakpoints then BREAKPOINT else nl) sqlStatements in
  match type with
  | custom => "-- Custom SQL migration file, put you code below! --"
  | introspect =>
      "-- Current sql file was generated after introspecting the database" +:+ nl
      +:+ "-- If you want to run this migration please uncomment this code before executing migrations" +:+ nl
      +:+ "/*" +:+ nl +:+ joined +:+ nl +:+ "*/"
  | none => joined
  end.

(** The store after the directory and the two files of a migration are
    written. *)
Definition with_unit (fs : FS) (dir snapshot sql : string) : FS :=
  let fs1 := match fs_lookup fs dir with
             | Some _ => fs
             | None => fs_write fs dir Directory
             end in
  fs_write (fs_write fs1 (dir +:+ "/snapshot.json") (File snapshot))
           (dir +:+ "/migration.sql") (File sql).

(** The store after the manifest of [outFolder] is regenerated. *)
Definition with_manifest (Date_parse : string → number) (outFolder : string) (fs : FS)
  : FS :=
  fs_write fs (manifest_path outFolder)
    (File (manifest_text Date_parse (migrationFolders outFolder (mkWorld fs [])))).

(** What [writeResult] needs of the store to write the migration [tag]:
    [outFolder] is a directory, given by a relative path in normal form;
    [tag] is a file name; no file stands where the directory of the
    migration goes and no directory where its files go; with [bundle], the
    same holds of the manifest. *)
Definition unit_writable (fs : FS) (outFolder tag : string) (bundle : bool) : Prop :=
  simple_path outFolder = true
  ∧ is_name tag = true
  ∧ fs_lookup fs outFolder = Some Directory
  ∧ is_file (fs_lookup fs (outFolder +:+ "/" +:+ tag)) = false
  ∧ is_directory (fs_lookup fs (outFolder +:+ "/" +:+ tag +:+ "/snapshot.json")) = false
  ∧ is_directory (fs_lookup fs (outFolder +:+ "/" +:+ tag +:+ "/migration.sql")) = false
  ∧ (bundle = true →
     tag ≠ "migrations.js"
     ∧ is_directory (fs_lookup fs (manifest_path outFolder)) = false).


(** [m] keeps [I]: whatever [m] yields, a world in [I] stays in [I]. *)
Definition keeps {A} (I : World → Prop) (m : IO A) : Prop :=
  ∀ w, I w → I (m w).2.

(** The store [writeResult] leaves where the migration can be written. *)
Definition written (Date_parse : string → number) {CommonSchema Meta : Type}
    (empty_meta : Meta) (stringify_toSave : CommonSchema → Meta → string)
    (prepareMigrationMetadata : option string → string * string)
    (args : WriteResultArgs CommonSchema Meta) (fs : FS) : FS :=
  let type := default none (arg_type args) in
  let bundle := default false (arg_bundle args) in
  let outFolder := arg_outFolder args in
  let dir := outFolder +:+ "/" +:+ (prepareMigrationMetadata (arg_name args)).2 in
  let fs0 := if bool_decide (type = none) && bundle
             then with_manifest Date_parse outFolder fs else fs in
  let fs1 := with_unit fs0 dir
               (stringify_toSave (arg_cur args) (default empty_meta (arg_meta args)))
               (unit_sql type (arg_breakpoints args) (arg_sqlStatements args)) in
  if bundle then with_manifest Date_parse outFolder fs1 else fs1.

(** The elements of [newItems], from [index] on, whose answer is "create". *)
Fixpoint created_of {T} (newItems : list T) (index : nat)
    (answers : list (Rendered T)) : list T :=
  match answers with
  | [] => []
  | a :: rest =>
      match newItems !! index with
      | Some c =>
          match a with
          | submitted (Plain _) => c :: created_of newItems (S index) rest
          | _ => created_of newItems (S index) rest
          end
      | None => []
      end
  end.

(** The entries a rename answer pushes onto [moved]: one for each answer
    whose two schemas differ. *)
Definition moved_of {T} `{NamedWithSchema T} (answers : list (Rendered T))
  : list Moved :=
  (λ d, mkMoved (name (from d)) (js_or (schema (from d)) "public")
                (js_or (schema (to d)) "public"))
  <$> filter (λ d, schema (from d) ≠ schema (to d)) (rename_answers answers).

(** The serial columns of a table, and those of a schema with their tables,
    in the order of the loops. *)
Definition serials (current : Table.t) : list Column.t :=
  filter (λ column, Column.type column = "serial") (Table.columns current).

Definition serial_columns (curSchema : list Table.t) : list (Table.t * Column.t) :=
  current ← curSchema; (λ column, (current, column)) <$> serials current.

(** [pushed] is the suggestion of a serial column of [curSchema], made with
    the table [prevSchema] has under the name of the column's table. *)
Definition suggestion_of (suggestion blue blueBright : string → string)
    (prevSchema : string → option Table.t)
    (serial : Table.t * Column.t) (pushed : string) : Prop :=
  ∃ prevTable,
    prevSchema (Table.name serial.1) = Some prevTable
    ∧ pushed = serial_suggestion suggestion blue blueBright prevTable serial.1 serial.2.

(** Closed membership and distinctness goals over concrete lists. *)
Ltac not_in_list :=
  let Hin := fresh "Hin" in
  intros Hin;
  repeat (apply elem_of_cons in Hin as [Hin|Hin]; [discriminate Hin|]);
  by apply elem_of_nil in Hin.

Ltac distinct_list :=
  repeat (apply NoDup_cons; split; [not_in_list|]); apply NoDup_nil_2.

(** ** Arrays *)

Section ArrayFacts.
Context {T : Type} `{EqDecision T}.
Implicit Types (l pool : list T) (x y : T).

Lemma indexOf_ge l x : (-1 ≤ indexOf l x)%Z.
Proof.
  induction l as [|y l IH]; simpl; [lia|].
  destruct (decide (y = x)); [lia|].
  destruct (Z.ltb_spec (indexOf l x) 0); lia.
Qed.

Lemma indexOf_neg l x : (indexOf l x < 0)%Z ↔ x ∉ l.
Proof.
  induction l as [|y l IH]; simpl.
  - split; [intros _; apply not_elem_of_nil | lia].
  - rewrite not_elem_of_cons. destruct (decide (y = x)) as [->|Hne].
    + split; [lia | intros [? _]; congruence].
    + pose proof (indexOf_ge l x).
      destruct (Z.ltb_spec (indexOf l x) 0) as [Hlt|Hge].
      * split; [intros _; split; [congruence | by apply IH] | lia].
      * split; [lia | intros [_ Hn]; apply IH in Hn; lia].
Qed.

Lemma filter_Boolean_Some l : filter_Boolean (Some <$> l) = l.
Proof. induction l as [|y l IH]; simpl; [done | by f_equal]. Qed.

Lemma remove_found_cons y l x :
  remove_found (y :: l) x
  = if decide (y = x) then l else y :: remove_found l x.
Proof.
  unfold remove_found. simpl.
  destruct (decide (y = x)) as [->|Hne].
  - simpl. apply filter_Boolean_Some.
  - pose proof (indexOf_ge l x).
    destruct (Z.ltb_spec (indexOf l x) 0) as [Hlt|Hge].
    + unfold delete_at.
      destruct (Z.leb_spec 0 (-1)) as [?|_]; [lia|].
      destruct (Z.leb_spec 0 (indexOf l x)) as [?|_]; [lia|].
      reflexivity.
    + unfold delete_at.
      destruct (Z.leb_spec 0 (indexOf l x + 1)) as [_|?]; [|lia].
      destruct (Z.leb_spec 0 (indexOf l x)) as [_|?]; [|lia].
      replace (Z.to_nat (indexOf l x + 1)) with (S (Z.to_nat (indexOf l x))) by lia.
      simpl. done.
Qed.

Lemma remove_found_first l x : remove_found l x = remove_first x l.
Proof.
  induction l as [|y l IH]; [done|].
  rewrite remove_found_cons. simpl. destruct (decide (y = x)); congruence.
Qed.

Lemma remove_first_notin l x : x ∉ l → remove_first x l = l.
Proof.
  induction l as [|y l IH]; simpl; [done|].
  rewrite not_elem_of_cons. intros [Hne Hn].
  destruct (decide (y = x)); [congruence|]. by rewrite IH.
Qed.

Lemma remove_first_length l x :
  x ∈ l → S (length (remove_first x l)) = length l.
Proof.
  induction l as [|y l IH]; simpl.
  - intros Hin. by apply elem_of_nil in Hin.
  - intros Hin. destruct (decide (y = x)) as [->|Hne]; [done|].
    simpl. f_equal. apply IH. apply elem_of_cons in Hin as [->|Hin]; done.
Qed.

Lemma remove_first_sublist l x : remove_first x l `sublist_of` l.
Proof.
  induction l as [|y l IH]; simpl; [done|].
  destruct (decide (y = x)).
  - by apply sublist_cons.
  - by apply sublist_skip.
Qed.

Lemma filter_all (P : T → Prop) `{!∀ y, Decision (P y)} l :
  (∀ y, y ∈ l → P y) → filter P l = l.
Proof.
  induction l as [|y l IH]; intros Hall; [done|].
  rewrite filter_cons_True by (apply Hall; left).
  f_equal. apply IH. intros z Hz. apply Hall. by right.
Qed.

Lemma remove_first_filter l x :
  NoDup l → remove_first x l = filter (λ y, y ≠ x) l.
Proof.
  induction l as [|y l IH]; simpl; [done|].
  intros Hnd. apply NoDup_cons in Hnd as [Hny Hnd].
  destruct (decide (y = x)) as [->|Hne].
  - rewrite filter_cons_False by (intros Hc; by apply Hc).
    symmetry. apply filter_all. intros z Hz ->. done.
  - rewrite filter_cons_True by done. by rewrite IH.
Qed.

Lemma consume_sublist pool (a : Rendered T) : consume pool a `sublist_of` pool.
Proof.
  destruct a as [|[it|d]]; simpl; try done.
  rewrite remove_found_first. apply remove_first_sublist.
Qed.

Lemma pool_after_sublist pool (answers : list (Rendered T)) :
  pool_after pool answers `sublist_of` pool.
Proof.
  unfold pool_after.
  revert pool. induction answers as [|a answers IH]; intros pool; simpl; [done|].
  etrans; [apply IH | apply consume_sublist].
Qed.

Lemma pool_after_filter pool (answers : list (Rendered T)) :
  NoDup pool →
  pool_after pool answers = filter (λ x, x ∉ rename_sources answers) pool.
Proof.
  unfold pool_after.
  revert pool. induction answers as [|a answers IH]; intros pool Hnd; simpl.
  - symmetry. apply filter_all. intros x _. apply not_elem_of_nil.
  - rewrite IH
      by (eapply sublist_NoDup; [done | apply consume_sublist]).
    destruct a as [|[it|d]]; simpl; try done.
    rewrite remove_found_first, remove_first_filter by done.
    rewrite list_filter_filter. apply list_filter_iff.
    intros x. rewrite not_elem_of_cons. split; [intros [? ?] | intros [? ?]]; auto.
Qed.
End ArrayFacts.

(** ** Running a machine *)

Section RunFacts.
Context {R T : Type} `{EqDecision T}.
Implicit Types (c : Config R T) (answers : list (Rendered T)).

Lemma run_ext (f g : Locals R T → Rendered T → Config R T) c answers :
  (∀ s a, f s a = g s a) → run f c answers = run g c answers.
Proof.
  intros Hfg. revert c. induction answers as [|a answers IH]; intros c.
  - by destruct c.
  - destruct c; simpl; try done. rewrite Hfg. apply IH.
Qed.

Lemma answers_offered_ext (f g : Locals R T → Rendered T → Config R T) c answers :
  (∀ s a, f s a = g s a) →
  answers_offered f c answers ↔ answers_offered g c answers.
Proof.
  intros Hfg. revert c. induction answers as [|a answers IH]; intros c.
  - by destruct c.
  - destruct c; simpl; try done. rewrite Hfg, IH. done.
Qed.

Variable resume : Locals R T → Rendered T → Config R T.

Lemma run_nil c : run resume c [] = (c, []).
Proof. by destruct c. Qed.

Lemma run_settled c answers :
  (∀ v s, c ≠ Awaiting v s) → run resume c answers = (c, answers).
Proof. intros Hc. destruct c, answers; simpl; try done. by destruct (Hc view s). Qed.

(** A machine that is still awaiting has used up its answers. *)
Lemma run_awaiting c answers v s rest :
  run resume c answers = (Awaiting v s, rest) → rest = [].
Proof.
  revert c. induction answers as [|a answers IH]; intros c.
  - rewrite run_nil. congruence.
  - destruct c; simpl; try congruence. apply IH.
Qed.

Lemma run_app c l1 l2 :
  run resume c (l1 ++ l2)
  = run resume (run resume c l1).1 ((run resume c l1).2 ++ l2).
Proof.
  revert c. induction l1 as [|a l1 IH]; intros c.
  - rewrite run_nil. done.
  - destruct c; simpl; auto.
Qed.
End RunFacts.

(** ** The loop *)

Section LoopFacts.
Context {R T : Type} `{EqDecision T}.
Variable newItems : list T.
Variable view : T → list (PromptItem T) → View T.
Variable record : R → T → PromptItem T → R.
Variable finish : R → list T → R.
Hypothesis view_data : ∀ c d, promptData (view c d) = d.

Local Abbreviation render := (loop_render newItems view).
Local Abbreviation resume := (loop_resume newItems view record finish).

Lemma offered_options c (left : list T) (a : Rendered T) :
  offered (view c (options c left)) a →
  a = submitted (Plain c) ∨
  ∃ x, x ∈ left ∧ a = submitted (Rename (mkRename x c)).
Proof.
  unfold offered. rewrite view_data. unfold options.
  rewrite fmap_cons, elem_of_cons. intros [->|Hin]; [by left|right].
  apply list_elem_of_fmap in Hin as (d & -> & Hin).
  apply list_elem_of_fmap in Hin as (r & -> & Hin).
  apply list_elem_of_fmap in Hin as (x & -> & Hin).
  eauto.
Qed.

(** With one answer per remaining element of [newItems], none of them an
    abort, the loop runs to its [return]. *)
Lemma loop_run asked rest index left res :
  index < length newItems →
  length asked = length newItems - index →
  aborted ∉ asked →
  run resume (render index left res) (asked ++ rest)
  = (Returned (finish (recorded newItems record res index asked)
                      (pool_after left asked)), rest).
Proof.
  revert index left res.
  induction asked as [|a asked IH]; intros index left res Hlt Hlen Hab.
  - simpl in Hlen. lia.
  - apply not_elem_of_cons in Hab as [Ha Hab].
    destruct (lookup_lt_is_Some_2 newItems index Hlt) as [c Hc].
    unfold loop_render. rewrite Hc. simpl.
    destruct a as [|data]; [done|]. rewrite Hc.
    unfold loop_resume. simpl.
    simpl in Hlen.
    destruct (decide (index + 1 < length newItems)) as [Hlt'|Hge].
    + replace (S index) with (index + 1) by lia.
      rewrite IH by (done || lia). done.
    + assert (asked = []) as -> by (apply nil_length_inv; lia).
      simpl. by rewrite run_settled.
Qed.

(** Answers taken from the options are not aborts, and every rename among
    them takes one entity out of the pool. *)
Lemma loop_offered asked rest index left res :
  index < length newItems →
  length asked = length newItems - index →
  answers_offered resume (render index left res) (asked ++ rest) →
  (aborted ∉ asked) ∧
  length (pool_after left asked) + length (rename_answers asked) = length left.
Proof.
  revert index left res.
  induction asked as [|a asked IH]; intros index left res Hlt Hlen Hoff.
  - simpl in Hlen. lia.
  - destruct (lookup_lt_is_Some_2 newItems index Hlt) as [c Hc].
    unfold loop_render in Hoff. rewrite Hc in Hoff. simpl in Hoff.
    destruct Hoff as [Ha Hoff]. simpl in Hlen.
    assert (∃ data, a = submitted data ∧
              length (consume left a) + length (rename_answers [a]) = length left)
      as (data & -> & Hcount).
    { apply offered_options in Ha as [->|(x & Hx & ->)].
      - eexists; split; [done|]. simpl. lia.
      - eexists; split; [done|]. simpl.
        rewrite remove_found_first.
        pose proof (remove_first_length left x Hx). lia. }
    unfold loop_resume in Hoff. simpl in Hoff.
    destruct (decide (index + 1 < length newItems)) as [Hlt'|Hge].
    + apply IH in Hoff as [Hab Hn]; [|done|lia].
      split.
      * apply not_elem_of_cons. done.
      * change (pool_after left (submitted data :: asked))
          with (pool_after (consume left (submitted data)) asked).
        destruct data; simpl in *; lia.
    + assert (asked = []) as -> by (apply nil_length_inv; lia).
      split.
      * apply not_elem_of_cons. split; [done | apply not_elem_of_nil].
      * done.
Qed.

(** Every prompt of the loop shows the current pool, and the pool only
    shrinks. *)
Lemma loop_reach answers index left res v s rest :
  run resume (render index left res) answers = (Awaiting v s, rest) →
  leftMissing s `sublist_of` left ∧
  v = view (created s) (options (created s) (leftMissing s)).
Proof.
  revert index left res.
  induction answers as [|a answers IH]; intros index left res.
  - rewrite run_nil. unfold loop_render.
    destruct (newItems !! index); [|done].
    intros [= <- <- <-]. done.
  - unfold loop_render. destruct (newItems !! index) as [c|]; [|done].
    simpl. destruct a as [|data]; simpl.
    + rewrite run_settled by done. done.
    + destruct (decide (index + 1 < length newItems)).
      * intros Hrun. apply IH in Hrun as [Hsub ->]. split; [|done].
        etrans; [done|]. apply (consume_sublist left (submitted data)).
      * rewrite run_settled by done. done.
Qed.

(** The loop never reads past the end of [newItems]. *)
Lemma loop_defined answers index left res :
  index < length newItems →
  (run resume (render index left res) answers).1 ≠ Undefined.
Proof.
  revert index left res.
  induction answers as [|a answers IH]; intros index left res Hlt;
    destruct (lookup_lt_is_Some_2 newItems index Hlt) as [c Hc];
    unfold loop_render; rewrite Hc; simpl; [done|].
  destruct a as [|data]; simpl.
  - rewrite run_settled by done. done.
  - destruct (decide (index + 1 < length newItems)).
    + by apply IH.
    + rewrite run_settled by done. done.
Qed.
End LoopFacts.

(** ** The resolvers as instances of the loop *)

Section Instances.
Context {T : Type} `{EqDecision T}.

Lemma promptColumnsConflicts_loop tableName (newColumns : list T) s a :
  promptColumnsConflicts_resume tableName newColumns s a
  = loop_resume newColumns (ResolveColumnSelect tableName) record_flat finish_flat s a.
Proof.
  destruct a as [|[it|d]]; simpl; [done|..];
    destruct (decide (index s + 1 < length newColumns)); done.
Qed.

Lemma promptSchemasConflict_loop (newSchemas : list T) s a :
  promptSchemasConflict_resume newSchemas s a
  = loop_resume newSchemas ResolveSchemasSelect record_flat finish_flat s a.
Proof.
  destruct a as [|[it|d]]; simpl; [done|..];
    destruct (decide (index s + 1 < length newSchemas)); done.
Qed.

Lemma promptNamedWithSchemasConflict_loop `{NamedWithSchema T}
    (newItems : list T) entity s a :
  promptNamedWithSchemasConflict_resume newItems entity s a
  = loop_resume newItems (λ c d, ResolveSelect c d entity)
      record_moved finish_moved s a.
Proof.
  destruct a as [|[it|d]]; simpl; [done|..];
    destruct (decide (index s + 1 < length newItems)); done.
Qed.

(** No resolver reads [newItems] past its end: the fast path keeps the empty
    array away from the loop, and the loop test keeps [index] in range. *)
Lemma resolvers_never_read_undefined `{NamedWithSchema T} tableName entity
    (newSet missingSet : list T) (answers : list (Rendered T)) :
  (run (promptColumnsConflicts_resume tableName newSet)
     (promptColumnsConflicts tableName newSet missingSet) answers).1 ≠ Undefined
  ∧ (run (promptSchemasConflict_resume newSet)
       (promptSchemasConflict newSet missingSet) answers).1 ≠ Undefined
  ∧ (run (promptNamedWithSchemasConflict_resume newSet entity)
       (promptNamedWithSchemasConflict newSet missingSet entity) answers).1
    ≠ Undefined.
Proof.
  unfold promptColumnsConflicts, promptSchemasConflict, promptNamedWithSchemasConflict.
  split; [|split].
  - destruct ((length newSet =? 0) || (length missingSet =? 0)) eqn:Hfast;
      [by rewrite run_settled|].
    apply orb_false_iff in Hfast as [Hn%Nat.eqb_neq _].
    rewrite (run_ext _ _ _ _ (promptColumnsConflicts_loop tableName newSet)).
    apply (loop_defined newSet (ResolveColumnSelect tableName)). lia.
  - destruct ((length missingSet =? 0) || (length newSet =? 0)) eqn:Hfast;
      [by rewrite run_settled|].
    apply orb_false_iff in Hfast as [_ Hn%Nat.eqb_neq].
    rewrite (run_ext _ _ _ _ (promptSchemasConflict_loop newSet)).
    apply (loop_defined newSet ResolveSchemasSelect). lia.
  - destruct ((length missingSet =? 0) || (length newSet =? 0)) eqn:Hfast;
      [by rewrite run_settled|].
    apply orb_false_iff in Hfast as [_ Hn%Nat.eqb_neq].
    rewrite (run_ext _ _ _ _ (promptNamedWithSchemasConflict_loop newSet entity)).
    apply (loop_defined newSet (λ c d, ResolveSelect c d entity)). lia.
Qed.

(** What the rounds record, for the flat resolvers. *)
Lemma recorded_flat (newItems : list T) res index asked :
  aborted ∉ asked →
  index + length asked ≤ length newItems →
  let r := recorded newItems record_flat res index asked in
  length (Output.created r) + length (rename_answers asked)
  = length (Output.created res) + length asked
  ∧ Output.renamed r = Output.renamed res ++ rename_answers asked
  ∧ Output.deleted r = Output.deleted res.
Proof.
  revert res index. induction asked as [|a asked IH]; intros res index Hab Hlen.
  - simpl. rewrite app_nil_r. auto with lia.
  - apply not_elem_of_cons in Hab as [Ha Hab]. simpl in Hlen.
    destruct (lookup_lt_is_Some_2 newItems index) as [c Hc]; [lia|].
    destruct a as [|data]; [done|]. simpl. rewrite Hc.
    destruct (IH (record_flat res c data) (S index) Hab) as (E1 & E2 & E3); [lia|].
    simpl in E1, E2, E3. rewrite E2, E3.
    destruct data as [it|d]; simpl in *.
    + rewrite length_app in E1. simpl in E1. split; [lia|done].
    + rewrite <- app_assoc. split; [lia|done].
Qed.

(** What the rounds record, for [promptNamedWithSchemasConflict]. *)
Lemma recorded_moved `{NamedWithSchema T} (newItems : list T) res index asked :
  aborted ∉ asked →
  index + length asked ≤ length newItems →
  let r := recorded newItems record_moved res index asked in
  length (WithMoved.created r) + length (rename_answers asked)
  = length (WithMoved.created res) + length asked
  ∧ WithMoved.renamed r
    = WithMoved.renamed res ++ filter (λ d, ¬ keeps_name d) (rename_answers asked)
  ∧ WithMoved.deleted r = WithMoved.deleted res.
Proof.
  revert res index. induction asked as [|a asked IH]; intros res index Hab Hlen.
  - simpl. rewrite app_nil_r. auto with lia.
  - apply not_elem_of_cons in Hab as [Ha Hab]. simpl in Hlen.
    destruct (lookup_lt_is_Some_2 newItems index) as [c Hc]; [lia|].
    destruct a as [|data]; [done|]. simpl. rewrite Hc.
    destruct (IH (record_moved res c data) (S index) Hab) as (E1 & E2 & E3); [lia|].
    simpl in E1, E2, E3. rewrite E2, E3.
    destruct data as [it|d]; simpl in *.
    + rewrite length_app in E1. simpl in E1. split; [lia|done].
    + split; [lia|]. split; [|done].
      rewrite filter_cons. unfold keeps_name at 2.
      destruct (decide (name (from d) ≠ name (to d))) as [Hne|Heq].
      * rewrite decide_True by done. by rewrite <- app_assoc.
      * rewrite decide_False by done. done.
Qed.

Lemma length_filter_split {A} (P : A → Prop) `{!∀ x, Decision (P x)} (l : list A) :
  length (filter (λ x, ¬ P x) l) + length (filter P l) = length l.
Proof.
  induction l as [|x l IH]; [done|].
  rewrite !filter_cons. destruct (decide (P x)).
  - rewrite decide_False by auto. simpl. lia.
  - rewrite decide_True by auto. simpl. lia.
Qed.
End Instances.

(** ** The fast path *)

(** C2.  When [newSet] or [missingSet] is empty, each resolver returns
    [{ created: newSet, renamed: [], (moved: [],) deleted: missingSet }]
    at once: whatever answers are at hand, none is asked for. *)
Theorem fast_path_returns_inputs {T : Type} `{EqDecision T} `{NamedWithSchema T}
    (tableName : string) (entity : EntityKind) (newSet missingSet : list T)
    (answers : list (Rendered T)) :
  newSet = [] ∨ missingSet = [] →
  run (promptNamedWithSchemasConflict_resume newSet entity)
      (promptNamedWithSchemasConflict newSet missingSet entity) answers
  = (Returned (WithMoved.mk newSet [] [] missingSet), answers)
  ∧ run (promptColumnsConflicts_resume tableName newSet)
        (promptColumnsConflicts tableName newSet missingSet) answers
    = (Returned (Output.mk newSet [] missingSet), answers)
  ∧ run (promptSchemasConflict_resume newSet)
        (promptSchemasConflict newSet missingSet) answers
    = (Returned (Output.mk newSet [] missingSet), answers).
Proof.
  intros Hempty.
  unfold promptNamedWithSchemasConflict, promptColumnsConflicts, promptSchemasConflict.
  assert ((length newSet =? 0) || (length missingSet =? 0) = true) as E1.
  { destruct Hempty as [-> | ->]; simpl; [done | apply orb_true_r]. }
  assert ((length missingSet =? 0) || (length newSet =? 0) = true) as E2.
  { by rewrite orb_comm. }
  rewrite E1, E2. by rewrite !run_settled.
Qed.

Lemma fast_path_returns_inputs_witness :
  let X := mkObj 1 "users" "" in
  run (promptNamedWithSchemasConflict_resume [] table)
      (promptNamedWithSchemasConflict [] [X] table) [aborted]
  = (Returned (WithMoved.mk [] [] [] [X]), [aborted])
  ∧ run (promptColumnsConflicts_resume "users" [])
        (promptColumnsConflicts "users" [] [X]) [aborted]
    = (Returned (Output.mk [] [] [X]), [aborted])
  ∧ run (promptSchemasConflict_resume [])
        (promptSchemasConflict [] [X]) [aborted]
    = (Returned (Output.mk [] [] [X]), [aborted]).
Proof.
  intros X.
  apply (fast_path_returns_inputs "users" table [] [X] [aborted]).
  left. reflexivity.
Defined.

(** ** Renamed and moved *)

(** C3.  In [promptNamedWithSchemasConflict], a rename answer pairing [X]
    with [C] is recorded so: when the names are equal and the schemas
    differ, one entry is pushed onto [moved] and [renamed] is unchanged; when
    the names differ and the schemas are equal, the pair is pushed onto
    [renamed] and [moved] is unchanged. *)
Theorem rename_answer_moved_xor_renamed {T : Type} `{EqDecision T} `{NamedWithSchema T}
    (newItems : list T) (entity : EntityKind)
    (s : Locals (WithMoved.t T) T) (X C : T) :
  ∃ r, result_of (promptNamedWithSchemasConflict_resume newItems entity s
                    (submitted (Rename (mkRename X C)))) = Some r
  ∧ (name X = name C → schema X ≠ schema C →
     WithMoved.renamed r = WithMoved.renamed (result s)
     ∧ WithMoved.moved r
       = WithMoved.moved (result s)
         ++ [mkMoved (name X) (js_or (schema X) "public") (js_or (schema C) "public")])
  ∧ (name X ≠ name C → schema X = schema C →
     WithMoved.renamed r = WithMoved.renamed (result s) ++ [mkRename X C]
     ∧ WithMoved.moved r = WithMoved.moved (result s)).
Proof.
  simpl.
  destruct (decide (index s + 1 < length newItems)) as [Hlt'|Hge].
  - unfold promptNamedWithSchemasConflict_render.
    destruct (lookup_lt_is_Some_2 newItems (index s + 1) Hlt') as [c ->]. simpl.
    eexists; split; [done|]. split; intros Hn Hs.
    + rewrite decide_False by auto. rewrite decide_True by done. done.
    + rewrite decide_True by done. rewrite decide_False by auto. done.
  - simpl. eexists; split; [done|]. simpl. split; intros Hn Hs.
    + rewrite decide_False by auto. rewrite decide_True by done. done.
    + rewrite decide_True by done. rewrite decide_False by auto. done.
Qed.

Lemma rename_answer_moved_xor_renamed_witness :
  let X := mkObj 1 "users" "old" in
  let C := mkObj 2 "users" "new" in
  let s := mkLocals 0 [X] (WithMoved.mk [] [] [] []) C in
  ∃ r, result_of (promptNamedWithSchemasConflict_resume [C] table s
                    (submitted (Rename (mkRename X C)))) = Some r
  ∧ (name X = name C → schema X ≠ schema C →
     WithMoved.renamed r = WithMoved.renamed (result s)
     ∧ WithMoved.moved r
       = WithMoved.moved (result s)
         ++ [mkMoved (name X) (js_or (schema X) "public") (js_or (schema C) "public")])
  ∧ (name X ≠ name C → schema X = schema C →
     WithMoved.renamed r = WithMoved.renamed (result s) ++ [mkRename X C]
     ∧ WithMoved.moved r = WithMoved.moved (result s)).
Proof.
  intros X C s.
  apply (rename_answer_moved_xor_renamed [C] table s X C).
Defined.

(** C6 (the code differs).  [promptNamedWithSchemasConflict] compares the
    schemas as they stand and normalises them afterwards: a rename answer
    from an entity with the empty schema to one in ["public"] is recorded as
    a move from ["public"] to ["public"]. *)
Lemma default_schema_pair_is_moved :
  let X := mkObj 1 "users" "" in
  let C := mkObj 2 "users" "public" in
  run (promptNamedWithSchemasConflict_resume [C] table)
      (promptNamedWithSchemasConflict [C] [X] table)
      [submitted (Rename (mkRename X C))]
  = (Returned (WithMoved.mk [] [] [mkMoved "users" "public" "public"] []), []).
Proof. reflexivity. Qed.

(** ** Whole runs of the loop *)

Section LoopRuns.
Context {R T : Type} `{EqDecision T}.
Variable newItems : list T.
Variable view : T → list (PromptItem T) → View T.
Variable record : R → T → PromptItem T → R.
Variable finish : R → list T → R.
Hypothesis view_data : ∀ c d, promptData (view c d) = d.

Lemma loop_offered_run answers index left res :
  index < length newItems →
  length newItems - index ≤ length answers →
  answers_offered (loop_resume newItems view record finish)
                  (loop_render newItems view index left res) answers →
  ∃ asked rest,
    answers = asked ++ rest
    ∧ length asked = length newItems - index
    ∧ (aborted ∉ asked)
    ∧ length (pool_after left asked) + length (rename_answers asked) = length left
    ∧ run (loop_resume newItems view record finish)
          (loop_render newItems view index left res) answers
      = (Returned (finish (recorded newItems record res index asked)
                          (pool_after left asked)), rest).
Proof.
  intros Hlt Hlen Hoff.
  exists (take (length newItems - index) answers),
         (drop (length newItems - index) answers).
  assert (length (take (length newItems - index) answers)
          = length newItems - index) as Htake
    by (rewrite length_take; lia).
  rewrite <- (take_drop (length newItems - index) answers) in Hoff.
  destruct (loop_offered newItems view record finish view_data _ _ _ _ _
              Hlt Htake Hoff) as [Hab Hcount].
  split; [by rewrite take_drop|]. split; [done|]. split; [done|]. split; [done|].
  rewrite <- (take_drop (length newItems - index) answers) at 1.
  by apply loop_run.
Qed.

(** An entity named by a rename answer is in no later pool, and no later
    prompt offers a rename from it. *)
Lemma loop_consumed_gone pre post i left res v' s' rest X C :
  NoDup left →
  run (loop_resume newItems view record finish)
      (loop_render newItems view i left res)
      (pre ++ submitted (Rename (mkRename X C)) :: post)
  = (Awaiting v' s', rest) →
  (X ∉ leftMissing s') ∧ ∀ C', ¬ offered v' (submitted (Rename (mkRename X C'))).
Proof.
  intros Hnd Hrun. rewrite run_app in Hrun.
  destruct (run (loop_resume newItems view record finish)
                (loop_render newItems view i left res) pre)
    as [c0 rest0] eqn:Hpre.
  simpl in Hrun.
  destruct c0 as [v s| | |]; try (rewrite run_settled in Hrun by done; done).
  pose proof (run_awaiting _ _ _ _ _ _ Hpre) as ->.
  apply loop_reach in Hpre as [Hsub _].
  simpl in Hrun.
  destruct (decide (index s + 1 < length newItems));
    [|rewrite run_settled in Hrun by done; done].
  apply loop_reach in Hrun as [Hsub' ->].
  assert (X ∉ leftMissing s') as Hgone.
  { intros Hin. eapply elem_of_sublist in Hin; [|exact Hsub'].
    simpl in Hin. rewrite remove_found_first, remove_first_filter in Hin
      by (eapply sublist_NoDup; done).
    apply list_elem_of_filter in Hin as [Hne _]. done. }
  split; [done|]. intros C' Hoff.
  apply (offered_options view view_data) in Hoff as [Heq|(x & Hx & Heq)]; [done|].
  injection Heq as -> _. done.
Qed.

(** An entity of the pool that no rename answer names stays in the pool. *)
Lemma pool_after_keeps (pool : list T) asked X :
  X ∈ pool → X ∉ rename_sources asked → X ∈ pool_after pool asked.
Proof.
  unfold pool_after. revert pool.
  induction asked as [|a asked IH]; intros pool Hin Hn; [done|].
  simpl. destruct a as [|[it|d]]; simpl in *; try by apply IH.
  apply not_elem_of_cons in Hn as [Hne Hn]. apply IH; [|done].
  rewrite remove_found_first. clear -Hin Hne.
  induction pool as [|y pool IHp]; [done|]. simpl.
  destruct (decide (y = from d)) as [->|Hy].
  - apply elem_of_cons in Hin as [->|Hin]; done.
  - apply elem_of_cons in Hin as [->|Hin]; [left | right; by apply IHp].
Qed.
End LoopRuns.

(** ** Counting the classified entities *)

Lemma view_data_columns {T} tableName (c : T) d :
  promptData (ResolveColumnSelect tableName c d) = d.
Proof. done. Qed.

Lemma view_data_schemas {T} (c : T) d : promptData (ResolveSchemasSelect c d) = d.
Proof. done. Qed.

Lemma view_data_select {T} entity (c : T) d :
  promptData ((λ c d, ResolveSelect c d entity) c d) = d.
Proof. done. Qed.

(** The counts of a flat loop that ran on offered answers. *)
Lemma flat_loop_counts {T : Type} `{EqDecision T}
    (view : T → list (PromptItem T) → View T)
    (view_data : ∀ c d, promptData (view c d) = d)
    (newSet missingSet : list T) (answers : list (Rendered T)) :
  0 < length newSet →
  length newSet ≤ length answers →
  answers_offered (loop_resume newSet view record_flat finish_flat)
    (loop_render newSet view 0 missingSet (Output.mk [] [] [])) answers →
  ∃ r rest,
    run (loop_resume newSet view record_flat finish_flat)
      (loop_render newSet view 0 missingSet (Output.mk [] [] [])) answers
    = (Returned r, rest)
    ∧ length (Output.created r) + length (Output.renamed r) = length newSet
    ∧ length (Output.deleted r) + length (Output.renamed r) = length missingSet.
Proof.
  intros Hpos Hlen Hoff.
  apply loop_offered_run in Hoff
    as (asked & rest & -> & Hl & Hab & Hcount & Hrun); [|done..|lia].
  rewrite Hrun. eexists _, rest. split; [done|].
  destruct (recorded_flat newSet (Output.mk [] [] []) 0 asked Hab) as (E1 & E2 & E3);
    [lia|].
  simpl in *. rewrite E2, E3. simpl. lia.
Qed.

(** C1, as the code has it.  With an offered answer for every prompt,
    [promptColumnsConflicts] and [promptSchemasConflict] return with
    [|created| + |renamed| = |newSet|] and [|deleted| + |renamed| = |missingSet|].
    [promptNamedWithSchemasConflict] pushes a rename answer onto [renamed]
    only when the two names differ: with [kept] the number of rename answers
    that keep the name, [|created| + |renamed| + kept = |newSet|] and
    [|deleted| + |renamed| + kept = |missingSet|]. *)
Theorem resolution_counts {T : Type} `{EqDecision T} `{NamedWithSchema T}
    (tableName : string) (entity : EntityKind) (newSet missingSet : list T)
    (answers : list (Rendered T)) :
  length newSet ≤ length answers →
  (answers_offered (promptColumnsConflicts_resume tableName newSet)
     (promptColumnsConflicts tableName newSet missingSet) answers →
   ∃ r rest,
     run (promptColumnsConflicts_resume tableName newSet)
       (promptColumnsConflicts tableName newSet missingSet) answers
     = (Returned r, rest)
     ∧ length (Output.created r) + length (Output.renamed r) = length newSet
     ∧ length (Output.deleted r) + length (Output.renamed r) = length missingSet)
  ∧ (answers_offered (promptSchemasConflict_resume newSet)
       (promptSchemasConflict newSet missingSet) answers →
     ∃ r rest,
       run (promptSchemasConflict_resume newSet)
         (promptSchemasConflict newSet missingSet) answers
       = (Returned r, rest)
       ∧ length (Output.created r) + length (Output.renamed r) = length newSet
       ∧ length (Output.deleted r) + length (Output.renamed r) = length missingSet)
  ∧ (answers_offered (promptNamedWithSchemasConflict_resume newSet entity)
       (promptNamedWithSchemasConflict newSet missingSet entity) answers →
     ∃ r asked rest,
       answers = asked ++ rest
       ∧ run (promptNamedWithSchemasConflict_resume newSet entity)
           (promptNamedWithSchemasConflict newSet missingSet entity) answers
         = (Returned r, rest)
       ∧ let kept := length (filter keeps_name (rename_answers asked)) in
         length (WithMoved.created r) + length (WithMoved.renamed r) + kept
         = length newSet
         ∧ length (WithMoved.deleted r) + length (WithMoved.renamed r) + kept
           = length missingSet).
Proof.
  intros Hlen. split; [|split].
  - unfold promptColumnsConflicts.
    destruct ((length newSet =? 0) || (length missingSet =? 0)) eqn:Hfast.
    + intros _. rewrite run_settled by done. eexists _, _. split; [done|].
      simpl. lia.
    + apply orb_false_iff in Hfast as [Hn%Nat.eqb_neq _].
      intros Hoff.
      rewrite (answers_offered_ext _ _ _ _ (promptColumnsConflicts_loop tableName newSet))
        in Hoff.
      rewrite (run_ext _ _ _ _ (promptColumnsConflicts_loop tableName newSet)).
      apply (flat_loop_counts _ (view_data_columns tableName)); [lia|done|done].
  - unfold promptSchemasConflict.
    destruct ((length missingSet =? 0) || (length newSet =? 0)) eqn:Hfast.
    + intros _. rewrite run_settled by done. eexists _, _. split; [done|].
      simpl. lia.
    + apply orb_false_iff in Hfast as [_ Hn%Nat.eqb_neq].
      intros Hoff.
      rewrite (answers_offered_ext _ _ _ _ (promptSchemasConflict_loop newSet)) in Hoff.
      rewrite (run_ext _ _ _ _ (promptSchemasConflict_loop newSet)).
      apply (flat_loop_counts _ view_data_schemas); [lia|done|done].
  - unfold promptNamedWithSchemasConflict.
    destruct ((length missingSet =? 0) || (length newSet =? 0)) eqn:Hfast.
    + intros _. rewrite run_settled by done. exists (WithMoved.mk newSet [] [] missingSet), [], answers.
      split; [done|]. split; [done|]. simpl. lia.
    + apply orb_false_iff in Hfast as [_ Hn%Nat.eqb_neq].
      intros Hoff.
      rewrite (answers_offered_ext _ _ _ _
                 (promptNamedWithSchemasConflict_loop newSet entity)) in Hoff.
      rewrite (run_ext _ _ _ _ (promptNamedWithSchemasConflict_loop newSet entity)).
      apply (loop_offered_run newSet _ _ _ (view_data_select entity)) in Hoff
        as (asked & rest & -> & Hl & Hab & Hcount & Hrun); [|lia..].
      exists (finish_moved
                (recorded newSet record_moved (WithMoved.mk [] [] [] []) 0 asked)
                (pool_after missingSet asked)), asked, rest.
      split; [done|]. split; [exact Hrun|].
      destruct (recorded_moved newSet (WithMoved.mk [] [] [] []) 0 asked Hab)
        as (E1 & E2 & E3); [lia|].
      pose proof (length_filter_split keeps_name (rename_answers asked)) as Hsplit.
      simpl in *. rewrite E2, E3. simpl. lia.
Qed.

Lemma resolution_counts_witness :
  let X := mkObj 1 "users" "app" in
  let A := mkObj 2 "members" "app" in
  let B := mkObj 3 "teams" "app" in
  let answers := [submitted (Rename (mkRename X A)); submitted (Plain B)] in
  ∃ r asked rest,
    answers = asked ++ rest
    ∧ run (promptNamedWithSchemasConflict_resume [A; B] table)
        (promptNamedWithSchemasConflict [A; B] [X] table) answers
      = (Returned r, rest)
    ∧ let kept := length (filter keeps_name (rename_answers asked)) in
      length (WithMoved.created r) + length (WithMoved.renamed r) + kept
      = length [A; B]
      ∧ length (WithMoved.deleted r) + length (WithMoved.renamed r) + kept
        = length [X].
Proof.
  intros X A B answers.
  apply (resolution_counts "users" table [A; B] [X] answers).
  - simpl. lia.
  - simpl. unfold offered. simpl. repeat constructor.
Defined.

(** C1 as stated fails for [promptNamedWithSchemasConflict]: a table moved to
    another schema under the same name is neither created nor renamed. *)
Lemma moved_pair_is_not_counted :
  let X := mkObj 1 "users" "old" in
  let A := mkObj 2 "users" "new" in
  let answers := [submitted (Rename (mkRename X A))] in
  answers_offered (promptNamedWithSchemasConflict_resume [A] table)
    (promptNamedWithSchemasConflict [A] [X] table) answers
  ∧ ∃ r,
      run (promptNamedWithSchemasConflict_resume [A] table)
        (promptNamedWithSchemasConflict [A] [X] table) answers
      = (Returned r, [])
      ∧ WithMoved.moved r = [mkMoved "users" "old" "new"]
      ∧ length (WithMoved.created r) + length (WithMoved.renamed r) ≠ length [A]
      ∧ length (WithMoved.deleted r) + length (WithMoved.renamed r) ≠ length [X].
Proof.
  intros X A answers. split.
  - simpl. unfold offered. simpl. repeat constructor.
  - eexists. split; [reflexivity|]. simpl. repeat split; lia.
Qed.

(** ** What is deleted *)

(** C5.  On the general path, with one answer per element of [newSet] and no
    abort among them, each resolver returns, and [deleted] is [missingSet]
    without the entities that a rename answer names as [from], in the order
    of [missingSet]. *)
Theorem deleted_is_unconsumed_missing {T : Type} `{EqDecision T} `{NamedWithSchema T}
    (tableName : string) (entity : EntityKind) (newSet missingSet : list T)
    (asked rest : list (Rendered T)) :
  newSet ≠ [] → missingSet ≠ [] → NoDup missingSet →
  length asked = length newSet → aborted ∉ asked →
  let unconsumed := filter (λ x, x ∉ rename_sources asked) missingSet in
  (∃ r, run (promptColumnsConflicts_resume tableName newSet)
          (promptColumnsConflicts tableName newSet missingSet) (asked ++ rest)
        = (Returned r, rest)
        ∧ Output.deleted r = unconsumed)
  ∧ (∃ r, run (promptSchemasConflict_resume newSet)
            (promptSchemasConflict newSet missingSet) (asked ++ rest)
          = (Returned r, rest)
          ∧ Output.deleted r = unconsumed)
  ∧ (∃ r, run (promptNamedWithSchemasConflict_resume newSet entity)
            (promptNamedWithSchemasConflict newSet missingSet entity) (asked ++ rest)
          = (Returned r, rest)
          ∧ WithMoved.deleted r = unconsumed).
Proof.
  intros Hnew Hmissing Hnd Hlen Hab unconsumed.
  assert (0 < length newSet) as Hpos by (destruct newSet; [done | simpl; lia]).
  assert (0 < length missingSet) as Hpos' by (destruct missingSet; [done | simpl; lia]).
  assert ((length newSet =? 0) || (length missingSet =? 0) = false) as E1.
  { apply orb_false_iff. split; apply Nat.eqb_neq; lia. }
  assert ((length missingSet =? 0) || (length newSet =? 0) = false) as E2.
  { by rewrite orb_comm. }
  unfold promptColumnsConflicts, promptSchemasConflict, promptNamedWithSchemasConflict.
  rewrite E1, E2. unfold unconsumed. rewrite <- (pool_after_filter missingSet asked Hnd).
  split; [|split].
  - rewrite (run_ext _ _ _ _ (promptColumnsConflicts_loop tableName newSet)).
    eexists. split; [apply loop_run; [done|lia|done]|].
    destruct (recorded_flat newSet (Output.mk [] [] []) 0 asked Hab) as (_ & _ & E3);
      [lia|].
    simpl in *. by rewrite E3.
  - rewrite (run_ext _ _ _ _ (promptSchemasConflict_loop newSet)).
    eexists. split; [apply loop_run; [done|lia|done]|].
    destruct (recorded_flat newSet (Output.mk [] [] []) 0 asked Hab) as (_ & _ & E3);
      [lia|].
    simpl in *. by rewrite E3.
  - rewrite (run_ext _ _ _ _ (promptNamedWithSchemasConflict_loop newSet entity)).
    eexists. split;
      [apply (loop_run newSet (λ c d, ResolveSelect c d entity)
                record_moved finish_moved); [done|lia|done]|].
    destruct (recorded_moved newSet (WithMoved.mk [] [] [] []) 0 asked Hab)
      as (_ & _ & E3); [lia|].
    simpl in *. by rewrite E3.
Qed.

Lemma deleted_is_unconsumed_missing_witness :
  let X := mkObj 1 "users" "app" in
  let Y := mkObj 2 "posts" "app" in
  let Z := mkObj 3 "tags" "app" in
  let A := mkObj 4 "members" "app" in
  let B := mkObj 5 "labels" "app" in
  let asked := [submitted (Rename (mkRename Y A)); submitted (Plain B)] in
  ∃ r, run (promptNamedWithSchemasConflict_resume [A; B] table)
         (promptNamedWithSchemasConflict [A; B] [X; Y; Z] table) (asked ++ [aborted])
       = (Returned r, [aborted])
       ∧ WithMoved.deleted r = [X; Z].
Proof.
  intros X Y Z A B asked.
  refine (proj2 (proj2 (deleted_is_unconsumed_missing "users" table
                          [A; B] [X; Y; Z] asked [aborted] _ _ _ _ _))).
  - done.
  - done.
  - distinct_list.
  - reflexivity.
  - not_in_list.
Defined.

(** ** Consumption *)

(** C4.  Let [missingSet] hold no entity twice.  After a rename answer that
    names [X] as [from], [X] is in the pool of no later prompt of the same
    call, and no later prompt offers a rename from [X]: an answer taken from
    the options cannot match [X] again. *)
Theorem consumed_entity_is_not_offered_again {T : Type} `{EqDecision T}
    `{NamedWithSchema T} (tableName : string) (entity : EntityKind)
    (newSet missingSet : list T) (pre post : list (Rendered T)) (X C : T) :
  NoDup missingSet →
  (∀ v s rest,
     run (promptColumnsConflicts_resume tableName newSet)
       (promptColumnsConflicts tableName newSet missingSet)
       (pre ++ submitted (Rename (mkRename X C)) :: post) = (Awaiting v s, rest) →
     (X ∉ leftMissing s) ∧ ∀ C', ¬ offered v (submitted (Rename (mkRename X C'))))
  ∧ (∀ v s rest,
       run (promptSchemasConflict_resume newSet)
         (promptSchemasConflict newSet missingSet)
         (pre ++ submitted (Rename (mkRename X C)) :: post) = (Awaiting v s, rest) →
       (X ∉ leftMissing s) ∧ ∀ C', ¬ offered v (submitted (Rename (mkRename X C'))))
  ∧ (∀ v s rest,
       run (promptNamedWithSchemasConflict_resume newSet entity)
         (promptNamedWithSchemasConflict newSet missingSet entity)
         (pre ++ submitted (Rename (mkRename X C)) :: post) = (Awaiting v s, rest) →
       (X ∉ leftMissing s) ∧ ∀ C', ¬ offered v (submitted (Rename (mkRename X C')))).
Proof.
  intros Hnd.
  unfold promptColumnsConflicts, promptSchemasConflict, promptNamedWithSchemasConflict.
  split; [|split]; intros v s rest.
  - destruct ((length newSet =? 0) || (length missingSet =? 0));
      [by rewrite run_settled|].
    rewrite (run_ext _ _ _ _ (promptColumnsConflicts_loop tableName newSet)).
    by apply (loop_consumed_gone newSet _ _ _ (view_data_columns tableName)).
  - destruct ((length missingSet =? 0) || (length newSet =? 0));
      [by rewrite run_settled|].
    rewrite (run_ext _ _ _ _ (promptSchemasConflict_loop newSet)).
    by apply (loop_consumed_gone newSet _ _ _ view_data_schemas).
  - destruct ((length missingSet =? 0) || (length newSet =? 0));
      [by rewrite run_settled|].
    rewrite (run_ext _ _ _ _ (promptNamedWithSchemasConflict_loop newSet entity)).
    by apply (loop_consumed_gone newSet _ _ _ (view_data_select entity)).
Qed.

Lemma consumed_entity_is_not_offered_again_witness :
  let X := mkObj 1 "users" "app" in
  let Y := mkObj 2 "posts" "app" in
  let A := mkObj 3 "members" "app" in
  let B := mkObj 4 "articles" "app" in
  let v := ResolveSelect B [Plain B; Rename (mkRename Y B)] table in
  let s := mkLocals 1 [Y] (WithMoved.mk [] [mkRename X A] [] []) B in
  run (promptNamedWithSchemasConflict_resume [A; B] table)
    (promptNamedWithSchemasConflict [A; B] [X; Y] table)
    ([] ++ submitted (Rename (mkRename X A)) :: []) = (Awaiting v s, [])
  ∧ (X ∉ leftMissing s)
  ∧ ∀ C', ¬ offered v (submitted (Rename (mkRename X C'))).
Proof.
  intros X Y A B v s.
  assert (NoDup [X; Y]) as Hnd by distinct_list.
  split; [reflexivity|].
  exact (proj2 (proj2 (consumed_entity_is_not_offered_again "users" table
                         [A; B] [X; Y] [] [] X A Hnd)) v s [] eq_refl).
Defined.

(** ** Removal is by reference *)

Lemma remove_found_outside {T : Type} `{EqDecision T} (pool : list T) (x : T) :
  x ∉ pool → remove_found pool x = pool.
Proof. intros Hn. rewrite remove_found_first. by apply remove_first_notin. Qed.

Lemma remove_found_inside {T : Type} `{EqDecision T} (pool : list T) (x : T) :
  x ∈ pool → length (remove_found pool x) + 1 = length pool.
Proof.
  intros Hin. rewrite remove_found_first.
  pose proof (remove_first_length pool x Hin). lia.
Qed.

(** A rename option of a prompt pairs an entity of the pool with [created]. *)
Lemma rename_option_from_pool {T : Type} `{EqDecision T} (c : T) (pool : list T)
    (d : RenamePropmtItem T) :
  submitted (Rename d) ∈ submitted <$> options c pool → from d ∈ pool ∧ to d = c.
Proof.
  intros Hin. apply list_elem_of_fmap in Hin as (item & [= <-] & Hin).
  unfold options in Hin. apply elem_of_cons in Hin as [?|Hin]; [done|].
  apply list_elem_of_fmap in Hin as (r & [= ->] & Hin).
  apply list_elem_of_fmap in Hin as (x & -> & Hin). done.
Qed.

(** C10, as the code has it.  Removal from the pool is by reference.
    (1)-(3): when the [from] of a rename answer is not an element of the
    pool (an equal-valued copy, or any other object), the next prompt is
    rendered with the pool as it was (or, after the last element, the whole
    pool is pushed onto [deleted]), and the answer is recorded as any rename
    answer is: pushed onto [renamed] by the flat resolvers; by
    [promptNamedWithSchemasConflict] onto [renamed] if the names differ and
    onto [moved] if the schemas differ.
    (4): a rename option of a prompt has its [from] in the pool, and the
    removal of an element of the pool shortens the pool by one.
    (5)-(7): at the end of a run on the general path, an entity of
    [missingSet] that no rename answer names by reference is in [deleted],
    whatever copies of it the answers name. *)
Theorem removal_is_by_reference {T : Type} `{EqDecision T} `{NamedWithSchema T}
    (tableName : string) (entity : EntityKind) (newSet missingSet : list T) :
  (∀ (s : Locals (Output.t T) T) d,
     from d ∉ leftMissing s →
     promptColumnsConflicts_resume tableName newSet s (submitted (Rename d))
     = let result :=
         Output.mk (Output.created (result s)) (Output.renamed (result s) ++ [d])
                   (Output.deleted (result s)) in
       if decide (index s + 1 < length newSet)
       then promptColumnsConflicts_render tableName newSet (index s + 1)
              (leftMissing s) result
       else Returned (Output.mk (Output.created result) (Output.renamed result)
                                (Output.deleted result ++ leftMissing s)))
  ∧ (∀ (s : Locals (Output.t T) T) d,
       from d ∉ leftMissing s →
       promptSchemasConflict_resume newSet s (submitted (Rename d))
       = let result :=
           Output.mk (Output.created (result s)) (Output.renamed (result s) ++ [d])
                     (Output.deleted (result s)) in
         if decide (index s + 1 < length newSet)
         then promptSchemasConflict_render newSet (index s + 1) (leftMissing s) result
         else Returned (Output.mk (Output.created result) (Output.renamed result)
                                  (Output.deleted result ++ leftMissing s)))
  ∧ (∀ (s : Locals (WithMoved.t T) T) d,
       from d ∉ leftMissing s →
       promptNamedWithSchemasConflict_resume newSet entity s (submitted (Rename d))
       = let result :=
           WithMoved.mk (WithMoved.created (result s))
             (if decide (name (from d) ≠ name (to d))
              then WithMoved.renamed (result s) ++ [d]
              else WithMoved.renamed (result s))
             (if decide (schema (from d) ≠ schema (to d))
              then WithMoved.moved (result s)
                   ++ [mkMoved (name (from d)) (js_or (schema (from d)) "public")
                               (js_or (schema (to d)) "public")]
              else WithMoved.moved (result s))
             (WithMoved.deleted (result s)) in
         if decide (index s + 1 < length newSet)
         then promptNamedWithSchemasConflict_render newSet entity (index s + 1)
                (leftMissing s) result
         else Returned (WithMoved.mk (WithMoved.created result)
                          (WithMoved.renamed result) (WithMoved.moved result)
                          (WithMoved.deleted result ++ leftMissing s)))
  ∧ (∀ (c : T) (pool : list T) d,
       (submitted (Rename d) ∈ submitted <$> options c pool → from d ∈ pool)
       ∧ (from d ∈ pool → length (remove_found pool (from d)) + 1 = length pool))
  ∧ (∀ asked rest X,
       newSet ≠ [] → missingSet ≠ [] →
       length asked = length newSet → aborted ∉ asked →
       X ∈ missingSet → X ∉ rename_sources asked →
       (∃ r, run (promptColumnsConflicts_resume tableName newSet)
               (promptColumnsConflicts tableName newSet missingSet) (asked ++ rest)
             = (Returned r, rest)
             ∧ X ∈ Output.deleted r ∧ Output.renamed r = rename_answers asked)
       ∧ (∃ r, run (promptSchemasConflict_resume newSet)
                 (promptSchemasConflict newSet missingSet) (asked ++ rest)
               = (Returned r, rest)
               ∧ X ∈ Output.deleted r ∧ Output.renamed r = rename_answers asked)
       ∧ (∃ r, run (promptNamedWithSchemasConflict_resume newSet entity)
                 (promptNamedWithSchemasConflict newSet missingSet entity)
                 (asked ++ rest)
               = (Returned r, rest)
               ∧ X ∈ WithMoved.deleted r
               ∧ WithMoved.renamed r
                 = filter (λ d, ¬ keeps_name d) (rename_answers asked))).
Proof.
  split; [|split; [|split; [|split]]].
  - intros s d Hout. simpl. by rewrite (remove_found_outside _ _ Hout).
  - intros s d Hout. simpl. by rewrite (remove_found_outside _ _ Hout).
  - intros s d Hout. simpl. by rewrite (remove_found_outside _ _ Hout).
  - intros c pool d. split.
    + intros Hin. by apply rename_option_from_pool in Hin as [? _].
    + apply remove_found_inside.
  - intros asked rest X Hnew Hmissing Hlen Hab HX Hfree.
    assert (0 < length newSet) as Hpos by (destruct newSet; [done | simpl; lia]).
    assert (0 < length missingSet) as Hpos'
      by (destruct missingSet; [done | simpl; lia]).
    assert ((length newSet =? 0) || (length missingSet =? 0) = false) as E1.
    { apply orb_false_iff. split; apply Nat.eqb_neq; lia. }
    assert ((length missingSet =? 0) || (length newSet =? 0) = false) as E2.
    { by rewrite orb_comm. }
    pose proof (pool_after_keeps missingSet asked X HX Hfree) as Hkept.
    unfold promptColumnsConflicts, promptSchemasConflict, promptNamedWithSchemasConflict.
    rewrite E1, E2. split; [|split].
    + rewrite (run_ext _ _ _ _ (promptColumnsConflicts_loop tableName newSet)).
      eexists. split; [apply loop_run; [done|lia|done]|].
      destruct (recorded_flat newSet (Output.mk [] [] []) 0 asked Hab)
        as (_ & E & E3); [lia|].
      simpl in *. rewrite E, E3. done.
    + rewrite (run_ext _ _ _ _ (promptSchemasConflict_loop newSet)).
      eexists. split; [apply loop_run; [done|lia|done]|].
      destruct (recorded_flat newSet (Output.mk [] [] []) 0 asked Hab)
        as (_ & E & E3); [lia|].
      simpl in *. rewrite E, E3. done.
    + rewrite (run_ext _ _ _ _ (promptNamedWithSchemasConflict_loop newSet entity)).
      eexists. split;
        [apply (loop_run newSet (λ c d, ResolveSelect c d entity)
                  record_moved finish_moved); [done|lia|done]|].
      destruct (recorded_moved newSet (WithMoved.mk [] [] [] []) 0 asked Hab)
        as (_ & E & E3); [lia|].
      simpl in *. rewrite E, E3. done.
Qed.

(** C10 as stated fails for [promptNamedWithSchemasConflict]: the answer names
    a copy [X'] of the missing table [X], under the name of the new table;
    the pool is left as it was and [X] is deleted, but the pair is recorded
    in [moved], not as renamed. *)
Lemma copy_with_same_name_is_not_renamed :
  let X := mkObj 1 "users" "old" in
  let X' := mkObj 3 "users" "old" in
  let A := mkObj 2 "users" "new" in
  (X' ∉ [X]) ∧ name X' = name X ∧ schema X' = schema X
  ∧ run (promptNamedWithSchemasConflict_resume [A] table)
      (promptNamedWithSchemasConflict [A] [X] table)
      [submitted (Rename (mkRename X' A))]
    = (Returned (WithMoved.mk [] [] [mkMoved "users" "old" "new"] [X]), []).
Proof.
  intros X X' A. split; [not_in_list|]. done.
Qed.

(** ** Paths *)

Lemma string_app_assoc (a b c : string) : (a +:+ b) +:+ c = a +:+ (b +:+ c).
Proof.
  induction a as [|x a IH]; [done|].
  change (String x ((a +:+ b) +:+ c) = String x (a +:+ (b +:+ c))). by rewrite IH.
Qed.

Lemma split_nonempty (path : string) : split path ≠ [].
Proof.
  destruct path as [|c rest]; simpl; [done|].
  destruct (decide (c = "/"%char)); [done|]. by destruct (split rest).
Qed.

Lemma concat_split (path : string) : String.concat "/" (split path) = path.
Proof.
  induction path as [|c rest IH]; [done|]. simpl split.
  destruct (decide (c = "/"%char)) as [->|Hc].
  - pose proof (split_nonempty rest) as Hne.
    destruct (split rest) as [|segment segments] eqn:E; [done|].
    change (String.concat "/" ("" :: segment :: segments))
      with ("" +:+ "/" +:+ String.concat "/" (segment :: segments)).
    by rewrite IH.
  - pose proof (split_nonempty rest) as Hne.
    destruct (split rest) as [|segment segments] eqn:E; [done|].
    rewrite <- IH. destruct segments as [|next segments]; [done|].
    change (String c segment +:+ "/" +:+ String.concat "/" (next :: segments)
            = String c (segment +:+ "/" +:+ String.concat "/" (next :: segments))).
    done.
Qed.

Lemma split_app (a b : string) : split (a +:+ "/" +:+ b) = split a ++ split b.
Proof.
  induction a as [|c a IH]; [done|].
  change (split (String c (a +:+ "/" +:+ b)) = split (String c a) ++ split b).
  simpl split. rewrite IH.
  destruct (decide (c = "/"%char)); [done|].
  pose proof (split_nonempty a) as Hne.
  by destruct (split a).
Qed.

Lemma split_has_separator (s : string) : has_separator s = false → split s = [s].
Proof.
  induction s as [|c s IH]; [done|]. simpl.
  intros [Hc Hs]%orb_false_elim. apply bool_decide_eq_false in Hc.
  rewrite decide_False by done. by rewrite IH.
Qed.

Lemma split_name (s : string) : is_name s = true → split s = [s].
Proof.
  unfold is_name. rewrite !andb_true_iff, negb_true_iff.
  intros [[[_ Hsep] _] _]. by apply split_has_separator.
Qed.

Lemma is_name_ne (s : string) : is_name s = true → s ≠ "" ∧ s ≠ "." ∧ s ≠ "..".
Proof.
  unfold is_name. rewrite !andb_true_iff, !negb_true_iff, !bool_decide_eq_false.
  intros [[[Ht _] ?] ?]. split; [|done]. by intros ->.
Qed.

Lemma isAbsolute_split (path : string) :
  isAbsolute path = true → head (split path) = Some "".
Proof.
  destruct path as [|c rest]; [done|]. simpl.
  intros ->%bool_decide_eq_true. done.
Qed.

Lemma trailingSeparator_split (path : string) :
  trailingSeparator path = true → ∃ s l, split path = s :: l ++ [""].
Proof.
  induction path as [|c rest IH]; [done|].
  destruct rest as [|c' rest].
  - simpl. intros ->%bool_decide_eq_true. by exists "", [].
  - intros Ht. change (trailingSeparator (String c' rest) = true) in Ht.
    destruct (IH Ht) as (s & l & E).
    change (split (String c (String c' rest)))
      with (if decide (c = "/"%char) then "" :: split (String c' rest)
            else match split (String c' rest) with
                 | segment :: segments => String c segment :: segments
                 | [] => [String c ""]
                 end).
    rewrite E. destruct (decide (c = "/"%char)).
    + by exists "", (s :: l).
    + by exists (String c s), l.
Qed.

Lemma simple_path_names (path : string) :
  simple_path path = true → Forall (λ s, is_name s = true) (split path).
Proof.
  unfold simple_path. induction (split path) as [|s l IH]; simpl; [done|].
  intros [Hs Hl]%andb_true_iff. constructor; [done|by apply IH].
Qed.

Lemma simple_path_ne (path : string) : simple_path path = true → path ≠ "".
Proof. by intros Hs ->. Qed.

Lemma simple_path_relative (path : string) :
  simple_path path = true → isAbsolute path = false.
Proof.
  intros Hs%simple_path_names. destruct (isAbsolute path) eqn:E; [|done].
  apply isAbsolute_split in E. destruct (split path) as [|s l]; [done|].
  injection E as ->. by apply Forall_cons_1 in Hs as [? _].
Qed.

Lemma simple_path_no_trailing (path : string) :
  simple_path path = true → trailingSeparator path = false.
Proof.
  intros Hs%simple_path_names. destruct (trailingSeparator path) eqn:E; [|done].
  apply trailingSeparator_split in E as (s & l & E). rewrite E in Hs.
  apply Forall_cons_1 in Hs as [_ Hs].
  apply Forall_app in Hs as [_ Hs]. by apply Forall_cons_1 in Hs as [? _].
Qed.

Lemma normalize_names (allowAboveRoot : bool) (res segments : list string) :
  Forall (λ s, is_name s = true) segments →
  foldl (normalize_segment allowAboveRoot) res segments = rev segments ++ res.
Proof.
  revert res. induction segments as [|s segments IH]; intros res Hs; [done|].
  apply Forall_cons_1 in Hs as [Hname Hs]. simpl.
  rewrite IH by done. unfold normalize_segment.
  apply is_name_ne in Hname as (? & ? & ?).
  rewrite decide_False by tauto. rewrite decide_False by done.
  by rewrite <- app_assoc.
Qed.

(** A path in normal form is its own normal form. *)
Lemma normalize_simple (path : string) :
  simple_path path = true → normalize path = path.
Proof.
  intros Hs. unfold normalize, normalizeString.
  rewrite decide_False by by apply simple_path_ne.
  rewrite simple_path_relative, simple_path_no_trailing by done. simpl.
  rewrite normalize_names by by apply simple_path_names.
  rewrite app_nil_r, rev_involutive, concat_split.
  by rewrite decide_False by by apply simple_path_ne.
Qed.

Lemma simple_path_name (s : string) : is_name s = true → simple_path s = true.
Proof.
  intros Hname. unfold simple_path. rewrite split_name by done. simpl.
  by rewrite Hname.
Qed.

Lemma simple_path_app (dir file : string) :
  simple_path dir = true → is_name file = true →
  simple_path (dir +:+ "/" +:+ file) = true.
Proof.
  intros Hd Hf. unfold simple_path in *.
  rewrite split_app, forallb_app, Hd, (split_name file) by done. simpl. by rewrite Hf.
Qed.

(** On a path in normal form and a name, [join] puts a slash between. *)
Lemma join_simple (dir file : string) :
  simple_path dir = true → is_name file = true →
  join dir file = dir +:+ "/" +:+ file.
Proof.
  intros Hd Hf. unfold join, path_join.
  rewrite filter_cons_True by by apply simple_path_ne.
  rewrite filter_cons_True by by apply is_name_ne.
  rewrite filter_nil.
  change (String.concat "/" [dir; file]) with (dir +:+ "/" +:+ file).
  by apply normalize_simple, simple_path_app.
Qed.

Lemma path_join_simple (path : string) :
  simple_path path = true → path_join [path] = path.
Proof.
  intros Hs. unfold path_join.
  rewrite filter_cons_True by by apply simple_path_ne.
  by apply normalize_simple.
Qed.

Lemma parent_app (dir file : string) :
  simple_path dir = true → is_name file = true →
  parent (dir +:+ "/" +:+ file) = Some dir.
Proof.
  intros Hd Hf. unfold parent.
  rewrite split_app, (split_name file), removelast_last by done.
  pose proof (split_nonempty dir) as Hne.
  destruct (split dir) as [|s l] eqn:E; [done|]. rewrite <- E, concat_split.
  by rewrite decide_False by by apply simple_path_ne.
Qed.

Lemma is_name_sql : is_name "migration.sql" = true. Proof. reflexivity. Qed.
Lemma is_name_json : is_name "snapshot.json" = true. Proof. reflexivity. Qed.
Lemma is_name_js : is_name "migrations.js" = true. Proof. reflexivity. Qed.

(** ** File system *)

Lemma fs_lookup_write (fs : FS) (path : string) (n : Node) (q : string) :
  fs_lookup (fs_write fs path n) q
  = if decide (path = q) then Some n else fs_lookup fs q.
Proof.
  induction fs as [|[p m] fs IH]; simpl.
  - destruct (decide (path = q)); done.
  - destruct (decide (p = path)) as [->|Hne]; simpl.
    + destruct (decide (path = q)); done.
    + destruct (decide (p = q)) as [->|Hq].
      * by rewrite decide_False by done.
      * exact IH.
Qed.

Lemma fs_lookup_elem (fs : FS) (path : string) (n : Node) :
  fs_lookup fs path = Some n → (path, n) ∈ fs.
Proof.
  induction fs as [|[p m] fs IH]; simpl; [done|].
  destruct (decide (p = path)) as [->|].
  - intros [= ->]. left.
  - intros Hl. right. by apply IH.
Qed.

Lemma fs_lookup_is_Some (fs : FS) (path : string) (n : Node) :
  (path, n) ∈ fs → is_Some (fs_lookup fs path).
Proof.
  induction fs as [|[p m] fs IH]; [by intros ?%elem_of_nil|].
  intros Hin. simpl. destruct (decide (p = path)); [done|].
  apply elem_of_cons in Hin as [[= ? ?]|Hin]; [done|]. by apply IH.
Qed.

Lemma string_app_nil_r (a : string) : a +:+ "" = a.
Proof.
  induction a as [|x a IH]; [done|].
  change (String x (a +:+ "") = String x a). by rewrite IH.
Qed.

Lemma string_app_length (a b : string) :
  String.length (a +:+ b) = String.length a + String.length b.
Proof.
  induction a as [|x a IH]; [done|].
  change (S (String.length (a +:+ b)) = S (String.length a) + String.length b).
  by rewrite IH.
Qed.

Lemma app_ne_self (dir rest : string) : rest ≠ "" → dir +:+ rest ≠ dir.
Proof.
  intros Hne Heq. apply (f_equal String.length) in Heq.
  rewrite string_app_length in Heq. destruct rest; [done|]. simpl in Heq. lia.
Qed.

Lemma strip_prefix_app (a r : string) : strip_prefix a (a +:+ r) = Some r.
Proof.
  induction a as [|x a IH]; [by destruct r|].
  change (strip_prefix (String x a) (String x (a +:+ r)) = Some r).
  simpl. by rewrite decide_True.
Qed.

Lemma strip_prefix_Some (a s r : string) :
  strip_prefix a s = Some r → s = a +:+ r.
Proof.
  revert s. induction a as [|x a IH]; intros s; simpl.
  - destruct s; by intros [= <-].
  - destruct s as [|y s]; [done|].
    destruct (decide (x = y)) as [->|]; [|done].
    intros E%IH. by rewrite E.
Qed.

Lemma entry_of_Some (dir path e : string) :
  entry_of dir path = Some e → path = dir +:+ "/" +:+ e ∧ is_name e = true.
Proof.
  unfold entry_of.
  destruct (strip_prefix (dir +:+ "/") path) as [rest|] eqn:E; [|done].
  destruct (is_name rest) eqn:Hname; [|done].
  intros [= <-]. apply strip_prefix_Some in E as ->.
  by rewrite string_app_assoc.
Qed.

Lemma entry_of_app (dir e : string) :
  is_name e = true → entry_of dir (dir +:+ "/" +:+ e) = Some e.
Proof.
  intros Hname. unfold entry_of.
  by rewrite <- string_app_assoc, strip_prefix_app, Hname.
Qed.

(** *** The order of a listing *)

Lemma compare_le_trans (a b c : string) :
  String.compare a b ≠ Gt → String.compare b c ≠ Gt → String.compare a c ≠ Gt.
Proof.
  revert b c. induction a as [|x a IH]; intros [|y b] [|z c]; simpl; try done.
  unfold Ascii.compare.
  destruct (N.compare_spec (N_of_ascii x) (N_of_ascii y)) as [Hxy|Hxy|Hxy];
    destruct (N.compare_spec (N_of_ascii y) (N_of_ascii z)) as [Hyz|Hyz|Hyz];
    try done.
  - rewrite Hxy, Hyz, N.compare_refl. apply IH.
  - intros _ _. rewrite Hxy. apply N.compare_lt_iff in Hyz. by rewrite Hyz.
  - intros _ _. rewrite <- Hyz. apply N.compare_lt_iff in Hxy. by rewrite Hxy.
  - intros _ _. assert (N_of_ascii x < N_of_ascii z)%N as Hxz by lia.
    apply N.compare_lt_iff in Hxz. by rewrite Hxz.
Qed.

Lemma byte_le_compare (a b : string) : byte_le a b ↔ String.compare a b ≠ Gt.
Proof. unfold byte_le, String.leb. by destruct (String.compare a b). Qed.

Lemma byte_le_trans : Transitive byte_le.
Proof. intros a b c. rewrite !byte_le_compare. apply compare_le_trans. Qed.

Lemma byte_le_total : Total byte_le.
Proof.
  intros a b. unfold byte_le.
  destruct (String.leb_total a b) as [->| ->]; [by left|by right].
Qed.

Lemma byte_le_antisym : AntiSymm (=) byte_le.
Proof.
  intros a b Hab Hba. apply String.leb_antisym; by apply Is_true_true.
Qed.

Lemma StronglySorted_filter {A} (R : relation A) (P : A → Prop)
    `{!∀ x, Decision (P x)} (l : list A) :
  StronglySorted R l → StronglySorted R (filter P l).
Proof.
  induction 1 as [|x l Hl IH Hx]; [constructor|].
  destruct (decide (P x)).
  - rewrite filter_cons_True by done. constructor; [done|].
    apply Forall_forall. intros y [_ Hy]%list_elem_of_filter.
    rewrite Forall_forall in Hx. by apply Hx.
  - by rewrite filter_cons_False.
Qed.

(** *** Listings *)

Lemma entries_sorted (fs : FS) (dir : string) : StronglySorted byte_le (entries fs dir).
Proof.
  apply (@StronglySorted_merge_sort _ byte_le _ byte_le_trans byte_le_total).
Qed.

Lemma entries_NoDup (fs : FS) (dir : string) : NoDup (entries fs dir).
Proof.
  unfold entries. rewrite merge_sort_Permutation. apply NoDup_remove_dups.
Qed.

Lemma elem_of_entries (fs : FS) (dir it : string) :
  it ∈ entries fs dir
  ↔ is_name it = true ∧ is_Some (fs_lookup fs (dir +:+ "/" +:+ it)).
Proof.
  unfold entries. rewrite merge_sort_Permutation, elem_of_remove_dups, list_elem_of_omap.
  split.
  - intros ([p n] & Hin & Hentry). simpl in Hentry.
    apply entry_of_Some in Hentry as [-> Hname]. split; [done|].
    by apply (fs_lookup_is_Some _ _ n).
  - intros [Hname [n Hl]]. exists (dir +:+ "/" +:+ it, n). split.
    + by apply fs_lookup_elem.
    + by apply entry_of_app.
Qed.

Lemma elem_of_migrationFolders (outFolder it : string) (w : World) :
  simple_path outFolder = true →
  it ∈ migrationFolders outFolder w
  ↔ is_name it = true
    ∧ fs_lookup (files w) (outFolder +:+ "/" +:+ it) = Some Directory.
Proof.
  intros Hs. unfold migrationFolders.
  rewrite list_elem_of_filter, elem_of_entries. split.
  - intros [Hdir [Hname _]]. split; [done|]. by rewrite <- join_simple.
  - intros [Hname Hdir]. rewrite join_simple by done. by rewrite Hdir.
Qed.

Lemma migrationFolders_sorted (outFolder : string) (w : World) :
  StronglySorted byte_le (migrationFolders outFolder w).
Proof. apply StronglySorted_filter, entries_sorted. Qed.

Lemma migrationFolders_NoDup (outFolder : string) (w : World) :
  NoDup (migrationFolders outFolder w).
Proof. apply NoDup_filter, entries_NoDup. Qed.

(** Two stores with the same directories in [outFolder] list the same
    migration folders. *)
Lemma migrationFolders_ext (outFolder : string) (w1 w2 : World) :
  simple_path outFolder = true →
  (∀ it, is_name it = true →
         fs_lookup (files w1) (outFolder +:+ "/" +:+ it) = Some Directory
         ↔ fs_lookup (files w2) (outFolder +:+ "/" +:+ it) = Some Directory) →
  migrationFolders outFolder w1 = migrationFolders outFolder w2.
Proof.
  intros Hs Hsame.
  apply (@StronglySorted_unique _ byte_le byte_le_antisym);
    try apply migrationFolders_sorted.
  apply NoDup_Permutation; try apply migrationFolders_NoDup.
  intros it. rewrite !elem_of_migrationFolders by done.
  split; intros [Hname Hdir]; (split; [done|]); by apply Hsame.
Qed.

(** ** The monad *)

Lemma bind_ok {A B} (m : IO A) (k : A → IO B) (w w' : World) (a : A) :
  m w = (Ok a, w') → (m ≫= k) w = k a w'.
Proof. unfold mbind, IO_bind. by intros ->. Qed.


(** *** What a call keeps *)

Lemma keeps_ret {A} (I : World → Prop) (a : A) : keeps I (mret a).
Proof. by intros w. Qed.

Lemma keeps_bind {A B} (I : World → Prop) (m : IO A) (k : A → IO B) :
  keeps I m → (∀ a, keeps I (k a)) → keeps I (m ≫= k).
Proof.
  intros Hm Hk w Hw. unfold mbind, IO_bind.
  specialize (Hm w Hw). destruct (m w) as [[a|e] w']; [|done].
  by apply Hk.
Qed.

Lemma keeps_when (I : World → Prop) (b : bool) (m : IO unit) :
  keeps I m → keeps I (when b m).
Proof. destruct b; [done|]. intros _. apply keeps_ret. Qed.

Lemma keeps_console_log (I : World → Prop) (line : string) :
  (∀ fs c c', I (mkWorld fs c) → I (mkWorld fs c')) →
  keeps I (console_log line).
Proof. intros HI [fs c] Hw. simpl. by apply (HI _ c). Qed.

(** ** The calls *)

Lemma writeFileSync_ok (path content : string) (w : World) :
  is_directory (fs_lookup (files w) path) = false →
  parent_error (files w) path = None →
  writeFileSync path content w
  = (Ok tt, mkWorld (fs_write (files w) path (File content)) (console w)).
Proof.
  intros Hdir Hparent. unfold writeFileSync. rewrite Hparent.
  by destruct (fs_lookup (files w) path) as [[|c]|].
Qed.

(** [writeFileSync] changes its path, if anything. *)
Lemma writeFileSync_files (path content : string) (w : World) :
  files (writeFileSync path content w).2 = files w
  ∨ files (writeFileSync path content w).2 = fs_write (files w) path (File content).
Proof.
  unfold writeFileSync.
  destruct (fs_lookup (files w) path) as [[|c]|];
    destruct (parent_error (files w) path); simpl; auto.
Qed.

Lemma writeFileSync_console (path content : string) (w : World) :
  console (writeFileSync path content w).2 = console w.
Proof.
  unfold writeFileSync.
  destruct (fs_lookup (files w) path) as [[|c]|];
    destruct (parent_error (files w) path); done.
Qed.

Lemma parent_error_app (fs : FS) (dir file : string) :
  simple_path dir = true → is_name file = true →
  fs_lookup fs dir = Some Directory →
  parent_error fs (dir +:+ "/" +:+ file) = None.
Proof.
  intros Hd Hf Hl. unfold parent_error. by rewrite parent_app, Hl.
Qed.

Lemma mkdir_p_directory (fs : FS) (dir : string) :
  fs_lookup fs dir = Some Directory → mkdir_p (rev (split dir)) fs = Ok fs.
Proof.
  intros Hl. pose proof (split_nonempty dir) as Hne.
  destruct (rev (split dir)) as [|s above] eqn:E; [done|].
  cbn [mkdir_p]. rewrite <- E, rev_involutive, concat_split, Hl.
  by destruct (decide (dir = "")).
Qed.

(** In a directory that exists, [mkdirSync] makes the directory itself. *)
Lemma mkdirSync_leaf (dir name : string) (w : World) :
  is_name name = true →
  fs_lookup (files w) dir = Some Directory →
  mkdirSync (dir +:+ "/" +:+ name) w
  = match fs_lookup (files w) (dir +:+ "/" +:+ name) with
    | Some Directory => (Ok tt, mkWorld (files w) (console w))
    | Some (File _) => (Throw EEXIST, w)
    | None =>
        (Ok tt, mkWorld (fs_write (files w) (dir +:+ "/" +:+ name) Directory) (console w))
    end.
Proof.
  intros Hname Hl. unfold mkdirSync.
  rewrite split_app, (split_name name), rev_app_distr by done.
  cbn [rev app mkdir_p].
  rewrite rev_involutive.
  replace (String.concat "/" (split dir ++ [name])) with (dir +:+ "/" +:+ name).
  2: { rewrite <- (split_name name), <- split_app, concat_split by done. done. }
  rewrite decide_False.
  2: { destruct dir; [|done]. by destruct name. }
  destruct (fs_lookup (files w) (dir +:+ "/" +:+ name)) as [[|c]|]; [done|done|].
  by rewrite mkdir_p_directory.
Qed.

(** ** The journal *)

Section WorldFacts.
Variable Date_parse : string → number.

Lemma filterM_isDirectory_world (f : string → string) (l : list string) (w : World) :
  (filterM (λ it, isDirectory (f it)) l w).2 = w.
Proof.
  induction l as [|x l IH]; [done|].
  cbn [filterM]. unfold mbind, IO_bind, mret, IO_ret, isDirectory.
  destruct (fs_lookup (files w) (f x)) as [[|c]|]; [| |done].
  - destruct (filterM _ l w) as [[kept|e] w'] eqn:E; apply (f_equal snd) in E;
      rewrite IH in E; by simpl in *.
  - destruct (filterM _ l w) as [[kept|e] w'] eqn:E; apply (f_equal snd) in E;
      rewrite IH in E; by simpl in *.
Qed.

Lemma filterM_isDirectory (f : string → string) (l : list string) (w : World) :
  Forall (λ it, is_Some (fs_lookup (files w) (f it))) l →
  filterM (λ it, isDirectory (f it)) l w
  = (Ok (filter (λ it, fs_lookup (files w) (f it) = Some Directory) l), w).
Proof.
  induction 1 as [|x l [n Hx] Hl IH]; [done|].
  cbn [filterM]. unfold mbind, IO_bind, mret, IO_ret.
  unfold isDirectory at 1. rewrite Hx, filter_cons.
  destruct n as [|c]; rewrite IH; simpl.
  - by rewrite decide_True.
  - rewrite decide_False; [done|]. by rewrite Hx.
Qed.

Lemma forEach_from_lines (entries : list string) (idx : nat)
    (content journalEntries : string) :
  forEach_from Date_parse idx entries (content, journalEntries)
  = (content +:+ lines (imap (λ i, import_line (idx + i)) entries),
     journalEntries
     +:+ lines (imap (λ i, journal_line Date_parse (idx + i)) entries)).
Proof.
  revert idx content journalEntries.
  induction entries as [|entry entries IH]; intros idx content journalEntries.
  - cbn. by rewrite !string_app_nil_r.
  - cbn [forEach_from forEach_entry]. rewrite IH. clear IH.
    assert (imap (λ i, import_line (S idx + i)) entries
            = imap ((λ i, import_line (idx + i)) ∘ S) entries) as ->.
    { apply imap_ext. intros i x _. simpl. f_equal. lia. }
    assert (imap (λ i, journal_line Date_parse (S idx + i)) entries
            = imap ((λ i, journal_line Date_parse (idx + i)) ∘ S) entries) as ->.
    { apply imap_ext. intros i x _. simpl. f_equal. lia. }
    cbn [imap lines foldr]. rewrite Nat.add_0_r.
    unfold import_line, journal_line. by rewrite !string_app_assoc.
Qed.

(** [embeddedMigrations] only reads the store, whatever it yields. *)
Lemma embeddedMigrations_reads (outFolder : string) (w : World) :
  (embeddedMigrations Date_parse outFolder w).2 = w.
Proof.
  unfold embeddedMigrations, mbind, IO_bind, readdirSync, mret, IO_ret.
  destruct (fs_lookup (files w) outFolder) as [[|c]|]; [|done..].
  destruct (filterM _ _ w) as [[kept|e] w'] eqn:E; apply (f_equal snd) in E;
    rewrite filterM_isDirectory_world in E; simpl in E; subst w'; [|done].
  by destruct (forEach_from _ _ _ _).
Qed.


(** On a directory it returns the manifest of the directories in it. *)
Lemma embeddedMigrations_text (outFolder : string) (w : World) :
  simple_path outFolder = true →
  fs_lookup (files w) outFolder = Some Directory →
  embeddedMigrations Date_parse outFolder w
  = (Ok (manifest_text Date_parse (migrationFolders outFolder w)), w).
Proof.
  intros Hs Hdir.
  unfold embeddedMigrations, mbind, IO_bind, readdirSync, mret, IO_ret.
  rewrite Hdir, filterM_isDirectory.
  - rewrite forEach_from_lines. reflexivity.
  - apply Forall_forall. intros it [Hname Hit]%elem_of_entries.
    by rewrite join_simple.
Qed.
End WorldFacts.

(** ** Stores *)

Lemma unit_file_is_not_manifest (outFolder tag file : string) :
  String.length file = 14 →
  outFolder +:+ "/" +:+ tag +:+ file ≠ manifest_path outFolder.
Proof.
  intros Hlen Heq. unfold manifest_path in Heq.
  apply (inj (String.app outFolder)) in Heq.
  apply (f_equal String.length) in Heq.
  change ("/" +:+ tag +:+ file) with (String "/" (tag +:+ file)) in Heq.
  simpl in Heq. rewrite string_app_length, Hlen in Heq. lia.
Qed.

Lemma unit_dir_is_not_manifest (outFolder tag : string) :
  tag ≠ "migrations.js" → outFolder +:+ "/" +:+ tag ≠ manifest_path outFolder.
Proof.
  intros Htag Heq. apply Htag. unfold manifest_path in Heq.
  apply (inj (String.app outFolder)) in Heq.
  by apply (inj (String.app "/")) in Heq.
Qed.

Lemma with_unit_lookup (fs : FS) (dir snapshot sql path : string) :
  fs_lookup (with_unit fs dir snapshot sql) path
  = if decide (path = dir +:+ "/migration.sql") then Some (File sql)
    else if decide (path = dir +:+ "/snapshot.json") then Some (File snapshot)
    else if decide (path = dir) then
           match fs_lookup fs dir with Some n => Some n | None => Some Directory end
    else fs_lookup fs path.
Proof.
  unfold with_unit. rewrite !fs_lookup_write.
  destruct (decide (path = dir +:+ "/migration.sql")) as [->|H1].
  { by rewrite decide_True. }
  rewrite decide_False by done.
  destruct (decide (path = dir +:+ "/snapshot.json")) as [->|H2].
  { by rewrite decide_True. }
  rewrite decide_False by done.
  destruct (decide (path = dir)) as [->|H3].
  - destruct (fs_lookup fs dir) eqn:E; [done|].
    by rewrite fs_lookup_write, decide_True.
  - destruct (fs_lookup fs dir) eqn:E; [done|].
    by rewrite fs_lookup_write, decide_False.
Qed.

Lemma with_unit_other (fs : FS) (dir snapshot sql path : string) :
  path ≠ dir → path ≠ dir +:+ "/snapshot.json" → path ≠ dir +:+ "/migration.sql" →
  fs_lookup (with_unit fs dir snapshot sql) path = fs_lookup fs path.
Proof.
  intros H1 H2 H3. rewrite with_unit_lookup. by rewrite !decide_False.
Qed.

Lemma with_unit_files (fs : FS) (dir snapshot sql : string) :
  fs_lookup (with_unit fs dir snapshot sql) (dir +:+ "/snapshot.json")
  = Some (File snapshot)
  ∧ fs_lookup (with_unit fs dir snapshot sql) (dir +:+ "/migration.sql")
    = Some (File sql).
Proof.
  rewrite !with_unit_lookup. split.
  - rewrite decide_False by (intros Heq%(inj (String.app dir)); done).
    by rewrite decide_True.
  - by rewrite decide_True.
Qed.

Lemma with_unit_dir (fs : FS) (dir snapshot sql : string) :
  is_file (fs_lookup fs dir) = false →
  fs_lookup (with_unit fs dir snapshot sql) dir = Some Directory.
Proof.
  intros Hfile. rewrite with_unit_lookup.
  rewrite decide_False by (intros Heq; symmetry in Heq; by apply app_ne_self in Heq).
  rewrite decide_False by (intros Heq; symmetry in Heq; by apply app_ne_self in Heq).
  rewrite decide_True by done.
  by destruct (fs_lookup fs dir) as [[|content]|].
Qed.

Lemma with_manifest_other (Date_parse : string → number) (outFolder path : string)
    (fs : FS) :
  path ≠ manifest_path outFolder →
  fs_lookup (with_manifest Date_parse outFolder fs) path = fs_lookup fs path.
Proof.
  intros Hne. unfold with_manifest. rewrite fs_lookup_write.
  by rewrite decide_False.
Qed.

Lemma with_manifest_folders (Date_parse : string → number) (outFolder : string)
    (fs : FS) (c1 c2 : list string) :
  simple_path outFolder = true →
  is_directory (fs_lookup fs (manifest_path outFolder)) = false →
  migrationFolders outFolder (mkWorld (with_manifest Date_parse outFolder fs) c1)
  = migrationFolders outFolder (mkWorld fs c2).
Proof.
  intros Hs Hnd. apply migrationFolders_ext; [done|]. intros it Hname. simpl.
  unfold with_manifest. rewrite fs_lookup_write.
  destruct (decide (manifest_path outFolder = outFolder +:+ "/" +:+ it)) as [<-|];
    [|done].
  split; [done|]. intros Hdir. by rewrite Hdir in Hnd.
Qed.

(** Regenerating the manifest leaves it in step with the directories. *)
Lemma with_manifest_sync (Date_parse : string → number) (outFolder : string) (fs : FS)
    (c : list string) :
  simple_path outFolder = true →
  is_directory (fs_lookup fs (manifest_path outFolder)) = false →
  fs_lookup (with_manifest Date_parse outFolder fs) (manifest_path outFolder)
  = Some (File (manifest_text Date_parse
                  (migrationFolders outFolder
                     (mkWorld (with_manifest Date_parse outFolder fs) c)))).
Proof.
  intros Hs Hnd. rewrite (with_manifest_folders _ _ _ c []) by done.
  unfold with_manifest. by rewrite fs_lookup_write, decide_True.
Qed.

Lemma lines_imap_lookup (f : nat → string → string) (l : list string)
    (idx : nat) (entry : string) :
  l !! idx = Some entry →
  ∃ before after, lines (imap f l) = before +:+ f idx entry +:+ after.
Proof.
  revert f idx. induction l as [|x l IH]; intros f idx Hl; [done|].
  destruct idx as [|idx]; simpl in Hl.
  - injection Hl as ->. exists "", (lines (imap (f ∘ S) l)). done.
  - destruct (IH (f ∘ S) idx Hl) as (before & after & E).
    exists (f 0 x +:+ before), after.
    cbn [imap lines foldr]. fold (lines (imap (f ∘ S) l)). rewrite E.
    simpl. by rewrite string_app_assoc.
Qed.

(** The manifest imports every directory of the folder it is written for. *)
Lemma with_manifest_lists (Date_parse : string → number) (outFolder tag : string)
    (fs : FS) :
  simple_path outFolder = true → is_name tag = true →
  fs_lookup fs (outFolder +:+ "/" +:+ tag) = Some Directory →
  ∃ idx, migrationFolders outFolder (mkWorld fs []) !! idx = Some tag
    ∧ ∃ before after,
        fs_lookup (with_manifest Date_parse outFolder fs) (manifest_path outFolder)
        = Some (File (before +:+ import_line idx tag +:+ after)).
Proof.
  intros Hs Hname Hdir.
  assert (tag ∈ migrationFolders outFolder (mkWorld fs [])) as Hin.
  { by apply elem_of_migrationFolders. }
  apply list_elem_of_lookup in Hin as [idx Hidx].
  exists idx. split; [done|].
  destruct (lines_imap_lookup import_line _ _ _ Hidx) as (before & after & E).
  exists (manifest_header +:+ before),
    (after +:+ manifest_middle
     +:+ lines (imap (journal_line Date_parse)
                  (migrationFolders outFolder (mkWorld fs [])))
     +:+ manifest_tail (migrationFolders outFolder (mkWorld fs []))).
  unfold with_manifest. rewrite fs_lookup_write, decide_True by done.
  unfold manifest_text. rewrite E. by rewrite !string_app_assoc.
Qed.

Lemma migrationFolders_console (outFolder : string) (w : World) :
  migrationFolders outFolder w = migrationFolders outFolder (mkWorld (files w) []).
Proof. done. Qed.

(** The manifest can be written wherever the migration can. *)
Lemma unit_writable_with_manifest (Date_parse : string → number)
    (fs : FS) (outFolder tag : string) :
  unit_writable fs outFolder tag true →
  unit_writable (with_manifest Date_parse outFolder fs) outFolder tag true.
Proof.
  intros (Hs & Hname & Hout & Hdir & Hsnapshot & Hsql & Hbundle).
  destruct (Hbundle eq_refl) as [Htag Hmanifest].
  unfold unit_writable.
  rewrite (with_manifest_other _ _ outFolder)
    by (intros Heq; symmetry in Heq; by apply app_ne_self in Heq).
  rewrite (with_manifest_other _ _ (outFolder +:+ "/" +:+ tag))
    by by apply unit_dir_is_not_manifest.
  rewrite (with_manifest_other _ _ (outFolder +:+ "/" +:+ tag +:+ "/snapshot.json"))
    by by apply unit_file_is_not_manifest.
  rewrite (with_manifest_other _ _ (outFolder +:+ "/" +:+ tag +:+ "/migration.sql"))
    by by apply unit_file_is_not_manifest.
  do 6 (split; [done|]). intros _. split; [done|].
  unfold with_manifest. by rewrite fs_lookup_write, decide_True.
Qed.

(** ** The writer *)

Section WriterFacts.
Variable Date_parse : string → number.
Variables CommonSchema Meta : Type.
Variable empty_meta : Meta.
Variable schema_view : CommonSchema → string.
Variable stringify_toSave : CommonSchema → Meta → string.
Variable prepareMigrationMetadata : option string → string * string.

Local Abbreviation writeResult' :=
  (writeResult Date_parse CommonSchema Meta empty_meta schema_view
     stringify_toSave prepareMigrationMetadata).
Local Abbreviation written' :=
  (written Date_parse empty_meta stringify_toSave prepareMigrationMetadata).
Local Abbreviation writeResult_write' :=
  (writeResult_write Date_parse CommonSchema Meta stringify_toSave
     prepareMigrationMetadata).

Lemma when_console_log (b : bool) (line : string) (fs : FS) (c : list string) :
  when b (console_log line) (mkWorld fs c)
  = (Ok tt, mkWorld fs (if b then c ++ [line] else c)).
Proof. by destruct b. Qed.

(** Where the migration can be written, the statements after the
    [type === 'none'] block run to their end and leave the unit. *)
Lemma writeResult_write_ok cur sqlStatements _meta outFolder breakpoints
    name (bundle : bool) type (w : World) :
  unit_writable (files w) outFolder (prepareMigrationMetadata name).2 bundle →
  ∃ c',
    writeResult_write' cur sqlStatements _meta outFolder breakpoints name bundle type w
    = (Ok tt,
       mkWorld
         (let dir := outFolder +:+ "/" +:+ (prepareMigrationMetadata name).2 in
          let fs := with_unit (files w) dir (stringify_toSave cur _meta)
                      (unit_sql type breakpoints sqlStatements) in
          if bundle then with_manifest Date_parse outFolder fs else fs) c').
Proof.
  unfold writeResult_write.
  destruct (prepareMigrationMetadata name) as [prefix tag]. simpl.
  intros (Hs & Hname & Hout & Hdir & Hsnapshot & Hsql & Hbundle).
  destruct w as [fs c]. simpl in *.
  assert ((if decide (type = custom)
           then "-- Custom SQL migration file, put you code below! --"
           else if decide (type = introspect)
                then "-- Current sql file was generated after introspecting the database" +:+ nl
                     +:+ "-- If you want to run this migration please uncomment this code before executing migrations" +:+ nl
                     +:+ "/*" +:+ nl
                     +:+ String.concat (if breakpoints then BREAKPOINT else nl) sqlStatements
                     +:+ nl +:+ "*/"
                else String.concat (if breakpoints then BREAKPOINT else nl) sqlStatements)
          = unit_sql type breakpoints sqlStatements) as ->.
  { by destruct type. }
  pose proof (simple_path_app _ _ Hs Hname) as Hsd.
  rewrite (join_simple outFolder tag) by done.
  rewrite !(join_simple (outFolder +:+ "/" +:+ tag)) by done.
  rewrite !string_app_assoc.
  change ("/" +:+ "snapshot.json") with "/snapshot.json".
  change ("/" +:+ "migration.sql") with "/migration.sql".
  set (snapshot := stringify_toSave cur _meta).
  set (sql := unit_sql type breakpoints sqlStatements).
  rewrite <- !(string_app_assoc outFolder "/" (tag +:+ _)) in *.
  rewrite <- !(string_app_assoc (outFolder +:+ "/") tag) in *.
  rewrite !(string_app_assoc outFolder "/" tag) in *.
  assert (∀ c0, mkdirSync (outFolder +:+ "/" +:+ tag) (mkWorld fs c0)
                = (Ok tt,
                   mkWorld (match fs_lookup fs (outFolder +:+ "/" +:+ tag) with
                            | Some _ => fs
                            | None => fs_write fs (outFolder +:+ "/" +:+ tag) Directory
                            end) c0)) as Hmkdir.
  { intros c0. rewrite mkdirSync_leaf by done. simpl.
    by destruct (fs_lookup fs (outFolder +:+ "/" +:+ tag)) as [[|content]|]. }
  assert (bundle = true → outFolder +:+ "/" +:+ tag ≠ manifest_path outFolder) as Hdm.
  { intros [Htag _]%Hbundle. by apply unit_dir_is_not_manifest. }
  assert (∀ file, String.length file = 14 →
                  (outFolder +:+ "/" +:+ tag) +:+ file ≠ manifest_path outFolder)
    as Hfm.
  { intros file Hlen. rewrite !string_app_assoc.
    by apply unit_file_is_not_manifest. }
  assert (outFolder ≠ outFolder +:+ "/" +:+ tag) as Hod.
  { intros Heq. symmetry in Heq. by apply app_ne_self in Heq. }
  assert (∀ rest, outFolder ≠ (outFolder +:+ "/" +:+ tag) +:+ rest) as Hor.
  { intros rest Heq. symmetry in Heq. rewrite !string_app_assoc in Heq.
    by apply app_ne_self in Heq. }
  remember (outFolder +:+ "/" +:+ tag) as dir eqn:Edir.
  set (fs1 := match fs_lookup fs dir with
              | Some _ => fs
              | None => fs_write fs dir Directory
              end) in *.
  assert (fs_lookup fs1 dir = Some Directory) as Hdir1.
  { unfold fs1. destruct (fs_lookup fs dir) as [[|content]|] eqn:E; [done|done|].
    by rewrite fs_lookup_write, decide_True. }
  assert (∀ path, path ≠ dir → fs_lookup fs1 path = fs_lookup fs path) as Hother1.
  { intros path Hne. unfold fs1. destruct (fs_lookup fs dir); [done|].
    by rewrite fs_lookup_write, decide_False. }
  assert (∀ rest, rest ≠ "" → dir +:+ rest ≠ dir) as Hne by apply app_ne_self.
  erewrite bind_ok; [|apply when_console_log].
  erewrite bind_ok; [|apply Hmkdir].
  erewrite bind_ok.
  2: { apply writeFileSync_ok; simpl.
       - by rewrite Hother1 by by apply Hne.
       - change (dir +:+ "/snapshot.json") with (dir +:+ "/" +:+ "snapshot.json").
         by apply parent_error_app. }
  simpl.
  erewrite bind_ok.
  2: { apply writeFileSync_ok; simpl.
       - rewrite fs_lookup_write, decide_False
           by (intros Heq%(inj (String.app dir)); done).
         by rewrite Hother1 by by apply Hne.
       - change (dir +:+ "/migration.sql") with (dir +:+ "/" +:+ "migration.sql").
         apply parent_error_app; [done..|].
         rewrite fs_lookup_write, decide_False; [done|]. by apply Hne. }
  simpl.
  change (fs_write (fs_write fs1 (dir +:+ "/snapshot.json") (File snapshot))
            (dir +:+ "/migration.sql") (File sql))
    with (with_unit fs dir snapshot sql).
  destruct bundle.
  - destruct (Hbundle eq_refl) as [Htag Hmanifest]. specialize (Hdm eq_refl).
    erewrite bind_ok.
    2: { unfold when. erewrite bind_ok.
         2: { apply embeddedMigrations_text; [done|]. simpl.
              by rewrite with_unit_other. }
         apply writeFileSync_ok; simpl.
         - change (outFolder +:+ "/migrations.js") with (manifest_path outFolder).
           rewrite with_unit_other; [done|by apply not_eq_sym|..];
             apply not_eq_sym; by apply Hfm.
         - change (outFolder +:+ "/migrations.js")
             with (outFolder +:+ "/" +:+ "migrations.js").
           apply parent_error_app; [done..|].
           by rewrite with_unit_other. }
    simpl. eexists. unfold console_log. simpl. reflexivity.
  - erewrite bind_ok; [|reflexivity].
    eexists. unfold console_log. simpl. reflexivity.
Qed.

(** Regenerating the manifest of a directory, as the [type === 'none']
    block does. *)
Lemma regenerate_ok (outFolder line : string) (fs : FS) (c : list string) :
  simple_path outFolder = true →
  fs_lookup fs outFolder = Some Directory →
  is_directory (fs_lookup fs (manifest_path outFolder)) = false →
  (js ← embeddedMigrations Date_parse outFolder;
   writeFileSync (outFolder +:+ "/migrations.js") js;;
   console_log line) (mkWorld fs c)
  = (Ok tt, mkWorld (with_manifest Date_parse outFolder fs) (c ++ [line])).
Proof.
  intros Hs Hout Hmanifest.
  erewrite bind_ok; [|by apply embeddedMigrations_text].
  erewrite bind_ok.
  2: { apply writeFileSync_ok; simpl; [done|].
       change (outFolder +:+ "/migrations.js")
         with (outFolder +:+ "/" +:+ "migrations.js").
       by apply parent_error_app. }
  reflexivity.
Qed.

Lemma writeResult_ok (args : WriteResultArgs CommonSchema Meta) (w : World) :
  unit_writable (files w) (arg_outFolder args)
    (prepareMigrationMetadata (arg_name args)).2 (default false (arg_bundle args)) →
  default none (arg_type args) ≠ none ∨ arg_sqlStatements args ≠ [] →
  ∃ c', writeResult' args w = (Ok tt, mkWorld (written' args (files w)) c').
Proof.
  intros Hw Hwrites. unfold writeResult, written.
  destruct (decide (default none (arg_type args) = none)) as [Hnone|Hother].
  - rewrite bool_decide_eq_true_2 by done.
    destruct w as [fs c]. simpl in Hw.
    erewrite bind_ok; [|reflexivity].
    destruct (default false (arg_bundle args)) eqn:Hbundle; simpl.
    + pose proof Hw as (Hs & Hname & Hout & Hdir & Hsnapshot & Hsql & Hb).
      destruct (Hb eq_refl) as [Htag Hmanifest].
      erewrite bind_ok.
      2: { unfold when. by apply regenerate_ok. }
      destruct (length (arg_sqlStatements args) =? 0) eqn:Hlen.
      { apply Nat.eqb_eq, nil_length_inv in Hlen. by destruct Hwrites. }
      destruct (writeResult_write_ok (arg_cur args) (arg_sqlStatements args)
                  (default empty_meta (arg_meta args)) (arg_outFolder args)
                  (arg_breakpoints args) (arg_name args) true none
                  (mkWorld (with_manifest Date_parse (arg_outFolder args) fs)
                     ((c ++ [schema_view (arg_cur args)])
                      ++ ["[✓] " +:+ arg_outFolder args +:+ "/migrations.js file updated"])))
        as [c' E].
      { by apply unit_writable_with_manifest. }
      exists c'. rewrite Hnone. exact E.
    + erewrite bind_ok; [|reflexivity].
      destruct (length (arg_sqlStatements args) =? 0) eqn:Hlen.
      { apply Nat.eqb_eq, nil_length_inv in Hlen. by destruct Hwrites. }
      rewrite Hnone.
      apply (writeResult_write_ok _ _ _ _ _ _ false none (mkWorld fs _)). exact Hw.
  - rewrite bool_decide_eq_false_2 by done. simpl.
    by apply writeResult_write_ok.
Qed.

(** *** What the writer keeps *)

Lemma keeps_files_console_log (J : FS → Prop) (line : string) :
  keeps (λ w, J (files w)) (console_log line).
Proof. by intros w. Qed.

Lemma keeps_files_writeFileSync (J : FS → Prop) (path content : string) :
  (∀ fs, J fs → J (fs_write fs path (File content))) →
  keeps (λ w, J (files w)) (writeFileSync path content).
Proof.
  intros HJ w Hw.
  destruct (writeFileSync_files path content w) as [-> | ->]; [done|by apply HJ].
Qed.

Lemma keeps_embeddedMigrations (I : World → Prop) (outFolder : string) :
  keeps I (embeddedMigrations Date_parse outFolder).
Proof. intros w Hw. by rewrite embeddedMigrations_reads. Qed.

Lemma keeps_files_mkdirSync_leaf (J : FS → Prop) (dir name : string) :
  is_name name = true →
  (∀ fs, J fs → fs_lookup fs dir = Some Directory) →
  (∀ fs, J fs → J (fs_write fs (dir +:+ "/" +:+ name) Directory)) →
  keeps (λ w, J (files w)) (mkdirSync (dir +:+ "/" +:+ name)).
Proof.
  intros Hname Hdir HJ w Hw. rewrite mkdirSync_leaf by auto.
  destruct (fs_lookup (files w) (dir +:+ "/" +:+ name)) as [[|content]|]; simpl;
    auto.
Qed.


(** In a directory, [writeResult] keeps what the writes of the directory
    and the two files of the migration keep and, with [bundle], the write
    of the manifest. *)
Lemma writeResult_keeps (J : FS → Prop) (args : WriteResultArgs CommonSchema Meta) :
  let outFolder := arg_outFolder args in
  let dir := outFolder +:+ "/" +:+ (prepareMigrationMetadata (arg_name args)).2 in
  simple_path outFolder = true →
  is_name (prepareMigrationMetadata (arg_name args)).2 = true →
  (∀ fs, J fs → fs_lookup fs outFolder = Some Directory) →
  (∀ fs, J fs → J (fs_write fs dir Directory)) →
  (∀ fs content, J fs → J (fs_write fs (dir +:+ "/snapshot.json") (File content))) →
  (∀ fs content, J fs → J (fs_write fs (dir +:+ "/migration.sql") (File content))) →
  (default false (arg_bundle args) = true →
   ∀ fs content, J fs → J (fs_write fs (manifest_path outFolder) (File content))) →
  keeps (λ w, J (files w)) (writeResult' args).
Proof.
  intros outFolder dir Hs Hname Hout Hdir Hsnapshot Hsql Hmanifest.
  assert (keeps (λ w, J (files w))
            (writeResult_write' (arg_cur args) (arg_sqlStatements args)
               (default empty_meta (arg_meta args)) (arg_outFolder args)
               (arg_breakpoints args) (arg_name args)
               (default false (arg_bundle args)) (default none (arg_type args))))
    as Hwrite.
  { unfold writeResult_write. subst dir outFolder.
    destruct (prepareMigrationMetadata (arg_name args)) as [prefix tag].
    simpl in *.
    pose proof (simple_path_app _ _ Hs Hname) as Hsd.
    rewrite (join_simple (arg_outFolder args) tag) by done.
    rewrite !(join_simple (arg_outFolder args +:+ "/" +:+ tag)) by done.
    apply keeps_bind; [apply keeps_when, keeps_files_console_log|]. intros _.
    apply keeps_bind; [by apply keeps_files_mkdirSync_leaf|]. intros _.
    apply keeps_bind; [apply keeps_files_writeFileSync; intros fs; apply Hsnapshot|].
    intros _.
    apply keeps_bind; [apply keeps_files_writeFileSync; intros fs; apply Hsql|].
    intros _.
    apply keeps_bind; [|intros _; apply keeps_files_console_log].
    destruct (default false (arg_bundle args)); [|apply keeps_ret]. simpl.
    apply keeps_bind; [apply keeps_embeddedMigrations|]. intros js.
    apply keeps_files_writeFileSync. intros fs. by apply Hmanifest. }
  unfold writeResult.
  destruct (decide (default none (arg_type args) = none)) as [Hnone|Hother];
    [|exact Hwrite].
  apply keeps_bind; [apply keeps_files_console_log|]. intros _.
  apply keeps_bind.
  - destruct (default false (arg_bundle args)); [|apply keeps_ret]. simpl.
    apply keeps_bind; [apply keeps_embeddedMigrations|]. intros js.
    apply keeps_bind; [|intros _; apply keeps_files_console_log].
    apply keeps_files_writeFileSync. intros fs. by apply Hmanifest.
  - intros _. destruct (length (arg_sqlStatements args) =? 0);
      [apply keeps_files_console_log|exact Hwrite].
Qed.


(** The unit in the store [writeResult] leaves. *)
Lemma written_unit (args : WriteResultArgs CommonSchema Meta) (fs : FS) :
  let outFolder := arg_outFolder args in
  let tag := (prepareMigrationMetadata (arg_name args)).2 in
  let dir := outFolder +:+ "/" +:+ tag in
  unit_writable fs outFolder tag (default false (arg_bundle args)) →
  fs_lookup (written' args fs) dir = Some Directory
  ∧ fs_lookup (written' args fs) (dir +:+ "/snapshot.json")
    = Some (File (stringify_toSave (arg_cur args) (default empty_meta (arg_meta args))))
  ∧ fs_lookup (written' args fs) (dir +:+ "/migration.sql")
    = Some (File (unit_sql (default none (arg_type args)) (arg_breakpoints args)
                    (arg_sqlStatements args))).
Proof.
  intros outFolder tag dir (Hs & Hname & Hout & Hdir & Hsnapshot & Hsql & Hb).
  subst dir. unfold written. fold outFolder tag.
  set (fs0 := if bool_decide (default none (arg_type args) = none)
                 && default false (arg_bundle args)
              then with_manifest Date_parse outFolder fs else fs).
  assert (is_file (fs_lookup fs0 (outFolder +:+ "/" +:+ tag)) = false) as Hdir0.
  { unfold fs0. destruct (_ && _) eqn:E; [|done].
    apply andb_true_iff in E as [_ E]. destruct (Hb E) as [Htag _].
    by rewrite with_manifest_other by by apply unit_dir_is_not_manifest. }
  assert (∀ fs' path,
            path = outFolder +:+ "/" +:+ tag
            ∨ path = (outFolder +:+ "/" +:+ tag) +:+ "/snapshot.json"
            ∨ path = (outFolder +:+ "/" +:+ tag) +:+ "/migration.sql" →
            fs_lookup (if default false (arg_bundle args)
                       then with_manifest Date_parse outFolder fs' else fs') path
            = fs_lookup fs' path) as Hman.
  { intros fs' path Hpath. destruct (default false (arg_bundle args)) eqn:E; [|done].
    destruct (Hb eq_refl) as [Htag _]. apply with_manifest_other.
    destruct Hpath as [->|[->| ->]].
    - by apply unit_dir_is_not_manifest.
    - rewrite !string_app_assoc. by apply unit_file_is_not_manifest.
    - rewrite !string_app_assoc. by apply unit_file_is_not_manifest. }
  rewrite !Hman by auto.
  split; [by apply with_unit_dir|]. apply with_unit_files.
Qed.

Lemma unit_writable_without_bundle (fs : FS) (outFolder tag : string) (bundle : bool) :
  unit_writable fs outFolder tag bundle → unit_writable fs outFolder tag false.
Proof.
  intros (Hs & Hname & Hout & Hdir & Hsnapshot & Hsql & _).
  by repeat (split; [done|]).
Qed.

(** The paths of the unit, as the code builds them. *)
Lemma unit_paths (outFolder tag : string) :
  simple_path outFolder = true → is_name tag = true →
  join outFolder tag = outFolder +:+ "/" +:+ tag
  ∧ join (join outFolder tag) "snapshot.json"
    = (outFolder +:+ "/" +:+ tag) +:+ "/snapshot.json"
  ∧ join (join outFolder tag) "migration.sql"
    = (outFolder +:+ "/" +:+ tag) +:+ "/migration.sql".
Proof.
  intros Hs Hname. pose proof (simple_path_app _ _ Hs Hname) as Hsd.
  rewrite (join_simple outFolder tag) by done.
  by rewrite !(join_simple (outFolder +:+ "/" +:+ tag)) by done.
Qed.


(** In a store without [outFolder], a name, [mkdirSync] makes it on the way
    to the directory of the migration. *)
Lemma mkdirSync_fresh (outFolder tag : string) (fs : FS) (c : list string) :
  is_name outFolder = true → is_name tag = true →
  fs_lookup fs outFolder = None →
  fs_lookup fs (outFolder +:+ "/" +:+ tag) = None →
  mkdirSync (outFolder +:+ "/" +:+ tag) (mkWorld fs c)
  = mkdirSync (outFolder +:+ "/" +:+ tag)
      (mkWorld (fs_write fs outFolder Directory) c).
Proof.
  intros Hout Htag Hnone Hdir.
  assert (outFolder ≠ outFolder +:+ "/" +:+ tag) as Hne.
  { intros Heq. symmetry in Heq. by apply app_ne_self in Heq. }
  rewrite (mkdirSync_leaf outFolder tag (mkWorld (fs_write fs outFolder Directory) c))
    by (simpl; by rewrite ?fs_lookup_write, ?decide_True).
  simpl. rewrite fs_lookup_write, decide_False, Hdir by done.
  unfold mkdirSync.
  rewrite split_app, (split_name outFolder), (split_name tag) by done.
  cbn [rev app mkdir_p files console].
  change (String.concat "/" [outFolder; tag]) with (outFolder +:+ "/" +:+ tag).
  change (String.concat "/" [outFolder]) with outFolder.
  rewrite decide_False by (destruct outFolder; [done|]; by destruct tag).
  rewrite Hdir.
  rewrite decide_False by by apply is_name_ne.
  by rewrite Hnone.
Qed.

Lemma writeResult_write_fresh cur sqlStatements _meta outFolder breakpoints
    name (bundle : bool) type (fs : FS) (c : list string) :
  is_name outFolder = true →
  is_name (prepareMigrationMetadata name).2 = true →
  fs_lookup fs outFolder = None →
  fs_lookup fs (outFolder +:+ "/" +:+ (prepareMigrationMetadata name).2) = None →
  writeResult_write' cur sqlStatements _meta outFolder breakpoints name bundle type
    (mkWorld fs c)
  = writeResult_write' cur sqlStatements _meta outFolder breakpoints name bundle type
      (mkWorld (fs_write fs outFolder Directory) c).
Proof.
  unfold writeResult_write.
  destruct (prepareMigrationMetadata name) as [prefix tag]. simpl.
  intros Hout Htag Hnone Hdir.
  pose proof (simple_path_name _ Hout) as Hs.
  rewrite (join_simple outFolder tag) by done.
  erewrite !(bind_ok (when _ _)) by apply when_console_log.
  unfold mbind at 1 3. unfold IO_bind at 1 3.
  by rewrite mkdirSync_fresh.
Qed.

Lemma writeResult_fresh (args : WriteResultArgs CommonSchema Meta)
    (fs : FS) (c : list string) :
  let outFolder := arg_outFolder args in
  let tag := (prepareMigrationMetadata (arg_name args)).2 in
  is_name outFolder = true → is_name tag = true →
  fs_lookup fs outFolder = None →
  fs_lookup fs (outFolder +:+ "/" +:+ tag) = None →
  default none (arg_type args) ≠ none
  ∨ (default false (arg_bundle args) = false ∧ arg_sqlStatements args ≠ []) →
  writeResult' args (mkWorld fs c)
  = writeResult' args (mkWorld (fs_write fs outFolder Directory) c).
Proof.
  intros outFolder tag Hout Htag Hnone Hdir Hcase. unfold writeResult.
  destruct (decide (default none (arg_type args) = none)) as [Htype|Htype].
  - destruct Hcase as [?|[Hbundle Hstmts]]; [done|]. rewrite Hbundle.
    erewrite !(bind_ok (console_log _)) by reflexivity.
    erewrite !(bind_ok (when false _)) by reflexivity.
    destruct (length (arg_sqlStatements args) =? 0) eqn:Hlen.
    { by apply Nat.eqb_eq, nil_length_inv in Hlen. }
    by apply writeResult_write_fresh.
  - by apply writeResult_write_fresh.
Qed.

Lemma written_folder (args : WriteResultArgs CommonSchema Meta) (fs : FS) :
  let outFolder := arg_outFolder args in
  let tag := (prepareMigrationMetadata (arg_name args)).2 in
  unit_writable fs outFolder tag (default false (arg_bundle args)) →
  fs_lookup (written' args fs) outFolder = Some Directory.
Proof.
  intros outFolder tag (Hs & Hname & Hout & _). unfold written. fold outFolder tag.
  assert (∀ rest, rest ≠ "" → outFolder ≠ outFolder +:+ rest) as Hne.
  { intros rest Hrest Heq. symmetry in Heq. by apply app_ne_self in Heq. }
  assert (∀ fs', fs_lookup (with_manifest Date_parse outFolder fs') outFolder
                 = fs_lookup fs' outFolder) as Hman.
  { intros fs'. apply with_manifest_other. by apply Hne. }
  assert (∀ fs' snapshot sql,
            fs_lookup (with_unit fs' (outFolder +:+ "/" +:+ tag) snapshot sql) outFolder
            = fs_lookup fs' outFolder) as Hunit.
  { intros fs' snapshot sql. apply with_unit_other.
    - by apply Hne.
    - rewrite string_app_assoc. by apply Hne.
    - rewrite string_app_assoc. by apply Hne. }
  destruct (default false (arg_bundle args)), (bool_decide _); simpl;
    by rewrite ?Hman, ?Hunit, ?Hman.
Qed.

End WriterFacts.



(** ** The journal *)




(** ** Abort *)

Section AbortFacts.
Context {T : Type} `{EqDecision T} `{NamedWithSchema T}.

(** A resolver that is awaited at a prompt exits the process on an abort;
    a differ that awaits it never goes on. *)
Lemma await_abort {R A : Type} (resume : Locals R T → Rendered T → Config R T)
    (c : Config R T)
    (k : R → list (Rendered T) → Outcome T A * list (Rendered T))
    (pre post : list (Rendered T)) (v : View T) (left : list (Rendered T)) :
  (∀ s, resume s aborted = Exited 1) →
  (∀ r rest, k r rest = (Prompting v, left) →
             k r (rest ++ aborted :: post) = (ProcessExit 1, post)) →
  await (run resume c pre) k = (Prompting v, left) →
  await (run resume c (pre ++ aborted :: post)) k = (ProcessExit 1, post).
Proof.
  intros Hab Hk Hpre. rewrite run_app.
  destruct (run resume c pre) as [c' rest] eqn:E.
  destruct c' as [v0 s|r| |]; simpl in *; try done.
  - pose proof (run_awaiting _ _ _ _ _ _ E) as ->. simpl.
    rewrite Hab. by rewrite run_settled.
  - rewrite run_settled by done. simpl. by apply Hk.
Qed.

Lemma run_differ_abort {A : Type} (d : Differ T A)
    (pre post : list (Rendered T)) (v : View T) (left : list (Rendered T)) :
  run_differ d pre = (Prompting v, left) →
  run_differ d (pre ++ aborted :: post) = (ProcessExit 1, post).
Proof.
  revert pre.
  induction d as [a|input k IH|input k IH|input k IH|input k IH|input k IH];
    intros pre; simpl; [done|..];
    apply await_abort; try done; intros r rest; apply IH.
Qed.
End AbortFacts.

Section CommandFacts.
Variable Date_parse : string → number.
Variables CommonSchema Meta : Type.
Variable empty_meta : Meta.
Variable schema_view : CommonSchema → string.
Variable stringify_toSave : CommonSchema → Meta → string.
Variable prepareMigrationMetadata : option string → string * string.
Context {T : Type} `{EqDecision T} `{NamedWithSchema T}.

Lemma then_write_abort (diff : Differ T (list string * Meta))
    (write : list string → Meta → IO unit)
    (pre post : list (Rendered T)) (v : View T) (left : list (Rendered T))
    (w w' : World) :
  then_write Meta (run_differ diff pre) write w = (Prompting v, left, w') →
  then_write Meta (run_differ diff (pre ++ aborted :: post)) write w
  = (ProcessExit 1, post, w).
Proof.
  destruct (run_differ diff pre) as [o rest] eqn:E.
  destruct o as [[sqlStatements _meta]|v0| | |e]; simpl; try done.
  { unfold caught. by destruct (write sqlStatements _meta w).1. }
  intros _.
  by rewrite (run_differ_abort diff pre post v0 rest E).
Qed.

(** C9.  An abort at a prompt makes the resolver exit the process with
    status 1.  In a [generate] command that was suspended at a prompt, the
    abort ends the whole command with that status: the answers after it are
    never asked for, and the store and the console are as they were before
    the command, so no migration is written. *)
Theorem abort_exits_the_command :
  (∀ (tableName : string) (entity : EntityKind) (newSet : list T)
     (s : Locals (Output.t T) T) (sm : Locals (WithMoved.t T) T),
     promptColumnsConflicts_resume tableName newSet s aborted = Exited 1
     ∧ promptSchemasConflict_resume newSet s aborted = Exited 1
     ∧ promptNamedWithSchemasConflict_resume newSet entity sm aborted = Exited 1)
  ∧ (∀ (config : GenerateConfig) (cur custom_ : CommonSchema)
       (diff : Differ T (list string * Meta))
       (pre post : list (Rendered T)) (v : View T) (left : list (Rendered T))
       (w w' : World),
       (prepareAndMigratePg Date_parse CommonSchema Meta empty_meta schema_view
          stringify_toSave prepareMigrationMetadata config cur custom_ diff pre w
        = (Prompting v, left, w') →
        prepareAndMigratePg Date_parse CommonSchema Meta empty_meta schema_view
          stringify_toSave prepareMigrationMetadata config cur custom_ diff
          (pre ++ aborted :: post) w
        = (ProcessExit 1, post, w))
       ∧ (prepareAndMigrateMysql Date_parse CommonSchema Meta empty_meta schema_view
            stringify_toSave prepareMigrationMetadata config cur custom_ diff pre w
          = (Prompting v, left, w') →
          prepareAndMigrateMysql Date_parse CommonSchema Meta empty_meta schema_view
            stringify_toSave prepareMigrationMetadata config cur custom_ diff
            (pre ++ aborted :: post) w
          = (ProcessExit 1, post, w))
       ∧ (prepareAndMigrateSqlite Date_parse CommonSchema Meta empty_meta schema_view
            stringify_toSave prepareMigrationMetadata config cur custom_ diff pre w
          = (Prompting v, left, w') →
          prepareAndMigrateSqlite Date_parse CommonSchema Meta empty_meta schema_view
            stringify_toSave prepareMigrationMetadata config cur custom_ diff
            (pre ++ aborted :: post) w
          = (ProcessExit 1, post, w))).
Proof.
  split; [done|].
  intros config cur custom_ diff pre post v left w w'.
  unfold prepareAndMigratePg, prepareAndMigrateMysql, prepareAndMigrateSqlite.
  destruct (config_custom config).
  - cbv zeta. unfold caught.
    split; [|split]; intros Heq;
      by destruct (writeResult _ _ _ _ _ _ _ _ _).1.
  - split; [|split]; apply then_write_abort.
Qed.
End CommandFacts.

Lemma abort_exits_the_command_witness :
  let X := mkObj 1 "users" "" in
  let A := mkObj 2 "members" "" in
  let cX := mkObj 3 "email" "" in
  let cA := mkObj 4 "mail" "" in
  let diff : Differ Obj (list string * unit) :=
    AwaitTablesResolver (ResolverInput.mk [A] [X])
      (λ _, AwaitColumnsResolver (ColumnsResolverInput.mk "members" "" [cA] [cX])
              (λ _, Diffed (["ALTER TABLE users RENAME TO members;"], tt))) in
  let config := mkConfig "drizzle" None true false None in
  let w := mkWorld [("drizzle", Directory)] [] in
  let pre := [submitted (Rename (mkRename X A))] in
  let post := [submitted (Plain A)] in
  prepareAndMigratePg (λ _, NaN) unit unit tt (λ _, "schema") (λ _ _, "{}")
    (λ _, ("20240101120000", "20240101120000_first")) config tt tt diff pre w
  = (Prompting (ResolveColumnSelect "members" cA
                  [Plain cA; Rename (mkRename cX cA)]), [], w)
  ∧ prepareAndMigratePg (λ _, NaN) unit unit tt (λ _, "schema") (λ _ _, "{}")
      (λ _, ("20240101120000", "20240101120000_first")) config tt tt diff
      (pre ++ aborted :: post) w
    = (ProcessExit 1, post, w).
Proof.
  intros X A cX cA diff config w pre post.
  split; [reflexivity|].
  refine (proj1 (proj2 (abort_exits_the_command (λ _, NaN) unit unit tt
                          (λ _, "schema") (λ _ _, "{}")
                          (λ _, ("20240101120000", "20240101120000_first")))
                   config tt tt diff pre post _ [] w w) _).
  reflexivity.
Defined.

(** * More of the resolvers *)

Section LoopMore.
Context {R T : Type} `{EqDecision T}.
Variable newItems : list T.
Variable view : T → list (PromptItem T) → View T.
Variable record : R → T → PromptItem T → R.
Variable finish : R → list T → R.
Hypothesis view_data : ∀ c d, promptData (view c d) = d.

Local Abbreviation render := (loop_render newItems view).
Local Abbreviation resume := (loop_resume newItems view record finish).

(** What a loop that returned went through. *)
Lemma loop_returned answers i left res r rest :
  run resume (render i left res) answers = (Returned r, rest) →
  ∃ asked,
    answers = asked ++ rest
    ∧ i + length asked = length newItems
    ∧ (aborted ∉ asked)
    ∧ r = finish (recorded newItems record res i asked) (pool_after left asked).
Proof.
  revert i left res.
  induction answers as [|a answers IH]; intros i left res.
  - rewrite run_nil. unfold loop_render. by destruct (newItems !! i).
  - unfold loop_render. destruct (newItems !! i) as [c|] eqn:Hc; [|done].
    simpl. destruct a as [|data]; simpl.
    + by rewrite run_settled.
    + destruct (decide (i + 1 < length newItems)) as [Hlt|Hge].
      * intros Hrun. apply IH in Hrun as (asked & -> & Hlen & Hab & ->).
        exists (submitted data :: asked). simpl. rewrite Hc.
        replace (S i) with (i + 1) by lia.
        split; [done|]. split; [lia|]. split; [|done].
        apply not_elem_of_cons. done.
      * rewrite run_settled by done. intros [= <- <-].
        exists [submitted data]. simpl. rewrite Hc.
        apply lookup_lt_Some in Hc.
        split; [done|]. split; [lia|]. split; [|done].
        apply not_elem_of_cons. split; [done|apply not_elem_of_nil].
Qed.

(** What a loop that is at a prompt went through. *)
Lemma loop_awaiting answers i left res v s rest :
  run resume (render i left res) answers = (Awaiting v s, rest) →
  rest = []
  ∧ (aborted ∉ answers)
  ∧ index s = i + length answers
  ∧ newItems !! index s = Some (created s)
  ∧ leftMissing s = pool_after left answers
  ∧ result s = recorded newItems record res i answers
  ∧ v = view (created s) (options (created s) (leftMissing s)).
Proof.
  revert i left res.
  induction answers as [|a answers IH]; intros i left res.
  - rewrite run_nil. unfold loop_render.
    destruct (newItems !! i) as [c|] eqn:Hc; [|done].
    intros [= <- <- <-]. simpl. rewrite Nat.add_0_r.
    repeat split; try done. apply not_elem_of_nil.
  - unfold loop_render. destruct (newItems !! i) as [c|] eqn:Hc; [|done].
    simpl. destruct a as [|data]; simpl.
    + by rewrite run_settled.
    + destruct (decide (i + 1 < length newItems)) as [Hlt|Hge];
        [|by rewrite run_settled].
      intros Hrun. apply IH in Hrun as (-> & Hab & Hi & Hl & Hp & Hr & ->).
      rewrite Hc. replace (S i) with (i + 1) by lia.
      repeat split; try done; [|lia].
      apply not_elem_of_cons. done.
Qed.

(** Offered answers split [newItems] and the pool. *)
Lemma loop_offered_partition asked rest i left res :
  i < length newItems →
  length asked = length newItems - i →
  answers_offered resume (render i left res) (asked ++ rest) →
  created_of newItems i asked ++ (to <$> rename_answers asked) ≡ₚ drop i newItems
  ∧ pool_after left asked ++ (from <$> rename_answers asked) ≡ₚ left.
Proof.
  revert i left res.
  induction asked as [|a asked IH]; intros i left res Hlt Hlen Hoff.
  - simpl in Hlen. lia.
  - destruct (lookup_lt_is_Some_2 newItems i Hlt) as [c Hc].
    unfold loop_render in Hoff. rewrite Hc in Hoff. simpl in Hoff.
    destruct Hoff as [Ha Hoff]. simpl in Hlen.
    rewrite (drop_S _ _ _ Hc).
    assert (created_of newItems (S i) asked ++ (to <$> rename_answers asked)
              ≡ₚ drop (S i) newItems
            ∧ pool_after (consume left a) asked ++ (from <$> rename_answers asked)
              ≡ₚ consume left a) as [IH1 IH2].
    { unfold loop_resume in Hoff.
      apply (offered_options view view_data) in Ha as [->|(x & Hx & ->)];
        simpl in Hoff;
        (destruct (decide (i + 1 < length newItems)) as [Hlt'|Hge];
         [ replace (S i) with (i + 1) by lia; eapply IH; [done|lia|exact Hoff]
         | assert (asked = []) as -> by (apply nil_length_inv; lia);
           rewrite drop_ge by lia; simpl; by rewrite app_nil_r ]). }
    apply (offered_options view view_data) in Ha as [->|(x & Hx & ->)].
    + simpl. rewrite Hc. simpl. split; [by f_equiv|exact IH2].
    + simpl. rewrite Hc. simpl. split.
      * rewrite <- Permutation_middle. by f_equiv.
      * change (pool_after left (submitted (Rename (mkRename x c)) :: asked))
          with (pool_after (remove_found left x) asked).
        rewrite <- Permutation_middle. simpl in IH2. rewrite IH2.
        rewrite remove_found_first. clear -Hx.
        induction left as [|y left IHl]; [by apply elem_of_nil in Hx|].
        simpl. destruct (decide (y = x)) as [->|Hne]; [done|].
        apply elem_of_cons in Hx as [->|Hx]; [done|].
        rewrite <- (IHl Hx) at 2. apply Permutation_swap.
Qed.
End LoopMore.

Section ResolverMore.
Context {T : Type} `{EqDecision T}.

Lemma recorded_flat_eq (newItems : list T) res i asked :
  aborted ∉ asked →
  i + length asked ≤ length newItems →
  recorded newItems record_flat res i asked
  = Output.mk (Output.created res ++ created_of newItems i asked)
              (Output.renamed res ++ rename_answers asked)
              (Output.deleted res).
Proof.
  revert res i. induction asked as [|a asked IH]; intros res i Hab Hlen.
  - simpl. rewrite !app_nil_r. by destruct res.
  - apply not_elem_of_cons in Hab as [Ha Hab]. simpl in Hlen.
    destruct (lookup_lt_is_Some_2 newItems i) as [c Hc]; [lia|].
    destruct a as [|data]; [done|]. simpl. rewrite Hc.
    rewrite IH by (done || lia).
    destruct data as [it|d]; simpl; by rewrite <- app_assoc.
Qed.

Lemma recorded_moved_eq `{NamedWithSchema T} (newItems : list T) res i asked :
  aborted ∉ asked →
  i + length asked ≤ length newItems →
  recorded newItems record_moved res i asked
  = WithMoved.mk (WithMoved.created res ++ created_of newItems i asked)
      (WithMoved.renamed res ++ filter (λ d, ¬ keeps_name d) (rename_answers asked))
      (WithMoved.moved res ++ moved_of asked)
      (WithMoved.deleted res).
Proof.
  revert res i. induction asked as [|a asked IH]; intros res i Hab Hlen.
  - unfold moved_of. simpl. rewrite !app_nil_r. by destruct res.
  - apply not_elem_of_cons in Hab as [Ha Hab]. simpl in Hlen.
    destruct (lookup_lt_is_Some_2 newItems i) as [c Hc]; [lia|].
    destruct a as [|data]; [done|]. simpl. rewrite Hc.
    rewrite IH by (done || lia).
    destruct data as [it|d]; simpl; [by rewrite <- app_assoc|].
    unfold moved_of. simpl. rewrite !filter_cons. unfold keeps_name at 2.
    destruct (decide (name (from d) ≠ name (to d)));
      destruct (decide (schema (from d) ≠ schema (to d))); simpl;
      rewrite <- ?app_assoc; try done.
    all: try rewrite decide_True by done; try rewrite decide_False by done; done.
Qed.

Lemma created_of_sublist (newItems : list T) i (asked : list (Rendered T)) :
  created_of newItems i asked `sublist_of` drop i newItems.
Proof.
  revert i. induction asked as [|a asked IH]; intros i; simpl.
  - apply sublist_nil_l.
  - destruct (newItems !! i) as [c|] eqn:Hc; [|apply sublist_nil_l].
    rewrite (drop_S _ _ _ Hc).
    destruct a as [|[it|d]]; (by apply sublist_skip) || (by apply sublist_cons).
Qed.

Lemma created_of_all_plain (newItems : list T) i (asked : list (Rendered T)) :
  Forall (λ a, ∃ it, a = submitted (Plain it)) asked →
  i + length asked = length newItems →
  created_of newItems i asked = drop i newItems
  ∧ rename_answers asked = []
  ∧ (aborted ∉ asked)
  ∧ ∀ pool : list T, pool_after pool asked = pool.
Proof.
  intros Hall. revert i. induction Hall as [|a asked [it ->] Hall IH]; intros i Hlen.
  - simpl in *. rewrite drop_ge by lia. repeat split; try done.
    apply not_elem_of_nil.
  - simpl in Hlen.
    destruct (lookup_lt_is_Some_2 newItems i) as [c Hc]; [lia|].
    destruct (IH (S i)) as (E1 & E2 & E3 & E4); [lia|].
    simpl. rewrite Hc, E1, (drop_S _ _ _ Hc).
    repeat split; try done.
    apply not_elem_of_cons. done.
Qed.
End ResolverMore.

Section Returned.
Context {T : Type} `{EqDecision T}.

Lemma fast_test_true {A B} (l1 : list A) (l2 : list B) :
  (length l1 =? 0) || (length l2 =? 0) = true → l1 = [] ∨ l2 = [].
Proof.
  intros [E|E]%orb_true_iff; apply Nat.eqb_eq, nil_length_inv in E; auto.
Qed.

Lemma fast_test_false {A B} (l1 : list A) (l2 : list B) :
  (length l1 =? 0) || (length l2 =? 0) = false →
  l1 ≠ [] ∧ l2 ≠ [] ∧ 0 < length l1 ∧ 0 < length l2.
Proof.
  intros [E1%Nat.eqb_neq E2%Nat.eqb_neq]%orb_false_iff.
  destruct l1, l2; simpl in *; repeat split; (done || lia).
Qed.

(** The runs of [promptColumnsConflicts] that return. *)
Lemma promptColumnsConflicts_returned tableName (newSet missingSet : list T)
    answers r rest :
  run (promptColumnsConflicts_resume tableName newSet)
    (promptColumnsConflicts tableName newSet missingSet) answers = (Returned r, rest) →
  (rest = answers ∧ r = Output.mk newSet [] missingSet
   ∧ (newSet = [] ∨ missingSet = []))
  ∨ (newSet ≠ [] ∧ missingSet ≠ []
     ∧ ∃ asked, answers = asked ++ rest ∧ length asked = length newSet
                ∧ (aborted ∉ asked)
                ∧ r = Output.mk (created_of newSet 0 asked) (rename_answers asked)
                                (pool_after missingSet asked)).
Proof.
  unfold promptColumnsConflicts.
  destruct ((length newSet =? 0) || (length missingSet =? 0)) eqn:Hfast.
  - rewrite run_settled by done. intros [= <- <-]. left.
    apply fast_test_true in Hfast. done.
  - apply fast_test_false in Hfast as (? & ? & ? & ?).
    rewrite (run_ext _ _ _ _ (promptColumnsConflicts_loop tableName newSet)).
    intros (asked & -> & Hlen & Hab & ->)%loop_returned. right.
    split; [done|]. split; [done|]. exists asked.
    rewrite recorded_flat_eq by (done || lia). done.
Qed.

(** The runs of [promptSchemasConflict] that return. *)
Lemma promptSchemasConflict_returned (newSet missingSet : list T) answers r rest :
  run (promptSchemasConflict_resume newSet)
    (promptSchemasConflict newSet missingSet) answers = (Returned r, rest) →
  (rest = answers ∧ r = Output.mk newSet [] missingSet
   ∧ (newSet = [] ∨ missingSet = []))
  ∨ (newSet ≠ [] ∧ missingSet ≠ []
     ∧ ∃ asked, answers = asked ++ rest ∧ length asked = length newSet
                ∧ (aborted ∉ asked)
                ∧ r = Output.mk (created_of newSet 0 asked) (rename_answers asked)
                                (pool_after missingSet asked)).
Proof.
  unfold promptSchemasConflict.
  destruct ((length missingSet =? 0) || (length newSet =? 0)) eqn:Hfast.
  - rewrite run_settled by done. intros [= <- <-]. left.
    apply fast_test_true in Hfast. tauto.
  - apply fast_test_false in Hfast as (? & ? & ? & ?).
    rewrite (run_ext _ _ _ _ (promptSchemasConflict_loop newSet)).
    intros (asked & -> & Hlen & Hab & ->)%loop_returned. right.
    split; [done|]. split; [done|]. exists asked.
    rewrite recorded_flat_eq by (done || lia). done.
Qed.

(** The runs of [promptNamedWithSchemasConflict] that return. *)
Lemma promptNamedWithSchemasConflict_returned `{NamedWithSchema T} entity
    (newSet missingSet : list T) answers r rest :
  run (promptNamedWithSchemasConflict_resume newSet entity)
    (promptNamedWithSchemasConflict newSet missingSet entity) answers
  = (Returned r, rest) →
  (rest = answers ∧ r = WithMoved.mk newSet [] [] missingSet
   ∧ (newSet = [] ∨ missingSet = []))
  ∨ (newSet ≠ [] ∧ missingSet ≠ []
     ∧ ∃ asked, answers = asked ++ rest ∧ length asked = length newSet
                ∧ (aborted ∉ asked)
                ∧ r = WithMoved.mk (created_of newSet 0 asked)
                        (filter (λ d, ¬ keeps_name d) (rename_answers asked))
                        (moved_of asked)
                        (pool_after missingSet asked)).
Proof.
  unfold promptNamedWithSchemasConflict.
  destruct ((length missingSet =? 0) || (length newSet =? 0)) eqn:Hfast.
  - rewrite run_settled by done. intros [= <- <-]. left.
    apply fast_test_true in Hfast. tauto.
  - apply fast_test_false in Hfast as (? & ? & ? & ?).
    rewrite (run_ext _ _ _ _ (promptNamedWithSchemasConflict_loop newSet entity)).
    intros Hrun.
    apply (loop_returned newSet (λ c d, ResolveSelect c d entity)
             record_moved finish_moved) in Hrun
      as (asked & -> & Hlen & Hab & ->). right.
    split; [done|]. split; [done|]. exists asked.
    rewrite recorded_moved_eq by (done || lia). done.
Qed.
End Returned.

(** ** Partition, order and prompts *)

(** X1.  With an answer taken from the options at every prompt, the flat
    resolvers split both inputs: [created] together with the [to] of the
    renamed pairs is a rearrangement of [newSet], and [deleted] together with
    the [from] of the renamed pairs is a rearrangement of [missingSet].  For
    [promptNamedWithSchemasConflict] the same holds with the pairs of all
    rename answers, of which [renamed] keeps those that change the name. *)
Theorem offered_answers_partition {T : Type} `{EqDecision T} `{NamedWithSchema T}
    (tableName : string) (entity : EntityKind) (newSet missingSet : list T)
    (answers : list (Rendered T)) :
  length newSet ≤ length answers →
  (answers_offered (promptColumnsConflicts_resume tableName newSet)
     (promptColumnsConflicts tableName newSet missingSet) answers →
   ∃ r rest,
     run (promptColumnsConflicts_resume tableName newSet)
       (promptColumnsConflicts tableName newSet missingSet) answers
     = (Returned r, rest)
     ∧ Output.created r ++ (to <$> Output.renamed r) ≡ₚ newSet
     ∧ Output.deleted r ++ (from <$> Output.renamed r) ≡ₚ missingSet)
  ∧ (answers_offered (promptSchemasConflict_resume newSet)
       (promptSchemasConflict newSet missingSet) answers →
     ∃ r rest,
       run (promptSchemasConflict_resume newSet)
         (promptSchemasConflict newSet missingSet) answers
       = (Returned r, rest)
       ∧ Output.created r ++ (to <$> Output.renamed r) ≡ₚ newSet
       ∧ Output.deleted r ++ (from <$> Output.renamed r) ≡ₚ missingSet)
  ∧ (answers_offered (promptNamedWithSchemasConflict_resume newSet entity)
       (promptNamedWithSchemasConflict newSet missingSet entity) answers →
     ∃ r asked rest,
       answers = asked ++ rest
       ∧ run (promptNamedWithSchemasConflict_resume newSet entity)
           (promptNamedWithSchemasConflict newSet missingSet entity) answers
         = (Returned r, rest)
       ∧ WithMoved.created r ++ (to <$> rename_answers asked) ≡ₚ newSet
       ∧ WithMoved.deleted r ++ (from <$> rename_answers asked) ≡ₚ missingSet
       ∧ WithMoved.renamed r = filter (λ d, ¬ keeps_name d) (rename_answers asked)).
Proof.
  intros Hlen. split; [|split].
  - unfold promptColumnsConflicts.
    destruct ((length newSet =? 0) || (length missingSet =? 0)) eqn:Hfast.
    + intros _. rewrite run_settled by done. eexists _, _. split; [done|].
      simpl. by rewrite !app_nil_r.
    + apply fast_test_false in Hfast as (_ & _ & Hpos & _). intros Hoff.
      rewrite (answers_offered_ext _ _ _ _ (promptColumnsConflicts_loop tableName newSet))
        in Hoff.
      rewrite (run_ext _ _ _ _ (promptColumnsConflicts_loop tableName newSet)).
      pose proof Hoff as Hoff'.
      apply (loop_offered_run newSet _ _ _ (view_data_columns tableName)) in Hoff
        as (asked & rest & -> & Hl & Hab & _ & Hrun); [|lia..].
      apply (loop_offered_partition newSet _ _ _ (view_data_columns tableName))
        in Hoff' as [P1 P2]; [|lia..].
      eexists _, _. split; [exact Hrun|].
      rewrite recorded_flat_eq by (done || lia). simpl. done.
  - unfold promptSchemasConflict.
    destruct ((length missingSet =? 0) || (length newSet =? 0)) eqn:Hfast.
    + intros _. rewrite run_settled by done. eexists _, _. split; [done|].
      simpl. by rewrite !app_nil_r.
    + apply fast_test_false in Hfast as (_ & _ & _ & Hpos). intros Hoff.
      rewrite (answers_offered_ext _ _ _ _ (promptSchemasConflict_loop newSet)) in Hoff.
      rewrite (run_ext _ _ _ _ (promptSchemasConflict_loop newSet)).
      pose proof Hoff as Hoff'.
      apply (loop_offered_run newSet _ _ _ view_data_schemas) in Hoff
        as (asked & rest & -> & Hl & Hab & _ & Hrun); [|lia..].
      apply (loop_offered_partition newSet _ _ _ view_data_schemas)
        in Hoff' as [P1 P2]; [|lia..].
      eexists _, _. split; [exact Hrun|].
      rewrite recorded_flat_eq by (done || lia). simpl. done.
  - unfold promptNamedWithSchemasConflict.
    destruct ((length missingSet =? 0) || (length newSet =? 0)) eqn:Hfast.
    + intros _. rewrite run_settled by done.
      exists (WithMoved.mk newSet [] [] missingSet), [], answers.
      simpl. by rewrite !app_nil_r.
    + apply fast_test_false in Hfast as (_ & _ & _ & Hpos). intros Hoff.
      rewrite (answers_offered_ext _ _ _ _
                 (promptNamedWithSchemasConflict_loop newSet entity)) in Hoff.
      rewrite (run_ext _ _ _ _ (promptNamedWithSchemasConflict_loop newSet entity)).
      pose proof Hoff as Hoff'.
      apply (loop_offered_run newSet _ _ _ (view_data_select entity)) in Hoff
        as (asked & rest & -> & Hl & Hab & _ & Hrun); [|lia..].
      apply (loop_offered_partition newSet _ _ _ (view_data_select entity))
        in Hoff' as [P1 P2]; [|lia..].
      exists (finish_moved
                (recorded newSet record_moved (WithMoved.mk [] [] [] []) 0 asked)
                (pool_after missingSet asked)), asked, rest.
      split; [done|]. split; [exact Hrun|].
      rewrite recorded_moved_eq by (done || lia). simpl. done.
Qed.

Lemma offered_answers_partition_witness :
  let X := mkObj 1 "id" "" in
  let Y := mkObj 2 "mail" "" in
  let A := mkObj 3 "email" "" in
  let B := mkObj 4 "age" "" in
  let answers := [submitted (Rename (mkRename Y A)); submitted (Plain B)] in
  ∃ r rest,
    run (promptColumnsConflicts_resume "users" [A; B])
      (promptColumnsConflicts "users" [A; B] [X; Y]) answers
    = (Returned r, rest)
    ∧ Output.created r ++ (to <$> Output.renamed r) ≡ₚ [A; B]
    ∧ Output.deleted r ++ (from <$> Output.renamed r) ≡ₚ [X; Y].
Proof.
  intros X Y A B answers.
  apply (offered_answers_partition "users" table [A; B] [X; Y] answers).
  - simpl. lia.
  - simpl. unfold offered. simpl. repeat constructor.
Defined.

(** X2.  Whatever the answers, a resolver that returns keeps the order of
    its inputs: [created] is a subsequence of [newSet] and [deleted] is a
    subsequence of [missingSet]. *)
Theorem outputs_keep_input_order {T : Type} `{EqDecision T} `{NamedWithSchema T}
    (tableName : string) (entity : EntityKind) (newSet missingSet : list T)
    (answers rest : list (Rendered T)) :
  (∀ r, run (promptColumnsConflicts_resume tableName newSet)
          (promptColumnsConflicts tableName newSet missingSet) answers
        = (Returned r, rest) →
        Output.created r `sublist_of` newSet
        ∧ Output.deleted r `sublist_of` missingSet)
  ∧ (∀ r, run (promptSchemasConflict_resume newSet)
            (promptSchemasConflict newSet missingSet) answers
          = (Returned r, rest) →
          Output.created r `sublist_of` newSet
          ∧ Output.deleted r `sublist_of` missingSet)
  ∧ (∀ r, run (promptNamedWithSchemasConflict_resume newSet entity)
            (promptNamedWithSchemasConflict newSet missingSet entity) answers
          = (Returned r, rest) →
          WithMoved.created r `sublist_of` newSet
          ∧ WithMoved.deleted r `sublist_of` missingSet).
Proof.
  split; [|split]; intros r Hrun.
  - apply promptColumnsConflicts_returned in Hrun
      as [(_ & -> & _)|(_ & _ & asked & _ & _ & _ & ->)]; simpl; [done|].
    split; [apply (created_of_sublist newSet 0) | apply pool_after_sublist].
  - apply promptSchemasConflict_returned in Hrun
      as [(_ & -> & _)|(_ & _ & asked & _ & _ & _ & ->)]; simpl; [done|].
    split; [apply (created_of_sublist newSet 0) | apply pool_after_sublist].
  - apply promptNamedWithSchemasConflict_returned in Hrun
      as [(_ & -> & _)|(_ & _ & asked & _ & _ & _ & ->)]; simpl; [done|].
    split; [apply (created_of_sublist newSet 0) | apply pool_after_sublist].
Qed.

(** X3.  When every answer is "create", whatever item the answer carries,
    each resolver returns what its fast path returns: all of [newSet] is
    created, all of [missingSet] is deleted, nothing is renamed or moved. *)
Theorem declining_every_rename {T : Type} `{EqDecision T} `{NamedWithSchema T}
    (tableName : string) (entity : EntityKind) (newSet missingSet : list T)
    (asked rest : list (Rendered T)) :
  Forall (λ a, ∃ it, a = submitted (Plain it)) asked →
  length asked = length newSet →
  (∃ rest', run (promptColumnsConflicts_resume tableName newSet)
              (promptColumnsConflicts tableName newSet missingSet) (asked ++ rest)
            = (Returned (Output.mk newSet [] missingSet), rest'))
  ∧ (∃ rest', run (promptSchemasConflict_resume newSet)
                (promptSchemasConflict newSet missingSet) (asked ++ rest)
              = (Returned (Output.mk newSet [] missingSet), rest'))
  ∧ (∃ rest', run (promptNamedWithSchemasConflict_resume newSet entity)
                (promptNamedWithSchemasConflict newSet missingSet entity)
                (asked ++ rest)
              = (Returned (WithMoved.mk newSet [] [] missingSet), rest')).
Proof.
  intros Hall Hlen.
  destruct (created_of_all_plain newSet 0 asked Hall) as (E1 & E2 & E3 & E4); [lia|].
  unfold promptColumnsConflicts, promptSchemasConflict, promptNamedWithSchemasConflict.
  split; [|split].
  - destruct ((length newSet =? 0) || (length missingSet =? 0)) eqn:Hfast;
      [rewrite run_settled by done; eauto|].
    apply fast_test_false in Hfast as (_ & _ & Hpos & _).
    rewrite (run_ext _ _ _ _ (promptColumnsConflicts_loop tableName newSet)).
    exists rest.
    etrans; [apply (loop_run newSet (ResolveColumnSelect tableName) record_flat finish_flat); (done || lia)|].
    rewrite recorded_flat_eq by (done || lia). rewrite E1, E2, E4. done.
  - destruct ((length missingSet =? 0) || (length newSet =? 0)) eqn:Hfast;
      [rewrite run_settled by done; eauto|].
    apply fast_test_false in Hfast as (_ & _ & _ & Hpos).
    rewrite (run_ext _ _ _ _ (promptSchemasConflict_loop newSet)).
    exists rest.
    etrans; [apply (loop_run newSet ResolveSchemasSelect record_flat finish_flat); (done || lia)|].
    rewrite recorded_flat_eq by (done || lia). rewrite E1, E2, E4. done.
  - destruct ((length missingSet =? 0) || (length newSet =? 0)) eqn:Hfast;
      [rewrite run_settled by done; eauto|].
    apply fast_test_false in Hfast as (_ & _ & _ & Hpos).
    rewrite (run_ext _ _ _ _ (promptNamedWithSchemasConflict_loop newSet entity)).
    exists rest.
    etrans; [apply (loop_run newSet (λ c d, ResolveSelect c d entity)
                      record_moved finish_moved); (done || lia)|].
    rewrite recorded_moved_eq by (done || lia).
    unfold moved_of. rewrite E1, E2, E4. done.
Qed.

Lemma declining_every_rename_witness :
  let X := mkObj 1 "users" "" in
  let A := mkObj 2 "members" "" in
  let B := mkObj 3 "teams" "" in
  ∃ rest', run (promptNamedWithSchemasConflict_resume [A; B] table)
             (promptNamedWithSchemasConflict [A; B] [X] table)
             ([submitted (Plain A); submitted (Plain X)] ++ [])
           = (Returned (WithMoved.mk [A; B] [] [] [X]), rest').
Proof.
  intros X A B.
  refine (proj2 (proj2 (declining_every_rename "users" table [A; B] [X]
                          [submitted (Plain A); submitted (Plain X)] [] _ _))).
  - repeat constructor; eexists; reflexivity.
  - reflexivity.
Defined.

Lemma js_or_public_nonempty (s : string) : js_or s "public" ≠ "".
Proof. unfold js_or. destruct s; done. Qed.

(** X4.  Whatever the answers, the record [promptNamedWithSchemasConflict]
    returns is well formed: the two names of every renamed pair differ, the
    two schemas of every moved entry are non-empty (an empty schema is
    written as "public"), and there are at most as many renamed pairs, and
    at most as many moved entries, as elements of [newItems] that were not
    created. *)
Theorem moved_and_renamed_are_well_formed {T : Type} `{EqDecision T}
    `{NamedWithSchema T} (entity : EntityKind) (newItems missingItems : list T)
    (answers rest : list (Rendered T)) (r : WithMoved.t T) :
  run (promptNamedWithSchemasConflict_resume newItems entity)
    (promptNamedWithSchemasConflict newItems missingItems entity) answers
  = (Returned r, rest) →
  (∀ d, d ∈ WithMoved.renamed r → name (from d) ≠ name (to d))
  ∧ (∀ m, m ∈ WithMoved.moved r → schemaFrom m ≠ "" ∧ schemaTo m ≠ "")
  ∧ length (WithMoved.created r) + length (WithMoved.renamed r) ≤ length newItems
  ∧ length (WithMoved.created r) + length (WithMoved.moved r) ≤ length newItems.
Proof.
  intros Hrun.
  apply promptNamedWithSchemasConflict_returned in Hrun
    as [(_ & -> & _)|(_ & _ & asked & _ & Hlen & Hab & ->)]; simpl.
  - split; [intros d Hin; by apply elem_of_nil in Hin|].
    split; [intros m Hin; by apply elem_of_nil in Hin|]. lia.
  - destruct (recorded_moved newItems (WithMoved.mk [] [] [] []) 0 asked Hab)
      as (Hc & _ & _); [lia|].
    rewrite recorded_moved_eq in Hc by (done || lia). simpl in Hc.
    split; [|split; [|split]].
    + intros d [Hd _]%list_elem_of_filter. exact Hd.
    + intros m Hm. unfold moved_of in Hm.
      apply list_elem_of_fmap in Hm as (d & -> & _). simpl.
      split; apply js_or_public_nonempty.
    + pose proof (length_filter (λ d, ¬ keeps_name d) (rename_answers asked)). lia.
    + unfold moved_of. rewrite length_fmap.
      pose proof (length_filter (λ d, schema (from d) ≠ schema (to d))
                    (rename_answers asked)). lia.
Qed.

Lemma moved_and_renamed_are_well_formed_witness :
  let X := mkObj 1 "users" "" in
  let A := mkObj 2 "members" "app" in
  let r := WithMoved.mk [] [mkRename X A] [mkMoved "users" "public" "app"] [] in
  (∀ d, d ∈ WithMoved.renamed r → name (from d) ≠ name (to d))
  ∧ (∀ m, m ∈ WithMoved.moved r → schemaFrom m ≠ "" ∧ schemaTo m ≠ "")
  ∧ length (WithMoved.created r) + length (WithMoved.renamed r) ≤ length [A]
  ∧ length (WithMoved.created r) + length (WithMoved.moved r) ≤ length [A].
Proof.
  intros X A r.
  apply (moved_and_renamed_are_well_formed table [A] [X]
           [submitted (Rename (mkRename X A))] [] r).
  reflexivity.
Defined.

(** X5.  A resolver that returns has asked one prompt per element of
    [newSet] on the general path and none on the fast path, whatever the
    answers were. *)
Theorem one_prompt_per_new_entity {T : Type} `{EqDecision T} `{NamedWithSchema T}
    (tableName : string) (entity : EntityKind) (newSet missingSet : list T)
    (answers rest : list (Rendered T)) :
  let prompts :=
    if bool_decide (newSet = [] ∨ missingSet = []) then 0 else length newSet in
  (∀ r, run (promptColumnsConflicts_resume tableName newSet)
          (promptColumnsConflicts tableName newSet missingSet) answers
        = (Returned r, rest) →
        length answers = prompts + length rest)
  ∧ (∀ r, run (promptSchemasConflict_resume newSet)
            (promptSchemasConflict newSet missingSet) answers
          = (Returned r, rest) →
          length answers = prompts + length rest)
  ∧ (∀ r, run (promptNamedWithSchemasConflict_resume newSet entity)
            (promptNamedWithSchemasConflict newSet missingSet entity) answers
          = (Returned r, rest) →
          length answers = prompts + length rest).
Proof.
  intros prompts. subst prompts.
  split; [|split]; intros r Hrun.
  - apply promptColumnsConflicts_returned in Hrun
      as [(-> & _ & Hfast)|(Hn & Hm & asked & -> & Hlen & _ & _)].
    + by rewrite bool_decide_eq_true_2.
    + rewrite bool_decide_eq_false_2 by tauto. rewrite length_app. lia.
  - apply promptSchemasConflict_returned in Hrun
      as [(-> & _ & Hfast)|(Hn & Hm & asked & -> & Hlen & _ & _)].
    + by rewrite bool_decide_eq_true_2.
    + rewrite bool_decide_eq_false_2 by tauto. rewrite length_app. lia.
  - apply promptNamedWithSchemasConflict_returned in Hrun
      as [(-> & _ & Hfast)|(Hn & Hm & asked & -> & Hlen & _ & _)].
    + by rewrite bool_decide_eq_true_2.
    + rewrite bool_decide_eq_false_2 by tauto. rewrite length_app. lia.
Qed.

(** The options of a prompt, one by one. *)
Lemma options_fmap {T : Type} (created : T) (pool : list T) :
  options created pool
  = Plain created :: ((λ m, Rename (mkRename m created)) <$> pool).
Proof. unfold options. by rewrite <- list_fmap_compose. Qed.

(** X6.  Let [missingSet] hold no entity twice.  The prompt a resolver
    shows after [k] answers is about the [k]-th element of [newSet]; its
    options are "create" followed by one rename option for each entity of
    the pool, in the order of the pool; and the pool holds the elements of
    [missingSet] that no rename answer so far names as [from], in the order
    of [missingSet]. *)
Theorem prompt_offers_the_pool_in_order {T : Type} `{EqDecision T}
    `{NamedWithSchema T} (tableName : string) (entity : EntityKind)
    (newSet missingSet : list T) (answers rest : list (Rendered T)) :
  NoDup missingSet →
  (∀ v s, run (promptColumnsConflicts_resume tableName newSet)
            (promptColumnsConflicts tableName newSet missingSet) answers
          = (Awaiting v s, rest) →
          newSet !! length answers = Some (created s)
          ∧ v = ResolveColumnSelect tableName (created s)
                  (Plain (created s)
                   :: ((λ m, Rename (mkRename m (created s))) <$> leftMissing s))
          ∧ leftMissing s = filter (λ m, m ∉ rename_sources answers) missingSet)
  ∧ (∀ v s, run (promptSchemasConflict_resume newSet)
              (promptSchemasConflict newSet missingSet) answers
            = (Awaiting v s, rest) →
            newSet !! length answers = Some (created s)
            ∧ v = ResolveSchemasSelect (created s)
                    (Plain (created s)
                     :: ((λ m, Rename (mkRename m (created s))) <$> leftMissing s))
            ∧ leftMissing s = filter (λ m, m ∉ rename_sources answers) missingSet)
  ∧ (∀ v s, run (promptNamedWithSchemasConflict_resume newSet entity)
              (promptNamedWithSchemasConflict newSet missingSet entity) answers
            = (Awaiting v s, rest) →
            newSet !! length answers = Some (created s)
            ∧ v = ResolveSelect (created s)
                    (Plain (created s)
                     :: ((λ m, Rename (mkRename m (created s))) <$> leftMissing s))
                    entity
            ∧ leftMissing s = filter (λ m, m ∉ rename_sources answers) missingSet).
Proof.
  intros Hnd.
  unfold promptColumnsConflicts, promptSchemasConflict, promptNamedWithSchemasConflict.
  split; [|split]; intros v s.
  - destruct ((length newSet =? 0) || (length missingSet =? 0));
      [by rewrite run_settled|].
    rewrite (run_ext _ _ _ _ (promptColumnsConflicts_loop tableName newSet)).
    intros Hrun.
    apply (loop_awaiting newSet (ResolveColumnSelect tableName)
             record_flat finish_flat) in Hrun
      as (_ & _ & Hi & Hc & Hp & _ & ->).
    simpl in Hi. rewrite <- Hi, options_fmap, Hp.
    repeat split; try done. by apply pool_after_filter.
  - destruct ((length missingSet =? 0) || (length newSet =? 0));
      [by rewrite run_settled|].
    rewrite (run_ext _ _ _ _ (promptSchemasConflict_loop newSet)).
    intros Hrun.
    apply (loop_awaiting newSet ResolveSchemasSelect record_flat finish_flat)
      in Hrun as (_ & _ & Hi & Hc & Hp & _ & ->).
    simpl in Hi. rewrite <- Hi, options_fmap, Hp.
    repeat split; try done. by apply pool_after_filter.
  - destruct ((length missingSet =? 0) || (length newSet =? 0));
      [by rewrite run_settled|].
    rewrite (run_ext _ _ _ _ (promptNamedWithSchemasConflict_loop newSet entity)).
    intros Hrun.
    apply (loop_awaiting newSet (λ c d, ResolveSelect c d entity)
             record_moved finish_moved) in Hrun
      as (_ & _ & Hi & Hc & Hp & _ & ->).
    simpl in Hi. rewrite <- Hi, options_fmap, Hp.
    repeat split; try done. by apply pool_after_filter.
Qed.

Lemma prompt_offers_the_pool_in_order_witness :
  let X := mkObj 1 "users" "app" in
  let Y := mkObj 2 "posts" "app" in
  let Z := mkObj 3 "tags" "app" in
  let A := mkObj 4 "members" "app" in
  let B := mkObj 5 "articles" "app" in
  let v := ResolveSelect B [Plain B; Rename (mkRename X B); Rename (mkRename Z B)]
             table in
  let s := mkLocals 1 [X; Z] (WithMoved.mk [] [mkRename Y A] [] []) B in
  let answers := [submitted (Rename (mkRename Y A))] in
  run (promptNamedWithSchemasConflict_resume [A; B] table)
    (promptNamedWithSchemasConflict [A; B] [X; Y; Z] table) answers
  = (Awaiting v s, [])
  ∧ [A; B] !! length answers = Some (created s)
  ∧ v = ResolveSelect (created s)
          (Plain (created s)
           :: ((λ m, Rename (mkRename m (created s))) <$> leftMissing s)) table
  ∧ leftMissing s = filter (λ m, m ∉ rename_sources answers) [X; Y; Z].
Proof.
  intros X Y Z A B v s answers.
  assert (NoDup [X; Y; Z]) as Hnd by distinct_list.
  split; [reflexivity|].
  exact (proj2 (proj2 (prompt_offers_the_pool_in_order "users" table
                         [A; B] [X; Y; Z] answers [] Hnd)) v s eq_refl).
Defined.

(** * More of the writer *)

Section WriterExtras.
Variable Date_parse : string → number.
Variables CommonSchema Meta : Type.
Variable empty_meta : Meta.
Variable schema_view : CommonSchema → string.
Variable stringify_toSave : CommonSchema → Meta → string.
Variable prepareMigrationMetadata : option string → string * string.

Local Abbreviation writeResult' :=
  (writeResult Date_parse CommonSchema Meta empty_meta schema_view
     stringify_toSave prepareMigrationMetadata).
Local Abbreviation written' :=
  (written Date_parse empty_meta stringify_toSave prepareMigrationMetadata).
Local Abbreviation writeResult_ok' :=
  (writeResult_ok Date_parse CommonSchema Meta empty_meta schema_view
     stringify_toSave prepareMigrationMetadata).
Local Abbreviation writeResult_fresh' :=
  (writeResult_fresh Date_parse CommonSchema Meta empty_meta schema_view
     stringify_toSave prepareMigrationMetadata).
Local Abbreviation writeResult_keeps' :=
  (writeResult_keeps Date_parse CommonSchema Meta empty_meta schema_view
     stringify_toSave prepareMigrationMetadata).

(** X7.  Where the migration can be written, and [writeResult] has one to
    write ([type] is not 'none' or there is a statement), the call returns
    and the store holds, under the tag of [prepareMigrationMetadata]:
    [snapshot.json] with the serialised [cur] and [_meta], and
    [migration.sql] with the placeholder line for 'custom' (whatever the
    statements), with the statements joined by the breakpoint or a newline
    for 'none', and with the same inside [/* */] under two comment lines for
    'introspect'. *)
Theorem written_unit_holds_snapshot_and_statements
    (args : WriteResultArgs CommonSchema Meta) (w : World) :
  let outFolder := arg_outFolder args in
  let tag := (prepareMigrationMetadata (arg_name args)).2 in
  let dir := join outFolder tag in
  let r := writeResult' args w in
  unit_writable (files w) outFolder tag (default false (arg_bundle args)) →
  default none (arg_type args) ≠ none ∨ arg_sqlStatements args ≠ [] →
  r.1 = Ok tt
  ∧ fs_lookup (files r.2) dir = Some Directory
  ∧ fs_lookup (files r.2) (join dir "snapshot.json")
    = Some (File (stringify_toSave (arg_cur args) (default empty_meta (arg_meta args))))
  ∧ fs_lookup (files r.2) (join dir "migration.sql")
    = Some (File (unit_sql (default none (arg_type args)) (arg_breakpoints args)
                    (arg_sqlStatements args))).
Proof.
  intros outFolder tag dir r Hw Hwrites. subst r dir.
  destruct (writeResult_ok' args w Hw Hwrites) as [c' ->]. simpl.
  split; [done|].
  pose proof Hw as (Hs & Hname & _).
  destruct (unit_paths outFolder tag Hs Hname) as (-> & -> & ->).
  by apply written_unit.
Qed.

(** X8.  In a directory [outFolder], [writeResult] changes nothing but the
    directory of the new migration, its two files and, with [bundle] set,
    the manifest: every other path holds afterwards what it held before,
    whether the call returns or throws. *)
Theorem writeResult_touches_only_its_unit
    (args : WriteResultArgs CommonSchema Meta) (w : World) (path : string) :
  let outFolder := arg_outFolder args in
  let tag := (prepareMigrationMetadata (arg_name args)).2 in
  let dir := join outFolder tag in
  simple_path outFolder = true → is_name tag = true →
  fs_lookup (files w) outFolder = Some Directory →
  path ≠ dir → path ≠ join dir "snapshot.json" → path ≠ join dir "migration.sql" →
  default false (arg_bundle args) = false ∨ path ≠ manifest_path outFolder →
  fs_lookup (files (writeResult' args w).2) path = fs_lookup (files w) path.
Proof.
  intros outFolder tag dir Hs Hname Hout. subst dir.
  pose proof (simple_path_app _ _ Hs Hname) as Hsd.
  rewrite (join_simple outFolder tag) by done.
  rewrite !(join_simple (outFolder +:+ "/" +:+ tag)) by done.
  change ("/" +:+ "snapshot.json") with "/snapshot.json".
  change ("/" +:+ "migration.sql") with "/migration.sql".
  intros Hdir Hsnapshot Hsql Hmanifest.
  assert (∀ rest, rest ≠ "" → outFolder +:+ rest ≠ outFolder) as Hne
    by apply app_ne_self.
  apply (writeResult_keeps'
           (λ fs, fs_lookup fs outFolder = Some Directory
                  ∧ fs_lookup fs path = fs_lookup (files w) path));
    try done; fold outFolder tag.
  - by intros fs [? _].
  - intros fs [Ho Hp]. rewrite !fs_lookup_write.
    rewrite decide_False by by apply Hne. by rewrite decide_False.
  - intros fs content [Ho Hp]. rewrite !fs_lookup_write.
    rewrite decide_False by (rewrite !string_app_assoc; by apply Hne).
    by rewrite decide_False.
  - intros fs content [Ho Hp]. rewrite !fs_lookup_write.
    rewrite decide_False by (rewrite !string_app_assoc; by apply Hne).
    by rewrite decide_False.
  - intros Hb fs content [Ho Hp]. destruct Hmanifest as [Hm|Hm]; [congruence|].
    rewrite !fs_lookup_write.
    rewrite decide_False by by apply Hne. by rewrite decide_False.
Qed.

(** X9.  Where the migration can be written and [bundle] is set,
    [writeResult] returns and leaves the manifest in step with the store it
    leaves: [migrations.js] holds the manifest of the directories that
    stand in [outFolder] afterwards. *)
Theorem bundle_manifest_matches_the_folders
    (args : WriteResultArgs CommonSchema Meta) (w : World) :
  let outFolder := arg_outFolder args in
  let r := writeResult' args w in
  unit_writable (files w) outFolder (prepareMigrationMetadata (arg_name args)).2 true →
  default false (arg_bundle args) = true →
  r.1 = Ok tt
  ∧ fs_lookup (files r.2) (manifest_path outFolder)
    = Some (File (manifest_text Date_parse (migrationFolders outFolder r.2))).
Proof.
  intros outFolder r Hw Hbundle. subst r.
  pose proof Hw as (Hs & Hname & Hout & Hdir & Hsnapshot & Hsql & Hb).
  destruct (Hb eq_refl) as [Htag Hmanifest].
  destruct (decide (default none (arg_type args) = none
                    ∧ arg_sqlStatements args = [])) as [[Htype Hnone]|Hwrites].
  - unfold writeResult. rewrite Htype, Hnone, Hbundle. simpl.
    destruct w as [fs c]. erewrite bind_ok; [|reflexivity]. simpl in *.
    erewrite bind_ok; [|by apply regenerate_ok]. simpl.
    split; [done|]. by apply with_manifest_sync.
  - destruct (writeResult_ok' args w) as [c' ->].
    + by rewrite Hbundle.
    + destruct (decide (default none (arg_type args) = none)); [|by left].
      right. intros Hnone. by apply Hwrites.
    + simpl. split; [done|]. unfold written. rewrite Hbundle. fold outFolder.
      apply with_manifest_sync; [done|].
      rewrite with_unit_other.
      * destruct (_ && _); [|done]. unfold with_manifest.
        by rewrite fs_lookup_write, decide_True.
      * apply not_eq_sym. by apply unit_dir_is_not_manifest.
      * apply not_eq_sym. rewrite !string_app_assoc.
        by apply unit_file_is_not_manifest.
      * apply not_eq_sym. rewrite !string_app_assoc.
        by apply unit_file_is_not_manifest.
Qed.

(** X10.  Where the migration can be written, with [bundle] set and a
    migration to write, the manifest [writeResult] leaves imports that
    migration: the tag stands at some position [idx] of the directories of
    [outFolder], and [migrations.js] holds the line
    [import m<idx> from './<tag>/migration.sql';]. *)
Theorem bundle_manifest_imports_the_new_migration
    (args : WriteResultArgs CommonSchema Meta) (w : World) :
  let outFolder := arg_outFolder args in
  let tag := (prepareMigrationMetadata (arg_name args)).2 in
  let r := writeResult' args w in
  unit_writable (files w) outFolder tag true →
  default false (arg_bundle args) = true →
  default none (arg_type args) ≠ none ∨ arg_sqlStatements args ≠ [] →
  r.1 = Ok tt
  ∧ ∃ idx before after,
      migrationFolders outFolder r.2 !! idx = Some tag
      ∧ fs_lookup (files r.2) (manifest_path outFolder)
        = Some (File (before +:+ import_line idx tag +:+ after)).
Proof.
  intros outFolder tag r Hw Hbundle Hwrites. subst r.
  pose proof Hw as (Hs & Hname & Hout & Hdir & Hsnapshot & Hsql & Hb).
  destruct (Hb eq_refl) as [Htag Hmanifest].
  destruct (writeResult_ok' args w) as [c' ->]; [by rewrite Hbundle|done|].
  simpl. split; [done|]. unfold written. rewrite Hbundle. fold outFolder tag.
  set (fs0 := if bool_decide (default none (arg_type args) = none) && true
              then with_manifest Date_parse outFolder (files w) else files w).
  set (fs1 := with_unit fs0 (outFolder +:+ "/" +:+ tag) _ _).
  assert (is_file (fs_lookup fs0 (outFolder +:+ "/" +:+ tag)) = false) as Hdir0.
  { unfold fs0. destruct (_ && _); [|done].
    by rewrite with_manifest_other by by apply unit_dir_is_not_manifest. }
  assert (is_directory (fs_lookup fs1 (manifest_path outFolder)) = false) as Hm1.
  { unfold fs1. rewrite with_unit_other.
    - unfold fs0. destruct (_ && _); [|done]. unfold with_manifest.
      by rewrite fs_lookup_write, decide_True.
    - apply not_eq_sym. by apply unit_dir_is_not_manifest.
    - apply not_eq_sym. rewrite !string_app_assoc.
      by apply unit_file_is_not_manifest.
    - apply not_eq_sym. rewrite !string_app_assoc.
      by apply unit_file_is_not_manifest. }
  destruct (with_manifest_lists Date_parse outFolder tag fs1 Hs Hname)
    as (idx & Hidx & before & after & E).
  { by apply with_unit_dir. }
  exists idx, before, after. split; [|done].
  by rewrite (with_manifest_folders _ _ _ c' []).
Qed.

(** X19.  [mkdirSync] is called with [recursive]: in a store that lacks
    [outFolder], a single name, a call that reaches it makes [outFolder]
    and the directory of the migration in it, and goes on as in a store
    that has [outFolder].  A call reaches it when [type] is not 'none', or
    when there are statements and [bundle] is unset. *)
Theorem missing_folder_is_created
    (args : WriteResultArgs CommonSchema Meta) (w : World) :
  let outFolder := arg_outFolder args in
  let tag := (prepareMigrationMetadata (arg_name args)).2 in
  let dir := join outFolder tag in
  let r := writeResult' args w in
  is_name outFolder = true →
  fs_lookup (files w) outFolder = None →
  fs_lookup (files w) dir = None →
  unit_writable (fs_write (files w) outFolder Directory) outFolder tag
    (default false (arg_bundle args)) →
  default none (arg_type args) ≠ none
  ∨ (default false (arg_bundle args) = false ∧ arg_sqlStatements args ≠ []) →
  r.1 = Ok tt
  ∧ fs_lookup (files r.2) outFolder = Some Directory
  ∧ fs_lookup (files r.2) dir = Some Directory
  ∧ fs_lookup (files r.2) (join dir "snapshot.json")
    = Some (File (stringify_toSave (arg_cur args) (default empty_meta (arg_meta args))))
  ∧ fs_lookup (files r.2) (join dir "migration.sql")
    = Some (File (unit_sql (default none (arg_type args)) (arg_breakpoints args)
                    (arg_sqlStatements args))).
Proof.
  intros outFolder tag dir r Hout Hnone Hdir Hw Hcase. subst r dir.
  pose proof Hw as (Hs & Hname & _).
  destruct (unit_paths outFolder tag Hs Hname) as (E & -> & ->).
  rewrite E in *.
  destruct w as [fs c]. simpl in *.
  rewrite writeResult_fresh' by done.
  destruct (writeResult_ok' args (mkWorld (fs_write fs outFolder Directory) c))
    as [c' Hr]; [done|tauto|].
  unfold outFolder, tag in *. rewrite Hr.
  simpl. split; [done|]. split; [by apply written_folder|].
  by apply written_unit.
Qed.
End WriterExtras.

Lemma written_unit_holds_snapshot_and_statements_witness :
  let args := mkArgs tt ["CREATE TABLE a;"; "CREATE TABLE b;"] None "drizzle" true
                None (Some true) None in
  let w := mkWorld [("drizzle", Directory)] [] in
  let dir := join "drizzle" "20240101120500_second" in
  let r := writeResult (λ _, NaN) unit unit tt (λ _, "schema") (λ _ _, "{}")
             (λ _, ("20240101120500", "20240101120500_second")) args w in
  r.1 = Ok tt
  ∧ fs_lookup (files r.2) dir = Some Directory
  ∧ fs_lookup (files r.2) (join dir "snapshot.json") = Some (File "{}")
  ∧ fs_lookup (files r.2) (join dir "migration.sql")
    = Some (File ("CREATE TABLE a;" +:+ BREAKPOINT +:+ "CREATE TABLE b;")).
Proof.
  intros args w dir r.
  apply (written_unit_holds_snapshot_and_statements (λ _, NaN) unit unit tt
           (λ _, "schema") (λ _ _, "{}")
           (λ _, ("20240101120500", "20240101120500_second")) args w).
  - do 6 (split; [reflexivity|]). intros _. split; [done|reflexivity].
  - right. done.
Defined.

Lemma writeResult_touches_only_its_unit_witness :
  let args := mkArgs tt ["CREATE TABLE a;"] None "drizzle" true None None None in
  let w := mkWorld [("drizzle", Directory); ("drizzle/migrations.js", File "old")] [] in
  fs_lookup (files (writeResult (λ _, NaN) unit unit tt (λ _, "schema") (λ _ _, "{}")
                      (λ _, ("20240101120500", "20240101120500_second")) args w).2)
    "drizzle/migrations.js"
  = Some (File "old").
Proof.
  intros args w.
  apply (writeResult_touches_only_its_unit (λ _, NaN) unit unit tt
           (λ _, "schema") (λ _ _, "{}")
           (λ _, ("20240101120500", "20240101120500_second")) args w
           "drizzle/migrations.js"); [reflexivity|reflexivity|reflexivity|done|done|done|by left].
Defined.

Lemma bundle_manifest_matches_the_folders_witness :
  let args := mkArgs tt ["CREATE TABLE a;"] None "drizzle" true None (Some true) None in
  let w := mkWorld [("drizzle", Directory); ("drizzle/20250101000000_later", Directory)]
             [] in
  let r := writeResult (λ _, NaN) unit unit tt (λ _, "schema") (λ _ _, "{}")
             (λ _, ("20240101120500", "20240101120500_second")) args w in
  migrationFolders "drizzle" r.2 = ["20240101120500_second"; "20250101000000_later"]
  ∧ r.1 = Ok tt
  ∧ fs_lookup (files r.2) (manifest_path "drizzle")
    = Some (File (manifest_text (λ _, NaN) (migrationFolders "drizzle" r.2))).
Proof.
  intros args w r. split; [by vm_compute|].
  apply (bundle_manifest_matches_the_folders (λ _, NaN) unit unit tt
           (λ _, "schema") (λ _ _, "{}")
           (λ _, ("20240101120500", "20240101120500_second")) args w).
  - do 6 (split; [reflexivity|]). intros _. split; [done|reflexivity].
  - reflexivity.
Defined.

Lemma bundle_manifest_imports_the_new_migration_witness :
  let args := mkArgs tt ["CREATE TABLE a;"] None "drizzle" true None (Some true) None in
  let w := mkWorld [("drizzle", Directory); ("drizzle/20250101000000_later", Directory)]
             [] in
  let r := writeResult (λ _, NaN) unit unit tt (λ _, "schema") (λ _ _, "{}")
             (λ _, ("20240101120500", "20240101120500_second")) args w in
  r.1 = Ok tt
  ∧ ∃ idx before after,
      migrationFolders "drizzle" r.2 !! idx = Some "20240101120500_second"
      ∧ fs_lookup (files r.2) (manifest_path "drizzle")
        = Some (File (before +:+ import_line idx "20240101120500_second" +:+ after)).
Proof.
  intros args w r.
  apply (bundle_manifest_imports_the_new_migration (λ _, NaN) unit unit tt
           (λ _, "schema") (λ _ _, "{}")
           (λ _, ("20240101120500", "20240101120500_second")) args w).
  - do 6 (split; [reflexivity|]). intros _. split; [done|reflexivity].
  - reflexivity.
  - right. done.
Defined.


Lemma missing_folder_is_created_witness :
  let args := mkArgs tt ["CREATE TABLE a;"] None "drizzle" true None None None in
  let w := mkWorld [] [] in
  let r := writeResult (λ _, NaN) unit unit tt (λ _, "schema") (λ _ _, "{}")
             (λ _, ("20240101120500", "20240101120500_second")) args w in
  r.1 = Ok tt
  ∧ fs_lookup (files r.2) "drizzle" = Some Directory
  ∧ fs_lookup (files r.2) (join "drizzle" "20240101120500_second") = Some Directory
  ∧ fs_lookup (files r.2)
      (join (join "drizzle" "20240101120500_second") "snapshot.json")
    = Some (File "{}")
  ∧ fs_lookup (files r.2)
      (join (join "drizzle" "20240101120500_second") "migration.sql")
    = Some (File "CREATE TABLE a;").
Proof.
  intros args w r.
  apply (missing_folder_is_created (λ _, NaN) unit unit tt
           (λ _, "schema") (λ _ _, "{}")
           (λ _, ("20240101120500", "20240101120500_second")) args w).
  - reflexivity.
  - reflexivity.
  - reflexivity.
  - do 6 (split; [reflexivity|]). intros [=].
  - right. split; [reflexivity|done].
Defined.

Section CommandExtras.
Variable Date_parse : string → number.
Variables CommonSchema Meta : Type.
Variable empty_meta : Meta.
Variable schema_view : CommonSchema → string.
Variable stringify_toSave : CommonSchema → Meta → string.
Variable prepareMigrationMetadata : option string → string * string.
Context {T : Type} `{EqDecision T} `{NamedWithSchema T}.

Local Abbreviation Pg :=
  (prepareAndMigratePg Date_parse CommonSchema Meta empty_meta schema_view
     stringify_toSave prepareMigrationMetadata).
Local Abbreviation Mysql :=
  (prepareAndMigrateMysql Date_parse CommonSchema Meta empty_meta schema_view
     stringify_toSave prepareMigrationMetadata).
Local Abbreviation Sqlite :=
  (prepareAndMigrateSqlite Date_parse CommonSchema Meta empty_meta schema_view
     stringify_toSave prepareMigrationMetadata).

(** X12.  Take a [generate] command whose preparation has returned the
    snapshots and left the world [w].  When its differ runs to its end with
    statements, and the migration can be written to the store of [w], the
    command returns with the answers the differ left and writes the
    statements as a migration of type 'none'.  The snapshot of
    the PostgreSQL command holds the default [_meta], whatever [_meta] the
    differ produced, since the command passes none to [writeResult]; the
    MySQL and SQLite commands store the differ's. *)
Theorem generated_snapshot_meta
    (config : GenerateConfig) (cur custom_ : CommonSchema)
    (diff : Differ T (list string * Meta)) (answers rest : list (Rendered T))
    (sqlStatements : list string) (_meta : Meta) (w : World) :
  let tag := (prepareMigrationMetadata (config_name config)).2 in
  let dir := join (out config) tag in
  config_custom config = false →
  run_differ diff answers = (Done (sqlStatements, _meta), rest) →
  sqlStatements ≠ [] →
  unit_writable (files w) (out config) tag (default false (config_bundle config)) →
  Forall (λ '(command, stored),
            let r : Outcome T unit * list (Rendered T) * World :=
              command config cur custom_ diff answers w in
            r.1 = (Done tt, rest)
            ∧ fs_lookup (files r.2) (join dir "snapshot.json")
              = Some (File (stringify_toSave cur stored))
            ∧ fs_lookup (files r.2) (join dir "migration.sql")
              = Some (File (String.concat (if breakpoints config then BREAKPOINT else nl)
                              sqlStatements)))
         [(Pg, empty_meta); (Mysql, _meta); (Sqlite, _meta)].
Proof.
  intros tag dir Hcustom Hdiff Hstmts Hw. subst dir.
  pose proof Hw as (Hs & Hname & _).
  destruct (unit_paths (out config) tag Hs Hname) as (_ & -> & ->).
  pose proof (unit_writable_without_bundle _ _ _ _ Hw) as Hw0.
  repeat apply Forall_cons_2; [..|apply Forall_nil_2]; simpl;
    unfold prepareAndMigratePg, prepareAndMigrateMysql, prepareAndMigrateSqlite;
    rewrite Hcustom, Hdiff; simpl.
  - destruct (writeResult_ok Date_parse CommonSchema Meta empty_meta schema_view
                stringify_toSave prepareMigrationMetadata
                (mkArgs cur sqlStatements None (out config) (breakpoints config)
                   (config_name config) None None) w) as [c' ->];
      [exact Hw0|by right|].
    simpl. split; [done|].
    by destruct (written_unit Date_parse CommonSchema Meta empty_meta
                   stringify_toSave prepareMigrationMetadata
                   (mkArgs cur sqlStatements None (out config) (breakpoints config)
                      (config_name config) None None) (files w) Hw0) as (_ & ? & ?).
  - destruct (writeResult_ok Date_parse CommonSchema Meta empty_meta schema_view
                stringify_toSave prepareMigrationMetadata
                (mkArgs cur sqlStatements (Some _meta) (out config) (breakpoints config)
                   (config_name config) None None) w) as [c' ->];
      [exact Hw0|by right|].
    simpl. split; [done|].
    by destruct (written_unit Date_parse CommonSchema Meta empty_meta
                   stringify_toSave prepareMigrationMetadata
                   (mkArgs cur sqlStatements (Some _meta) (out config)
                      (breakpoints config) (config_name config) None None)
                   (files w) Hw0) as (_ & ? & ?).
  - destruct (writeResult_ok Date_parse CommonSchema Meta empty_meta schema_view
                stringify_toSave prepareMigrationMetadata
                (mkArgs cur sqlStatements (Some _meta) (out config) (breakpoints config)
                   (config_name config) (config_bundle config) None) w) as [c' ->];
      [exact Hw|by right|].
    simpl. split; [done|].
    by destruct (written_unit Date_parse CommonSchema Meta empty_meta
                   stringify_toSave prepareMigrationMetadata
                   (mkArgs cur sqlStatements (Some _meta) (out config)
                      (breakpoints config) (config_name config)
                      (config_bundle config) None)
                   (files w) Hw) as (_ & ? & ?).
Qed.
End CommandExtras.

Lemma generated_snapshot_meta_witness :
  let X := mkObj 1 "users" "" in
  let A := mkObj 2 "members" "" in
  let diff : Differ Obj (list string * string) :=
    AwaitTablesResolver (ResolverInput.mk [A] [X])
      (λ _, Diffed (["ALTER TABLE users RENAME TO members;"], "renames")) in
  let config := mkConfig "drizzle" None true false None in
  let w := mkWorld [("drizzle", Directory)] [] in
  let answers := [submitted (Rename (mkRename X A))] in
  let pg := prepareAndMigratePg (λ _, NaN) string string "empty" (λ _, "schema")
              (λ cur _meta, cur +:+ ":" +:+ _meta)
              (λ _, ("20240101120000", "20240101120000_first"))
              config "cur" "custom" diff answers w in
  pg.1 = (Done tt, [])
  ∧ fs_lookup (files pg.2) "drizzle/20240101120000_first/snapshot.json"
    = Some (File "cur:empty")
  ∧ fs_lookup (files pg.2) "drizzle/20240101120000_first/migration.sql"
    = Some (File "ALTER TABLE users RENAME TO members;").
Proof.
  intros X A diff config w answers pg.
  assert (config_custom config = false) as Hcustom by reflexivity.
  assert (run_differ diff answers
          = (Done (["ALTER TABLE users RENAME TO members;"], "renames"), []))
    as Hdiff by reflexivity.
  assert (["ALTER TABLE users RENAME TO members;"] ≠ []) as Hstmts by done.
  assert (unit_writable (files w) (out config) "20240101120000_first"
            (default false (config_bundle config))) as Hw.
  { do 6 (split; [reflexivity|]). intros [=]. }
  pose proof (generated_snapshot_meta (λ _, NaN) string string "empty"
                (λ _, "schema") (λ cur _meta, cur +:+ ":" +:+ _meta)
                (λ _, ("20240101120000", "20240101120000_first"))
                config "cur" "custom" diff answers [] _ _ w Hcustom Hdiff Hstmts Hw)
    as Hall.
  apply Forall_cons_1 in Hall as [Hpg _].
  exact Hpg.
Defined.

(** * More of the journal *)

(** A decimal numeral is ["0"] or starts with another digit. *)
Lemma pretty_N_go_head (x : N) (s : string) :
  (0 < x)%N → ∃ c rest, pretty_N_go x s = String c rest ∧ c ≠ "0"%char.
Proof.
  revert s. induction (N.lt_wf_0 x) as [x _ IH]; intros s Hx.
  rewrite pretty_N_go_step by done.
  destruct (decide (x `div` 10 = 0)%N) as [Hz|Hnz].
  - rewrite Hz, pretty_N_go_0. eexists _, _. split; [done|].
    apply N.div_small_iff in Hz; [|done].
    rewrite N.mod_small by done.
    assert (x = 1 ∨ x = 2 ∨ x = 3 ∨ x = 4 ∨ x = 5 ∨ x = 6
            ∨ x = 7 ∨ x = 8 ∨ x = 9)%N as Hcases by lia.
    destruct Hcases as [->|[->|[->|[->|[->|[->|[->|[->| ->]]]]]]]]; done.
  - apply IH; [by apply N.div_lt|by apply N.neq_0_lt_0].
Qed.

Lemma pretty_nat_head (n : nat) :
  pretty n = "0" ∨ ∃ c rest, pretty n = String c rest ∧ c ≠ "0"%char.
Proof.
  unfold pretty, pretty_nat, pretty, pretty_N.
  destruct (decide (N.of_nat n = 0)%N) as [|Hne]; [by left|right].
  apply pretty_N_go_head. lia.
Qed.

Lemma zeros_app_inj (k j : nat) (s t : string) :
  (s = "0" ∨ ∃ c rest, s = String c rest ∧ c ≠ "0"%char) →
  (t = "0" ∨ ∃ c rest, t = String c rest ∧ c ≠ "0"%char) →
  repeat_char k "0" +:+ s = repeat_char j "0" +:+ t → s = t.
Proof.
  intros Hs Ht. revert j. induction k as [|k IH]; intros [|j]; simpl.
  - done.
  - change (s = String "0" (repeat_char j "0" +:+ t) → s = t). intros ->.
    destruct Hs as [[= Hnil]|(c & rest & [= <- _] & Hc)]; [|done].
    destruct j; simpl in Hnil.
    + change (t = "") in Hnil. subst t.
      by destruct Ht as [|(c & rest & ? & _)].
    + done.
  - change (String "0" (repeat_char k "0" +:+ s) = t → s = t). intros <-.
    destruct Ht as [[= Hnil]|(c & rest & [= <- _] & Hc)]; [|done].
    destruct k; simpl in Hnil.
    + change (s = "") in Hnil. subst s.
      by destruct Hs as [|(c & rest & ? & _)].
    + done.
  - change (String "0" (repeat_char k "0" +:+ s)
            = String "0" (repeat_char j "0" +:+ t) → s = t).
    intros [= Heq]. by apply (IH j).
Qed.

Lemma padStart_pretty_inj (len n m : nat) :
  padStart len "0" (pretty n) = padStart len "0" (pretty m) → n = m.
Proof.
  unfold padStart. intros Heq.
  apply zeros_app_inj in Heq; [|apply pretty_nat_head..].
  by apply (inj pretty).
Qed.

Lemma importName_inj (i j : nat) : importName i = importName j → i = j.
Proof.
  unfold importName. intros Heq.
  apply (inj (String.app "m")) in Heq. by apply padStart_pretty_inj in Heq.
Qed.

Lemma NoDup_imap_index {A B} (g : nat → B) (l : list A) :
  (∀ i j, g i = g j → i = j) → NoDup (imap (λ i _, g i) l).
Proof.
  revert g. induction l as [|x l IH]; intros g Hg; simpl; [constructor|].
  constructor.
  - intros (i & y & Heq & _)%elem_of_lookup_imap. by apply Hg in Heq.
  - apply (IH (g ∘ S)). intros i j Heq. apply Hg in Heq. lia.
Qed.

(** X14.  The import names of a manifest are pairwise distinct, however
    many directories there are: past [m9999] the names grow longer instead
    of repeating. *)
Theorem manifest_import_names_are_distinct (folders : list string) :
  NoDup (imap (λ idx _, importName idx) folders).
Proof. apply NoDup_imap_index, importName_inj. Qed.

(** The two characters of a date field, and the four of a year. *)
Lemma two_chars (n : nat) :
  n < 100 →
  ∃ c1 c2, two n = String c1 (String c2 "")
           ∧ is_digit c1 = true ∧ is_digit c2 = true.
Proof.
  intros Hn.
  assert (forallb (λ n, match two n with
                        | String c1 (String c2 "") => is_digit c1 && is_digit c2
                        | _ => false
                        end) (seq 0 100) = true) as Hall by (vm_compute; reflexivity).
  rewrite forallb_forall in Hall.
  assert (In n (seq 0 100)) as Hin by (apply in_seq; lia).
  specialize (Hall n Hin).
  destruct (two n) as [|c1 [|c2 [|]]]; try discriminate Hall.
  exists c1, c2. split; [done|].
  by apply andb_true_iff.
Qed.

Lemma year_chars (year : Z) :
  (1000 ≤ year ≤ 9999)%Z →
  ∃ c1 c2 c3 c4, pretty year = String c1 (String c2 (String c3 (String c4 "")))
                 ∧ is_digit c1 = true ∧ is_digit c2 = true
                 ∧ is_digit c3 = true ∧ is_digit c4 = true.
Proof.
  intros Hyear.
  assert (forallb (λ n, match pretty (Z.of_nat (1000 + n)) with
                        | String c1 (String c2 (String c3 (String c4 ""))) =>
                            is_digit c1 && is_digit c2 && is_digit c3 && is_digit c4
                        | _ => false
                        end) (seq 0 (9 * 1000)) = true) as Hall
    by (vm_compute; reflexivity).
  rewrite forallb_forall in Hall.
  assert (In (Z.to_nat (year - 1000)) (seq 0 (9 * 1000))) as Hin
    by (apply in_seq; lia).
  specialize (Hall _ Hin).
  replace (Z.of_nat (1000 + Z.to_nat (year - 1000))) with year in Hall by lia.
  destruct (pretty year) as [|c1 [|c2 [|c3 [|c4 [|]]]]]; try discriminate Hall.
  exists c1, c2, c3, c4. split; [done|].
  apply andb_true_iff in Hall as [Hall H4].
  apply andb_true_iff in Hall as [Hall H3].
  apply andb_true_iff in Hall as [H1 H2]. done.
Qed.

(** X15.  For a date of a four-digit year, [prepareSnapshotFolderName]
    gives fourteen digits, so a valid timestamp of a tag, and
    [timestampToMillis] reads the fields back from it: it parses the ISO
    string of the local year and the UTC month (counted from 1), day, hour,
    minute and second, each of two digits. *)
Theorem snapshot_folder_name_round_trip (Date_parse : string → number) (now : Date) :
  (1000 ≤ getFullYear now ≤ 9999)%Z →
  getUTCMonth now < 12 → getUTCDate now < 32 → getUTCHours now < 24 →
  getUTCMinutes now < 60 → getUTCSeconds now < 60 →
  let name := prepareSnapshotFolderName now in
  String.length name = 14
  ∧ all_digits name = true
  ∧ valid_tag name = true
  ∧ timestampToMillis Date_parse name
    = Date_parse (pretty (getFullYear now) +:+ "-" +:+ two (getUTCMonth now + 1)
                  +:+ "-" +:+ two (getUTCDate now) +:+ "T" +:+ two (getUTCHours now)
                  +:+ ":" +:+ two (getUTCMinutes now) +:+ ":" +:+ two (getUTCSeconds now)
                  +:+ ".000Z").
Proof.
  destruct now as [year month day hr min sec]. simpl.
  intros Hyear Hmonth Hday Hhr Hmin Hsec.
  unfold prepareSnapshotFolderName, timestampToMillis, valid_tag. simpl.
  destruct (year_chars year Hyear) as (y1 & y2 & y3 & y4 & -> & Hy1 & Hy2 & Hy3 & Hy4).
  destruct (two_chars (month + 1)) as (m1 & m2 & -> & Hm1 & Hm2); [lia|].
  destruct (two_chars day) as (d1 & d2 & -> & Hd1 & Hd2); [lia|].
  destruct (two_chars hr) as (h1 & h2 & -> & Hh1 & Hh2); [lia|].
  destruct (two_chars min) as (i1 & i2 & -> & Hi1 & Hi2); [lia|].
  destruct (two_chars sec) as (s1 & s2 & -> & Hs1 & Hs2); [lia|].
  assert (all_digits
            (String y1 (String y2 (String y3 (String y4
            (String m1 (String m2 (String d1 (String d2
            (String h1 (String h2 (String i1 (String i2
            (String s1 (String s2 "")))))))))))))) = true) as Hdigits.
  { simpl. by rewrite Hy1, Hy2, Hy3, Hy4, Hm1, Hm2, Hd1, Hd2, Hh1, Hh2, Hi1, Hi2,
             Hs1, Hs2. }
  split; [reflexivity|]. split; [exact Hdigits|]. split; [|reflexivity].
  apply andb_true_iff. split; [reflexivity|exact Hdigits].
Qed.

Lemma snapshot_folder_name_round_trip_witness :
  let now := mkDate 2024 0 5 9 30 7 in
  let name := prepareSnapshotFolderName now in
  name = "20240105093007"
  ∧ String.length name = 14
  ∧ all_digits name = true
  ∧ valid_tag name = true
  ∧ timestampToMillis (λ iso, if String.eqb iso "2024-01-05T09:30:07.000Z"
                              then Num 1704447007000 else NaN) name
    = Num 1704447007000.
Proof.
  intros now name. split; [reflexivity|].
  apply (snapshot_folder_name_round_trip
           (λ iso, if String.eqb iso "2024-01-05T09:30:07.000Z"
                   then Num 1704447007000 else NaN) now);
    simpl; lia.
Defined.

(** * More of the suggestions *)

Lemma serial_columns_cons (current : Table.t) (rest : list Table.t) :
  serial_columns (current :: rest)
  = ((λ column, (current, column)) <$> serials current) ++ serial_columns rest.
Proof. done. Qed.

Lemma bind_fmap_pairs {A B C} (f : A → B) (g : B → list C) (l : list A) :
  (f <$> l) ≫= g = l ≫= (g ∘ f).
Proof.
  induction l as [|x l IH]; [done|].
  by rewrite fmap_cons, !bind_cons, IH.
Qed.

Section SuggestionFacts.
Variables errorWarning suggestion blue blueBright : string → string.

Local Abbreviation warning := (suggestionTypes_serial errorWarning).
Local Abbreviation text := (serial_suggestion suggestion blue blueBright).
Local Abbreviation columns_loop :=
  (for_columns errorWarning suggestion blue blueBright).
Local Abbreviation tables_loop := (for_tables errorWarning suggestion blue blueBright).

Local Abbreviation suggestion_of' := (suggestion_of suggestion blue blueBright).

Lemma for_columns_Some prevSchema current prevTable columns suggestions :
  prevSchema (Table.name current) = Some prevTable →
  columns_loop prevSchema current columns suggestions
  = Some (suggestions
          ++ (filter (λ column, Column.type column = "serial") columns
              ≫= λ column, [warning; text prevTable current column])).
Proof.
  intros Hprev. revert suggestions.
  induction columns as [|column rest IH]; intros suggestions; simpl.
  - by rewrite app_nil_r.
  - destruct (decide (Column.type column = "serial")) as [Hserial|Hother].
    + rewrite Hprev, IH, filter_cons_True by done. simpl.
      by rewrite <- !app_assoc.
    + by rewrite IH, filter_cons_False.
Qed.

Lemma for_columns_None prevSchema current columns suggestions :
  prevSchema (Table.name current) = None →
  columns_loop prevSchema current columns suggestions
  = if decide (filter (λ column, Column.type column = "serial") columns = [])
    then Some suggestions else None.
Proof.
  intros Hprev. revert suggestions.
  induction columns as [|column rest IH]; intros suggestions; simpl; [done|].
  destruct (decide (Column.type column = "serial")) as [Hserial|Hother].
  - by rewrite Hprev, filter_cons_True.
  - by rewrite IH, filter_cons_False.
Qed.

Lemma for_tables_Some prevSchema tables suggestions result :
  tables_loop prevSchema tables suggestions = Some result →
  ∃ texts,
    Forall2 (suggestion_of' prevSchema) (serial_columns tables) texts
    ∧ result = suggestions ++ (texts ≫= λ pushed, [warning; pushed]).
Proof.
  revert suggestions.
  induction tables as [|current rest IH]; intros suggestions; cbn [for_tables].
  - intros [= <-]. exists []. split; [constructor|]. by rewrite app_nil_r.
  - rewrite serial_columns_cons.
    destruct (prevSchema (Table.name current)) as [prevTable|] eqn:Hprev.
    + rewrite (for_columns_Some _ _ prevTable) by done.
      intros (texts & Htexts & ->)%IH.
      exists ((text prevTable current <$> serials current) ++ texts). split.
      * apply Forall2_app; [|done].
        apply Forall2_fmap, Forall_Forall2_diag, Forall_forall.
        intros column _. by exists prevTable.
      * rewrite bind_app, bind_fmap_pairs, <- app_assoc. done.
    + rewrite for_columns_None by done. unfold serials.
      destruct (decide (filter (λ column, Column.type column = "serial")
                          (Table.columns current) = [])) as [->|]; [|done].
      simpl. apply IH.
Qed.

Lemma for_tables_None prevSchema tables suggestions :
  tables_loop prevSchema tables suggestions = None
  ↔ ∃ current, current ∈ tables ∧ serials current ≠ []
               ∧ prevSchema (Table.name current) = None.
Proof.
  revert suggestions.
  induction tables as [|current rest IH]; intros suggestions; simpl.
  - split; [done|]. by intros (current & Hin%elem_of_nil & _).
  - destruct (prevSchema (Table.name current)) as [prevTable|] eqn:Hprev.
    + rewrite (for_columns_Some _ _ prevTable) by done. rewrite IH.
      split.
      * intros (other & Hin & Hserial & Hnone). exists other.
        split; [by right|done].
      * intros (other & Hin & Hserial & Hnone).
        apply elem_of_cons in Hin as [->|Hin]; [congruence|].
        by exists other.
    + rewrite for_columns_None by done. fold (serials current).
      destruct (decide (serials current = [])) as [Hnil|Hserial].
      * rewrite IH. split.
        -- intros (other & Hin & Hserial & Hnone). exists other.
           split; [by right|done].
        -- intros (other & Hin & Hserial & Hnone).
           apply elem_of_cons in Hin as [->|Hin]; [done|].
           by exists other.
      * split; [|done]. intros _. exists current. split; [left|done].
Qed.

(** X16.  When [mysqlSchemaSuggestions] returns, its list holds the
    deprecation warning before the suggestion of every serial column, in
    the order of the tables and their columns; [usedSuggestions] is never
    filled, so the warning is repeated, and the list is twice as long as
    there are serial columns. *)
Theorem serial_warning_before_every_suggestion
    (curSchema : list Table.t) (prevSchema : string → option Table.t)
    (suggestions : list string) :
  mysqlSchemaSuggestions errorWarning suggestion blue blueBright curSchema prevSchema
  = Some suggestions →
  length suggestions = 2 * length (serial_columns curSchema)
  ∧ ∃ texts,
      Forall2 (suggestion_of' prevSchema) (serial_columns curSchema) texts
      ∧ suggestions = texts ≫= λ pushed, [warning; pushed].
Proof.
  intros (texts & Htexts & ->)%for_tables_Some. simpl. split.
  - rewrite (Forall2_length _ _ _ Htexts). clear Htexts.
    induction texts as [|pushed texts IH]; [done|].
    rewrite bind_cons, length_app, IH. simpl. lia.
  - by exists texts.
Qed.

(** X17.  [mysqlSchemaSuggestions] throws exactly when [curSchema] has a
    table with a serial column that [prevSchema] does not have: it reads
    [uniqueConstraints] of [prevSchema.tables[table.name]], which is
    undefined for a new table. *)
Theorem serial_column_of_a_new_table_throws
    (curSchema : list Table.t) (prevSchema : string → option Table.t) :
  mysqlSchemaSuggestions errorWarning suggestion blue blueBright curSchema prevSchema
  = None
  ↔ ∃ current column,
      current ∈ curSchema ∧ column ∈ Table.columns current
      ∧ Column.type column = "serial"
      ∧ prevSchema (Table.name current) = None.
Proof.
  unfold mysqlSchemaSuggestions. rewrite for_tables_None. split.
  - intros (current & Hin & Hserial & Hnone).
    destruct (serials current) as [|column rest] eqn:E; [done|].
    assert (column ∈ serials current) as Hcol by (rewrite E; left).
    apply list_elem_of_filter in Hcol as [Htype Hcol].
    by exists current, column.
  - intros (current & column & Hin & Hcol & Htype & Hnone).
    exists current. split; [done|]. split; [|done].
    intros Hnil.
    assert (column ∈ serials current) as Hser by by apply list_elem_of_filter.
    rewrite Hnil in Hser. by apply elem_of_nil in Hser.
Qed.
End SuggestionFacts.

Lemma serial_warning_before_every_suggestion_witness :
  let users := Table.mk "users"
                 [Column.mk "id" "serial"; Column.mk "name" "text";
                  Column.mk "visits" "serial"]
                 [UniqueConstraint.mk "users_id_unique" ["id"]] in
  let prevSchema := λ key, if String.eqb key "users" then Some users else None in
  ∃ suggestions,
    mysqlSchemaSuggestions id id id id [users] prevSchema = Some suggestions
    ∧ length suggestions = 2 * length (serial_columns [users])
    ∧ ∃ texts,
        Forall2 (suggestion_of id id id prevSchema) (serial_columns [users]) texts
        ∧ suggestions = texts ≫= λ pushed, [suggestionTypes_serial id; pushed].
Proof.
  intros users prevSchema. eexists. split; [reflexivity|].
  apply (serial_warning_before_every_suggestion id id id id [users] prevSchema).
  reflexivity.
Defined.
